(** * Aelin docs content pipeline: a shallow embedding and its properties

    The definitions below follow [lib/markdown-utils.ts] and the docs
    pipeline module ([resolveDocsRelativePath], [resolveMarkdownHref],
    the heading hook, [findDocBySlug], [buildDocsTree], [getSnapshot], ...).
    The second part follows the rest of the site: the link and image hooks,
    [lib/base-path.ts], [lib/about.ts], the docs page and the dev launcher.

    A [string] holds the UTF-8 bytes of a JavaScript string.  The classes
    and literals of the source's regular expressions are ASCII, and an ASCII
    byte of UTF-8 text is a character of its own, so these are matched byte
    by byte.  White space ([trim], the [\s] class) and line terminators are
    those of ECMAScript, recognised by their byte sequences.  Where the
    source lower-cases arbitrary text ([slugify], the search of the docs
    page), [String.prototype.toLowerCase] is a parameter on which nothing is
    assumed. *)

From Stdlib Require Import Ascii String ZArith QArith Qcanon DecimalString.
From Stdlib Require Import Permutation Sorted.
From stdpp Require Import gmap strings list.

Set Warnings "-register-all".

Local Open Scope string_scope.
Local Open Scope list_scope.
Local Open Scope nat_scope.
Local Open Scope stdpp_scope.

(** ** JavaScript string primitives *)

Module Js.

Fixpoint map (f : ascii → ascii) (s : string) : string :=
  match s with
  | EmptyString => EmptyString
  | String c s' => String (f c) (map f s')
  end.

(** [s.replace(/\\/g, "/")] *)
Definition backslashToSlash (s : string) : string :=
  map (λ c, if Ascii.eqb c "\" then "/"%char else c) s.

(** [s.split(sep)] for a one-character separator; never returns []. *)
Fixpoint split (sep : ascii) (s : string) : list string :=
  match s with
  | EmptyString => [EmptyString]
  | String c s' =>
      if Ascii.eqb c sep then EmptyString :: split sep s'
      else match split sep s' with
           | [] => [String c EmptyString]
           | w :: ws => String c w :: ws
           end
  end.

(** [parts.join(sep)] *)
Fixpoint join (sep : string) (l : list string) : string :=
  match l with
  | [] => EmptyString
  | [x] => x
  | x :: rest => x +:+ sep +:+ join sep rest
  end.

(** [s.startsWith(p)] *)
Fixpoint startsWith (p s : string) : bool :=
  match p, s with
  | EmptyString, _ => true
  | String a p', String b s' => Ascii.eqb a b && startsWith p' s'
  | String _ _, EmptyString => false
  end.

(** [s.slice(n)] for [0 ≤ n] *)
Fixpoint sliceFrom (n : nat) (s : string) : string :=
  match n, s with
  | O, _ => s
  | S n', String _ s' => sliceFrom n' s'
  | S _, EmptyString => EmptyString
  end.

(** [s.slice(0, n)] for [0 ≤ n] *)
Fixpoint sliceTo (n : nat) (s : string) : string :=
  match n, s with
  | O, _ => EmptyString
  | S n', String c s' => String c (sliceTo n' s')
  | S _, EmptyString => EmptyString
  end.

(** [s.slice(0, -n)] for [0 < n] *)
Definition dropEnd (n : nat) (s : string) : string :=
  sliceTo (String.length s - n) s.

(** [s.endsWith(p)] *)
Definition endsWith (p s : string) : bool :=
  (String.length p <=? String.length s)
  && String.eqb (sliceFrom (String.length s - String.length p) s) p.

(** [s.indexOf(c)] for a one-character needle; [None] is [-1]. *)
Fixpoint indexOf (c : ascii) (s : string) : option nat :=
  match s with
  | EmptyString => None
  | String a s' =>
      if Ascii.eqb a c then Some 0 else S <$> indexOf c s'
  end.

Definition isUpper (c : ascii) : bool :=
  (65 <=? nat_of_ascii c) && (nat_of_ascii c <=? 90).

Definition lowerChar (c : ascii) : ascii :=
  if isUpper c then ascii_of_nat (nat_of_ascii c + 32) else c.

(** Lower-casing of the letters [A] to [Z], every other byte kept.  This is
    what the [i] flag does to an ASCII pattern in a regular expression
    without the [u] flag.  It also stands for [s.toLowerCase()] where the
    source only asks whether the result ends with, or is, [.md] or [.mdx]:
    no character outside the ASCII range lower-cases to a text that holds
    [.], [m], [d] or [x]. *)
Definition toLowerCase (s : string) : string := map lowerChar s.

(** The string of the bytes with the given codes. *)
Definition bytes (codes : list nat) : string :=
  string_of_list_ascii (ascii_of_nat <$> codes).

(** The white space of [trim] and of the [\s] class, each character as its
    UTF-8 bytes: the WhiteSpace and LineTerminator code points of
    ECMAScript. *)
Definition whiteSpace : list string :=
  bytes <$>
    [ [9]; [10]; [11]; [12]; [13]; [32];       (* TAB LF VT FF CR SP *)
      [194; 160];                               (* U+00A0 *)
      [225; 154; 128];                          (* U+1680 *)
      [226; 128; 128]; [226; 128; 129]; [226; 128; 130]; [226; 128; 131];
      [226; 128; 132]; [226; 128; 133]; [226; 128; 134]; [226; 128; 135];
      [226; 128; 136]; [226; 128; 137]; [226; 128; 138];   (* U+2000-U+200A *)
      [226; 128; 168]; [226; 128; 169];         (* U+2028 U+2029 *)
      [226; 128; 175];                          (* U+202F *)
      [226; 129; 159];                          (* U+205F *)
      [227; 128; 128];                          (* U+3000 *)
      [239; 187; 191] ].                        (* U+FEFF *)

(** The line terminators: LF, CR, U+2028 and U+2029. *)
Definition lineTerminators : list string :=
  bytes <$> [ [10]; [13]; [226; 128; 168]; [226; 128; 169] ].

(** The member of [class] that [s] starts with, if any. *)
Definition classAt (class : list string) (s : string) : option string :=
  List.find (λ w, startsWith w s) class.

(** The white-space character that [s] starts with, if any. *)
Definition spaceAt (s : string) : option string := classAt whiteSpace s.

(** [s.replace(/^\s+/, "")]; [skip] counts the bytes still to be passed
    over of the white-space character the scan is in. *)
Fixpoint dropSpaces (skip : nat) (s : string) : string :=
  match s with
  | EmptyString => EmptyString
  | String _ s' =>
      match skip with
      | S k => dropSpaces k s'
      | O =>
          match spaceAt s with
          | Some w => dropSpaces (String.length w - 1) s'
          | None => s
          end
      end
  end.

Definition trimStart (s : string) : string := dropSpaces 0 s.

(** [s.replace(/\s+$/, "")]: the text without its longest suffix of white
    space. *)
Fixpoint trimEnd (s : string) : string :=
  match s with
  | EmptyString => EmptyString
  | String c s' =>
      match trimStart s with
      | EmptyString => EmptyString
      | _ => String c (trimEnd s')
      end
  end.

(** [s.trim()] *)
Definition trim (s : string) : string := trimEnd (trimStart s).

(** Truthiness of a string: [!s] is [isEmpty s]. *)
Definition isEmpty (s : string) : bool :=
  match s with EmptyString => true | _ => false end.

(** [/^p/i.test(s)] for a literal ASCII pattern [p] *)
Definition startsWithNoCase (p s : string) : bool :=
  startsWith (toLowerCase p) (toLowerCase (sliceTo (String.length p) s)).

Definition hexDigit (n : nat) : ascii :=
  ascii_of_nat (if n <? 10 then 48 + n else 55 + n).

Definition isUnreserved (c : ascii) : bool :=
  let n := nat_of_ascii c in
  ((65 <=? n) && (n <=? 90)) || ((97 <=? n) && (n <=? 122))
  || ((48 <=? n) && (n <=? 57))
  || bool_decide (c ∈ ["-"; "_"; "."; "!"; "~"; "*"; "'"; "("; ")"]%char).

(** [encodeURIComponent(s)] on the UTF-8 bytes of [s] *)
Fixpoint encodeURIComponent (s : string) : string :=
  match s with
  | EmptyString => EmptyString
  | String c s' =>
      if isUnreserved c then String c (encodeURIComponent s')
      else
        let n := nat_of_ascii c in
        String "%" (String (hexDigit (n / 16)) (String (hexDigit (n mod 16))
          (encodeURIComponent s')))
  end.

(** Template-literal rendering of a non-negative integer. *)
Definition ofNat (n : nat) : string := NilZero.string_of_uint (Nat.to_uint n).

(** The double-quote character. *)
Definition dq : ascii := "034"%char.

(** [s.replace(/[class]/g, "")] *)
Fixpoint removeChars (p : ascii → bool) (s : string) : string :=
  match s with
  | EmptyString => EmptyString
  | String c s' => if p c then removeChars p s' else String c (removeChars p s')
  end.

(** [s.replace(/[class]+/g, r)]; [inRun] tells that the previous
    character already belonged to the run being replaced. *)
Fixpoint replaceRuns (p : ascii → bool) (r : string) (inRun : bool)
    (s : string) : string :=
  match s with
  | EmptyString => EmptyString
  | String c s' =>
      if p c then
        if inRun then replaceRuns p r true s' else r +:+ replaceRuns p r true s'
      else String c (replaceRuns p r false s')
  end.

(** [s.replace(/c/g, r)] *)
Fixpoint replaceChar (c : ascii) (r : string) (s : string) : string :=
  match s with
  | EmptyString => EmptyString
  | String a s' =>
      if Ascii.eqb a c then r +:+ replaceChar c r s' else String a (replaceChar c r s')
  end.

Definition memChar (c : ascii) (class : string) : bool :=
  bool_decide (is_Some (indexOf c class)).

(** [s.replace(/\s+/g, r)]; [inRun] tells that the scan stands right after
    a white-space character, and [skip] counts the bytes still to be passed
    over of the one it is in. *)
Fixpoint replaceSpaceRuns (r : string) (inRun : bool) (skip : nat)
    (s : string) : string :=
  match s with
  | EmptyString => EmptyString
  | String c s' =>
      match skip with
      | S k => replaceSpaceRuns r inRun k s'
      | O =>
          match spaceAt s with
          | Some w =>
              (if inRun then EmptyString else r)
              +:+ replaceSpaceRuns r true (String.length w - 1) s'
          | None => String c (replaceSpaceRuns r false 0 s')
          end
      end
  end.

(** The white-space characters that [s] starts with, in order. *)
Fixpoint spaceRun (skip : nat) (s : string) : list string :=
  match s with
  | EmptyString => []
  | String _ s' =>
      match skip with
      | S k => spaceRun k s'
      | O =>
          match spaceAt s with
          | Some w => w :: spaceRun (String.length w - 1) s'
          | None => []
          end
      end
  end.

(** The run of [.] that [s] starts with: the text up to the first line
    terminator. *)
Fixpoint lineHead (s : string) : string :=
  match s with
  | EmptyString => EmptyString
  | String c s' =>
      match classAt lineTerminators s with
      | Some _ => EmptyString
      | None => String c (lineHead s')
      end
  end.

End Js.

(** ** [lib/markdown-utils.ts]: path helpers *)

Definition toPosixPath (filePath : string) : string :=
  Js.backslashToSlash filePath.

Definition encodePath (pathname : string) : string :=
  Js.join "/" (Js.encodeURIComponent <$> Js.split "/" pathname).

Record PathAndSuffix := { pathname : string; suffix : string }.

Definition splitPathAndSuffix (rawUrl : string) : PathAndSuffix :=
  let queryIndex := Js.indexOf "?" rawUrl in
  let hashIndex := Js.indexOf "#" rawUrl in
  let splitIndex :=
    match queryIndex with
    | None => hashIndex
    | Some q => match hashIndex with
                | None => Some q
                | Some h => Some (Nat.min q h)
                end
    end in
  match splitIndex with
  | None => {| pathname := rawUrl; suffix := "" |}
  | Some i => {| pathname := Js.sliceTo i rawUrl; suffix := Js.sliceFrom i rawUrl |}
  end.

(** ** The link resolver *)

Definition stripLast {A} (l : list A) : list A := removelast l.

(** The list of segments the resolver walks. *)
Definition resolveParts (currentDocPath rawPath : string) : list string :=
  let normalizedInput := Js.backslashToSlash rawPath in
  let currentDir := stripLast (Js.split "/" currentDocPath) in
  if Js.startsWith "/" normalizedInput
  then Js.split "/" (Js.sliceFrom 1 normalizedInput)
  else currentDir ++ Js.split "/" normalizedInput.

(** The [for (const segment of parts)] loop; [None] is the early
    [return null] on a [..] that finds [safeParts] empty. *)
Fixpoint walkParts (parts safeParts : list string) : option (list string) :=
  match parts with
  | [] => Some safeParts
  | segment :: rest =>
      if Js.isEmpty segment || String.eqb segment "." then walkParts rest safeParts
      else if String.eqb segment ".." then
        match safeParts with
        | [] => None
        | _ => walkParts rest (stripLast safeParts)
        end
      else walkParts rest (safeParts ++ [segment])
  end.

Definition resolveDocsRelativePath (currentDocPath rawPath : string)
  : option string :=
  match walkParts (resolveParts currentDocPath rawPath) [] with
  | None => None
  | Some [] => None
  | Some safeParts => Some (Js.join "/" safeParts)
  end.

Definition toDocHref (slug : list string) : string :=
  match slug with
  | [] => "/docs"
  | _ => "/docs/" +:+ encodePath (Js.join "/" slug)
  end.

(** [/^(https?:|mailto:|tel:|#|data:|\/\/)/i.test(href)] *)
Definition isPassThroughHref (href : string) : bool :=
  Js.startsWithNoCase "http:" href || Js.startsWithNoCase "https:" href
  || Js.startsWithNoCase "mailto:" href || Js.startsWithNoCase "tel:" href
  || Js.startsWith "#" href || Js.startsWithNoCase "data:" href
  || Js.startsWith "//" href.

Definition resolveMarkdownHref (href currentDocPath : string)
    (docPathSet : gset string) : string :=
  if Js.isEmpty href then href
  else if isPassThroughHref href then href
  else
    let ps := splitPathAndSuffix href in
    if Js.isEmpty (pathname ps) then href
    else
      match resolveDocsRelativePath currentDocPath (pathname ps) with
      | None => href
      | Some resolvedPath =>
          if Js.isEmpty resolvedPath then href
          else
            match List.find (λ ext, Js.endsWith ext (Js.toLowerCase resolvedPath))
                    [".md"; ".mdx"] with
            | Some extension =>
                let slug :=
                  Js.split "/" (Js.dropEnd (String.length extension) resolvedPath) in
                toDocHref slug +:+ suffix ps
            | None =>
                if bool_decide (resolvedPath +:+ ".md" ∈ docPathSet)
                then toDocHref (Js.split "/" resolvedPath) +:+ suffix ps
                else if bool_decide (resolvedPath +:+ ".mdx" ∈ docPathSet)
                then toDocHref (Js.split "/" resolvedPath) +:+ suffix ps
                else "/api/docs-asset/" +:+ encodePath resolvedPath +:+ suffix ps
            end
      end.

(** *** Segment bookkeeping for the traversal-safety statements *)

(** The walk in terms of the depth below the content root only: each kept
    segment descends one level, [..] ascends one level, and the result is
    [true] when some [..] is met at depth 0. *)
Fixpoint ascendsAboveRoot (parts : list string) (depth : nat) : bool :=
  match parts with
  | [] => false
  | segment :: rest =>
      if Js.isEmpty segment || String.eqb segment "." then ascendsAboveRoot rest depth
      else if String.eqb segment ".." then
        match depth with
        | O => true
        | S d => ascendsAboveRoot rest d
        end
      else ascendsAboveRoot rest (S depth)
  end.

Definition noSlash (s : string) : Prop := Js.indexOf "/" s = None.

(** A segment that names a child: not empty, not [.], not [..], no [/]. *)
Definition childSegment (s : string) : Prop :=
  s ≠ "" ∧ s ≠ "." ∧ s ≠ ".." ∧ noSlash s.

(** A path that stays inside the content root: every segment is a child. *)
Definition insideRoot (p : string) : Prop :=
  Forall childSegment (Js.split "/" p).

(** ** [lib/markdown-utils.ts]: string helpers *)

(** The punctuation class that [slugify] deletes: the characters below
    and the double quote. *)
Definition slugPunctuation : string :=
  "`~!@#$%^&*()+={}[]|\:;'<>,.?/" +:+ String Js.dq "".

Definition escapeHtmlAttribute (value : string) : string :=
  Js.replaceChar ">" "&gt;"
    (Js.replaceChar "<" "&lt;"
       (Js.replaceChar Js.dq "&quot;"
          (Js.replaceChar "&" "&amp;" value))).

Record DocHeading := { id : string; level : nat; text : string }.

(** The two locals the heading hook closes over. *)
Record HeadingState := {
  headingCounts : gmap string nat;
  headings : list DocHeading;
}.

Definition initialHeadingState : HeadingState :=
  {| headingCounts := ∅; headings := [] |}.

Definition headingHtml (depth : nat) (id text : string) : string :=
  "<h" +:+ Js.ofNat depth +:+ " id=" +:+ String Js.dq ""
  +:+ escapeHtmlAttribute id +:+ String Js.dq "" +:+ ">" +:+ text
  +:+ "</h" +:+ Js.ofNat depth +:+ ">".

Section Slugs.
  (** [String.prototype.toLowerCase], the lower-casing of the runtime. *)
  Variable toLowerCase : string → string.

Definition slugify (input : string) : string :=
  Js.replaceRuns (λ c, Ascii.eqb c "-") "-" false
    (Js.replaceSpaceRuns "-" false 0
       (Js.removeChars (λ c, Js.memChar c slugPunctuation)
          (Js.trim (toLowerCase input)))).

(** ** The heading hook of [renderMarkdownToHtml] *)

(** [slugify(text) || "section"] *)
Definition headingBase (text : string) : string :=
  let s := slugify text in if Js.isEmpty s then "section" else s.

(** One call of [renderer.heading]: the id it computes, the HTML it
    returns and the state it leaves. *)
Definition heading (text : string) (depth : nat) (st : HeadingState)
  : string * string * HeadingState :=
  let base := headingBase text in
  let count := default 0 (headingCounts st !! base) in
  let counts' := <[base := count + 1]> (headingCounts st) in
  let id := if count =? 0 then base else base +:+ "-" +:+ Js.ofNat count in
  let headings' :=
    if (2 <=? depth) && (depth <=? 3)
    then headings st ++ [{| id := id; level := depth; text := text |}]
    else headings st in
  (id, headingHtml depth id text,
   {| headingCounts := counts'; headings := headings' |}).

(** One render: the parser calls the hook once per heading token, in
    document order.  The result lists the id and HTML of every call. *)
Fixpoint renderHeadings (tokens : list (string * nat)) (st : HeadingState)
  : list (string * string) * HeadingState :=
  match tokens with
  | [] => ([], st)
  | (text, depth) :: rest =>
      let '(id, html, st') := heading text depth st in
      let '(out, st'') := renderHeadings rest st' in
      ((id, html) :: out, st'')
  end.

(** Number of headings in [pre] whose base slug is that of [text]. *)
Definition sameBaseBefore (pre : list (string * nat)) (text : string) : nat :=
  length (filter (λ t, headingBase t.1 = headingBase text) pre).

Definition countsAgree (st : HeadingState) (seen : list (string * nat)) : Prop :=
  ∀ b, default 0 (headingCounts st !! b)
       = length (filter (λ t, headingBase t.1 = b) seen).

End Slugs.

(** The record the hook pushes for a call that got [id]. *)
Definition recordOf (call : (string * string) * (string * nat)) : DocHeading :=
  {| id := call.1.1; level := call.2.2; text := call.2.1 |}.

Definition outlineLevel (call : (string * string) * (string * nat)) : Prop :=
  2 ≤ call.2.2 ≤ 3.

#[local] Instance outlineLevel_dec call : Decision (outlineLevel call).
Proof. unfold outlineLevel. apply _. Defined.

(** ** [preprocessObsidianMarkdown] *)

Module Embed.

(** Longest prefix of characters satisfying [p], and what follows it. *)
Fixpoint span (p : ascii → bool) (s : string) : string * string :=
  match s with
  | EmptyString => (EmptyString, EmptyString)
  | String c s' =>
      if p c then let '(a, b) := span p s' in (String c a, b)
      else (EmptyString, s)
  end.

(** [[^\]\|]] *)
Definition targetChar (c : ascii) : bool :=
  negb (Ascii.eqb c "]") && negb (Ascii.eqb c "|").

(** [[^\]]] *)
Definition altChar (c : ascii) : bool := negb (Ascii.eqb c "]").

Record Match := {
  rawTarget : string;
  rawAlt : option string;      (* [None]: the group did not take part *)
  matched : nat;               (* length of the whole match *)
}.

(** One attempt of [/!\[\[([^\]\|]+?)(?:\|([^\]]+))?\]\]/] at the start of
    [s].  Whatever follows group 1 has to begin with [|] or []], neither of
    which group 1 may contain, so the lazy group ends at the first such
    character; likewise the greedy group 2 has to be followed by []] and
    therefore takes the whole run of characters other than []]. *)
Definition matchAt (s : string) : option Match :=
  if Js.startsWith "![[" s then
    let '(target, r1) := span targetChar (Js.sliceFrom 3 s) in
    if Js.isEmpty target then None
    else if Js.startsWith "|" r1 then
      let '(alt, r2) := span altChar (Js.sliceFrom 1 r1) in
      if Js.isEmpty alt then None
      else if Js.startsWith "]]" r2 then
        Some {| rawTarget := target; rawAlt := Some alt;
                matched := 3 + String.length target + 1 + String.length alt + 2 |}
      else None
    else if Js.startsWith "]]" r1 then
      Some {| rawTarget := target; rawAlt := None;
              matched := 3 + String.length target + 2 |}
    else None
  else None.

(** [s.replace(/^\/+/, "")] *)
Fixpoint stripLeadingSlashes (s : string) : string :=
  match s with
  | String c s' => if Ascii.eqb c "/" then stripLeadingSlashes s' else s
  | EmptyString => EmptyString
  end.

(** [s.replace(/^\.\//, "")] *)
Definition stripDotSlash (s : string) : string :=
  if Js.startsWith "./" s then Js.sliceFrom 2 s else s.

Definition target (rawTarget : string) : string :=
  stripDotSlash (stripLeadingSlashes (Js.backslashToSlash (Js.trim rawTarget))).

(** The replacement callback. *)
Definition replacement (rootRelative : bool) (m : Match) : string :=
  let alt := Js.trim (default "" (rawAlt m)) in
  if rootRelative
  then "![" +:+ alt +:+ "](/" +:+ target (rawTarget m) +:+ ")"
  else "![" +:+ alt +:+ "](" +:+ target (rawTarget m) +:+ ")".

(** The global replace, left to right: [skip] counts the characters of
    the current match that are still to be passed over. *)
Fixpoint replaceAll (rootRelative : bool) (skip : nat) (s : string) : string :=
  match s with
  | EmptyString => EmptyString
  | String c s' =>
      match skip with
      | S k => replaceAll rootRelative k s'
      | O =>
          match matchAt s with
          | Some m => replacement rootRelative m
                      +:+ replaceAll rootRelative (matched m - 1) s'
          | None => String c (replaceAll rootRelative 0 s')
          end
      end
  end.

End Embed.

Definition preprocessObsidianMarkdown (markdown : string) (rootRelative : bool)
  : string :=
  Embed.replaceAll rootRelative 0 markdown.

(** *** Character predicates used in the statements *)

Fixpoint allChars (p : ascii → bool) (s : string) : bool :=
  match s with
  | EmptyString => true
  | String c s' => p c && allChars p s'
  end.

Definition headFails (p : ascii → bool) (s : string) : Prop :=
  match s with
  | EmptyString => True
  | String c _ => p c = false
  end.

(** The target as the specification words it: trimmed, backslashes turned
    into slashes, then a single leading slash or a leading [./] removed. *)
Definition specEmbedTarget (rawTarget : string) : string :=
  let t := Js.backslashToSlash (Js.trim rawTarget) in
  if Js.startsWith "/" t then Js.sliceFrom 1 t
  else if Js.startsWith "./" t then Js.sliceFrom 2 t
  else t.

(** ** JavaScript values and failures *)

(** A finite number or one of the three non-finite ones. *)
Inductive JsNumber :=
| Fin (q : Qc)
| PosInf
| NegInf
| NaN.

#[global] Instance JsNumber_eq_dec : EqDecision JsNumber.
Proof. solve_decision. Defined.

(** [a === b] on numbers: [NaN] equals nothing. *)
Definition numStrictEq (a b : JsNumber) : bool :=
  match a, b with
  | NaN, _ | _, NaN => false
  | _, _ => bool_decide (a = b)
  end.

Definition numOfZ (z : Z) : JsNumber := Fin (Qc_of_Z z).
Definition numOfNat (n : nat) : JsNumber := numOfZ (Z.of_nat n).

(** The values front matter and [JSON.parse] can produce.  A [Date] carries
    its time value in milliseconds; the front-matter parser builds dates
    from timestamps only, so every date is a valid one. *)
Inductive JsValue :=
| VUndefined
| VNull
| VBool (b : bool)
| VNumber (n : JsNumber)
| VString (s : string)
| VDate (timeValue : Z)
| VArray (items : list JsValue)
| VObject (fields : list (string * JsValue)).

(** A call either returns or throws. *)
Inductive Completion (A : Type) :=
| Return (a : A)
| Throw (error : string).
Arguments Return {A} a.
Arguments Throw {A} error.

(** ** [Date.prototype.toISOString] *)

Module IsoDate.
Local Open Scope Z_scope.

Definition msPerDay : Z := 86400000.

(** Year, month (1-12) and day of the month of a day number counted from
    1970-01-01, in the proleptic Gregorian calendar. *)
Definition civilFromDays (day : Z) : Z * Z * Z :=
  let z := day + 719468 in
  let era := z / 146097 in
  let doe := z - era * 146097 in
  let yoe := (doe - doe / 1460 + doe / 36524 - doe / 146096) / 365 in
  let doy := doe - (365 * yoe + yoe / 4 - yoe / 100) in
  let mp := (5 * doy + 2) / 153 in
  let d := doy - (153 * mp + 2) / 5 + 1 in
  let m := if mp <? 10 then mp + 3 else mp - 9 in
  let y := yoe + era * 400 + (if m <=? 2 then 1 else 0) in
  (y, m, d).

Definition digitChar (n : Z) : ascii := ascii_of_nat (48 + Z.to_nat (n mod 10)).

(** The [width] low decimal digits of [n ≥ 0], zero padded. *)
Fixpoint fixedDigits (width : nat) (n : Z) : string :=
  match width with
  | O => EmptyString
  | S w => fixedDigits w (n / 10) +:+ String (digitChar n) EmptyString
  end.

Definition yearString (y : Z) : string :=
  if (0 <=? y) && (y <=? 9999) then fixedDigits 4 y
  else if 0 <=? y then "+" +:+ fixedDigits 6 y
  else "-" +:+ fixedDigits 6 (- y).

Definition dateString (t : Z) : string :=
  let '(y, m, d) := civilFromDays (t / msPerDay) in
  yearString y +:+ "-" +:+ fixedDigits 2 m +:+ "-" +:+ fixedDigits 2 d.

Definition timeString (t : Z) : string :=
  let ms := t mod msPerDay in
  fixedDigits 2 (ms / 3600000) +:+ ":" +:+ fixedDigits 2 (ms / 60000 mod 60)
  +:+ ":" +:+ fixedDigits 2 (ms / 1000 mod 60) +:+ "." +:+ fixedDigits 3 (ms mod 1000).

(** [d.toISOString()] for a valid date *)
Definition toISOString (t : Z) : string :=
  dateString t +:+ "T" +:+ timeString t +:+ "Z".

Definition isDigit (c : ascii) : bool :=
  ((48 <=? nat_of_ascii c) && (nat_of_ascii c <=? 57))%nat.

(** The shape [YYYY-MM-DD]. *)
Definition isIsoDate (s : string) : bool :=
  match s with
  | String y1 (String y2 (String y3 (String y4 (String "-"
      (String m1 (String m2 (String "-" (String d1 (String d2 EmptyString))))))))) =>
      forallb isDigit [y1; y2; y3; y4; m1; m2; d1; d2]
  | _ => false
  end.

End IsoDate.

(** ** [normalizeDate] *)

Definition normalizeDate (rawDate : JsValue) : string :=
  match rawDate with
  | VDate t => Js.sliceTo 10 (IsoDate.toISOString t)
  | VString s => s
  | _ => ""
  end.

(** ** [getDescriptionFromContent] and the description of a document *)

Definition newline : ascii := "010"%char.

(** [content.split("\n").map((line) => line.trim()).filter(Boolean)] *)
Definition contentLines (content : string) : list string :=
  List.filter (λ line, negb (Js.isEmpty line)) (Js.trim <$> Js.split newline content).

(** The characters of [/[*_`>#-]/g]. *)
Definition emphasisMarkers : string := "*_`>#-".

Definition stripMarkers (line : string) : string :=
  Js.trim (Js.removeChars (λ c, Js.memChar c emphasisMarkers) line).

(** The [for (const line of lines)] loop. *)
Fixpoint firstDescription (lines : list string) : string :=
  match lines with
  | [] => ""
  | line :: rest =>
      if Js.startsWith "#" line then firstDescription rest
      else if Js.startsWith "![" line then firstDescription rest
      else if Js.startsWith "---" line then firstDescription rest
      else if Js.startsWith "```" line then firstDescription rest
      else stripMarkers line
  end.

Definition getDescriptionFromContent (content : string) : string :=
  firstDescription (contentLines content).

(** [data.key] on the front-matter object *)
Fixpoint getField (key : string) (fields : list (string * JsValue)) : JsValue :=
  match fields with
  | [] => VUndefined
  | (k, v) :: rest => if String.eqb k key then v else getField key rest
  end.

(** The description computed in [readDocsRecursively]:
    [descriptionFromMeta || getDescriptionFromContent(content)]. *)
Definition docDescription (metaDescription : JsValue) (content : string) : string :=
  let descriptionFromMeta :=
    match metaDescription with
    | VString s => Js.trim s
    | _ => ""
    end in
  if Js.isEmpty descriptionFromMeta then getDescriptionFromContent content
  else descriptionFromMeta.

(** A line the loop passes over. *)
Definition skippedLine (line : string) : bool :=
  Js.startsWith "#" line || Js.startsWith "![" line
  || Js.startsWith "---" line || Js.startsWith "```" line.

(** ** Documents and [findDocBySlug] *)

(** [docHeadings] is the field [headings] of the source. *)
Record DocRecord := {
  relPath : string;
  slug : list string;
  title : string;
  description : string;
  date : string;
  contentHtml : string;
  docHeadings : list DocHeading;
}.

Definition isWelcome (doc : DocRecord) : bool :=
  String.eqb (relPath doc) "getting-started/welcome.md".

Definition isReadme (doc : DocRecord) : bool :=
  Js.endsWith "/README.md" (relPath doc).

Definition hasSlugKey (key : string) (doc : DocRecord) : bool :=
  String.eqb (Js.join "/" (slug doc)) key.

(** [slug] is [None] when the optional argument is left out. *)
Definition findDocBySlug (docs : list DocRecord) (slug : option (list string))
  : option DocRecord :=
  match docs with
  | [] => None
  | _ =>
      match slug with
      | Some ((_ :: _) as s) => List.find (hasSlugKey (Js.join "/" s)) docs
      | _ =>
          match List.find isWelcome docs with
          | Some doc => Some doc
          | None =>
              match List.find isReadme docs with
              | Some doc => Some doc
              | None => head docs
              end
          end
      end
  end.

(** [d] is the first element of [l] that satisfies [f]. *)
Definition firstWith {A} (f : A → bool) (l : list A) (d : A) : Prop :=
  ∃ pre post, l = pre ++ d :: post ∧ f d = true ∧ forallb (λ x, negb (f x)) pre = true.

Definition sampleDoc (relPath : string) (slug : list string) : DocRecord :=
  {| relPath := relPath; slug := slug; title := "t"; description := "";
     date := ""; contentHtml := ""; docHeadings := [] |}.

(** ** The document tree: [sortTree] and [buildDocsTree] *)

Inductive DocTreeNode :=
| Folder (name key : string) (children : list DocTreeNode)
| File (name key relPath : string) (slug : list string) (title : string).

Definition nodeName (n : DocTreeNode) : string :=
  match n with
  | Folder name _ _ => name
  | File name _ _ _ _ => name
  end.

Definition isFolder (n : DocTreeNode) : bool :=
  match n with
  | Folder _ _ _ => true
  | File _ _ _ _ _ => false
  end.

(** [node.type === "folder" && node.name === segment] *)
Definition isFolderNamed (segment : string) (n : DocTreeNode) : bool :=
  isFolder n && String.eqb (nodeName n) segment.

(** [Array.prototype.sort] with a comparator.  The sort is stable, and for a
    consistent comparator its result is the one stable sorted arrangement of
    the array, which insertion from the right computes. *)
Section ArraySort.
  Context {A : Type} (compareFn : A → A → Z).

Definition notAfter (a b : A) : bool := (compareFn a b <=? 0)%Z.

Fixpoint insertSorted (x : A) (l : list A) : list A :=
  match l with
  | [] => [x]
  | y :: l' => if notAfter x y then x :: y :: l' else y :: insertSorted x l'
  end.

Definition arraySort (l : list A) : list A := foldr insertSorted [] l.

End ArraySort.

Section DocsTree.
  (** [a.localeCompare(b, "zh-CN")]: only its sign is used. *)
  Variable localeCompare : string → string → Z.

(** The comparator of [sortTree]. *)
Definition compareNodes (a b : DocTreeNode) : Z :=
  if negb (Bool.eqb (isFolder a) (isFolder b))
  then (if isFolder a then -1 else 1)%Z
  else localeCompare (nodeName a) (nodeName b).

(** [sortTree] on one node and on a sibling list.  The source sorts a list
    and then descends into the folders of the sorted list; as sorting the
    children of a node changes neither its type nor its name, descending
    first and sorting afterwards gives the same list (see
    [sortTree_sort_first]). *)
Fixpoint sortNode (n : DocTreeNode) : DocTreeNode :=
  match n with
  | Folder name key children =>
      Folder name key (arraySort compareNodes (sortNode <$> children))
  | File _ _ _ _ _ => n
  end.

Definition sortTree (nodes : list DocTreeNode) : list DocTreeNode :=
  arraySort compareNodes (sortNode <$> nodes).

(** Applies [f] to the children of the first folder named [segment]:
    [folder = currentLevel.find(...)] followed by the work done on
    [folder.children], which the sibling list shares. *)
Fixpoint inFirstFolder (segment : string)
    (f : list DocTreeNode → list DocTreeNode) (level : list DocTreeNode)
  : list DocTreeNode :=
  match level with
  | [] => []
  | n :: rest =>
      match n with
      | Folder name key children =>
          if String.eqb name segment then Folder name key (f children) :: rest
          else n :: inFirstFolder segment f rest
      | File _ _ _ _ _ => n :: inFirstFolder segment f rest
      end
  end.

(** The body of the outer loop of [buildDocsTree] for one document: the walk
    along [folderSegments] from [currentLevel], then the push of the file. *)
Fixpoint insertDoc (folderSegments : list string) (accumulatedPath : string)
    (file : DocTreeNode) (currentLevel : list DocTreeNode) : list DocTreeNode :=
  match folderSegments with
  | [] => currentLevel ++ [file]
  | segment :: rest =>
      let accumulatedPath' :=
        if Js.isEmpty accumulatedPath then segment
        else accumulatedPath +:+ "/" +:+ segment in
      if existsb (isFolderNamed segment) currentLevel
      then inFirstFolder segment (insertDoc rest accumulatedPath' file) currentLevel
      else currentLevel
           ++ [Folder segment accumulatedPath' (insertDoc rest accumulatedPath' file [])]
  end.

Definition fileNode (doc : DocRecord) : DocTreeNode :=
  let segments := Js.split "/" (relPath doc) in
  File (List.last segments (title doc)) (relPath doc) (relPath doc) (slug doc) (title doc).

Definition addDoc (root : list DocTreeNode) (doc : DocRecord) : list DocTreeNode :=
  insertDoc (stripLast (Js.split "/" (relPath doc))) "" (fileNode doc) root.

Definition buildDocsTree (docs : list DocRecord) : list DocTreeNode :=
  sortTree (foldl addDoc [] docs).

End DocsTree.

(** A stand-in comparison for examples: code-unit order. *)
Definition codeUnitCompare (a b : string) : Z :=
  match String.compare a b with
  | Lt => (-1)%Z
  | Eq => 0%Z
  | Gt => 1%Z
  end.

(** *** Shape predicates on trees *)

(** [P] holds of the children of every folder of [n], at any depth. *)
Fixpoint nodeLevels (P : list DocTreeNode → Prop) (n : DocTreeNode) : Prop :=
  match n with
  | Folder _ _ children =>
      P children ∧ foldr (λ c acc, nodeLevels P c ∧ acc) True children
  | File _ _ _ _ _ => True
  end.

(** [P] holds of every sibling list of the forest. *)
Definition everyLevel (P : list DocTreeNode → Prop) (forest : list DocTreeNode) : Prop :=
  P forest ∧ foldr (λ c acc, nodeLevels P c ∧ acc) True forest.

(** Folders come before files, and two nodes of one kind are in the order of
    the locale comparison of their names. *)
Definition siblingsOrdered (localeCompare : string → string → Z)
    (l : list DocTreeNode) : Prop :=
  ∀ i j a b, i < j → l !! i = Some a → l !! j = Some b →
    (isFolder b = true → isFolder a = true) ∧
    (isFolder a = isFolder b → (localeCompare (nodeName a) (nodeName b) ≤ 0)%Z).

(** Two nodes the comparator cannot tell apart. *)
Definition sameSortKey (a b : DocTreeNode) : Prop :=
  isFolder a = isFolder b ∧ nodeName a = nodeName b.

(** Documents of one [relPath] agree on what the tree shows of them. *)
Definition relPathIsKey (docs : list DocRecord) : Prop :=
  ∀ d1 d2, d1 ∈ docs → d2 ∈ docs → relPath d1 = relPath d2 →
           slug d1 = slug d2 ∧ title d1 = title d2.

(** The names of the folders of a sibling list, in order. *)
Definition folderNames (l : list DocTreeNode) : list string :=
  omap (λ n, if isFolder n then Some (nodeName n) else None) l.

(** No sibling list holds two folders of one name. *)
Definition uniqueFolders (forest : list DocTreeNode) : Prop :=
  everyLevel (λ l, NoDup (folderNames l)) forest.

(** What [inFirstFolder] does to a single node. *)
Definition onFolder (segment : string) (f : list DocTreeNode → list DocTreeNode)
    (n : DocTreeNode) : DocTreeNode :=
  match n with
  | Folder name key children =>
      if String.eqb name segment then Folder name key (f children) else n
  | File _ _ _ _ _ => n
  end.

(** ** [getTitleFromContent], [stripDocExtension], [path.extname] *)

(** The rest of [/^#\s+(.+)$/m] once [#] has matched at a line start:
    [\s+] takes the run of white space (line breaks included) and [(.+)]
    the rest of the line found there; when the white space runs to the end
    of the text, [\s+] gives back characters down to the last one that is
    not a line terminator, which then is all of the group.  The result is
    the group trimmed. *)
Definition matchTitle (afterHash : string) : option string :=
  match Js.spaceAt afterHash with
  | None => None
  | Some _ =>
      let rest := Js.trimStart afterHash in
      if negb (Js.isEmpty rest) then Some (Js.trim (Js.lineHead rest))
      else
        match List.find (λ w, negb (bool_decide (w ∈ Js.lineTerminators)))
                (rev (tail (Js.spaceRun 0 afterHash))) with
        | Some w => Some (Js.trim w)
        | None => None
        end
  end.

(** The byte [c], read after [p2] and [p1], ends a line terminator. *)
Definition endsLineTerminator (p2 p1 c : ascii) : bool :=
  Ascii.eqb c "010" || Ascii.eqb c "013"
  || (Ascii.eqb p2 "226" && Ascii.eqb p1 "128"
      && (Ascii.eqb c "168" || Ascii.eqb c "169")).

(** The leftmost match of [/^#\s+(.+)$/m]; [p2] and [p1] are the two bytes
    read last. *)
Fixpoint findTitle (atLineStart : bool) (p2 p1 : ascii) (s : string)
  : option string :=
  match s with
  | EmptyString => None
  | String c s' =>
      match (if atLineStart && Ascii.eqb c "#" then matchTitle s' else None) with
      | Some heading => Some heading
      | None => findTitle (endsLineTerminator p2 p1 c) p1 c s'
      end
  end.

Definition getTitleFromContent (content : string) : string :=
  default "" (findTitle true "000" "000" content).

(** [filePath.replace(/\.(md|mdx)$/i, "")] *)
Definition stripDocExtension (filePath : string) : string :=
  let lower := Js.toLowerCase filePath in
  if Js.endsWith ".md" lower then Js.dropEnd 3 filePath
  else if Js.endsWith ".mdx" lower then Js.dropEnd 4 filePath
  else filePath.

Fixpoint lastIndexOf (c : ascii) (s : string) : option nat :=
  match s with
  | EmptyString => None
  | String a s' =>
      match lastIndexOf c s' with
      | Some i => Some (S i)
      | None => if Ascii.eqb a c then Some 0 else None
      end
  end.

(** [path.extname(name)] for a name without separators. *)
Definition extname (name : string) : string :=
  match lastIndexOf "." name with
  | None => ""
  | Some 0 => ""
  | Some i => if String.eqb name ".." then "" else Js.sliceFrom i name
  end.

(** ** The content directory and its version *)

(** A file with its modification time and text, or a directory with its
    entries in the order [readdirSync] lists them.  Entry names hold neither
    [/] nor a backslash. *)
Inductive FsNode :=
| FsFile (mtimeMs : Qc) (content : string)
| FsDir (entries : list (string * FsNode)).

Record DocsVersion := { fileCount : JsNumber; maxMtimeMs : JsNumber }.

(** [Math.max] on finite numbers *)
Definition qcMax (a b : Qc) : Qc := if decide (a ≤ b)%Qc then b else a.

(** The loop of [computeDocsVersion] over the entries of one directory,
    with [fileCount] and [maxMtimeMs] as a pair. *)
Fixpoint nodeVersion (n : FsNode) : nat * Qc :=
  match n with
  | FsFile mtimeMs _ => (1, mtimeMs)
  | FsDir entries =>
      foldl (λ acc entry,
               match entry.2 with
               | FsDir _ =>
                   let child := nodeVersion entry.2 in
                   (acc.1 + child.1, qcMax acc.2 child.2)
               | FsFile mtimeMs _ => (acc.1 + 1, qcMax acc.2 mtimeMs)
               end)
            (0, 0%Qc) entries
  end.

Definition computeDocsVersion (root : list (string * FsNode)) : DocsVersion :=
  let v := nodeVersion (FsDir root) in
  {| fileCount := numOfNat v.1; maxMtimeMs := Fin v.2 |}.

Definition isSameDocsVersion (left right : DocsVersion) : bool :=
  numStrictEq (fileCount left) (fileCount right)
  && numStrictEq (maxMtimeMs left) (maxMtimeMs right).

(** ** Property access and truthiness on parsed values *)

(** [v.key] for the keys of a persisted snapshot: a [TypeError] on [null]
    and [undefined], the own property of an object, [undefined] on anything
    else.  The fields of a [VObject] have pairwise distinct keys. *)
Definition getProp (v : JsValue) (key : string) : Completion JsValue :=
  match v with
  | VUndefined | VNull => Throw "TypeError"
  | VObject fields => Return (getField key fields)
  | _ => Return VUndefined
  end.

Definition truthy (v : JsValue) : bool :=
  match v with
  | VUndefined | VNull => false
  | VBool b => b
  | VNumber (Fin q) => negb (bool_decide (q = 0%Qc))
  | VNumber NaN => false
  | VNumber _ => true
  | VString s => negb (Js.isEmpty s)
  | VDate _ | VArray _ | VObject _ => true
  end.

(** [Number.isFinite(v)]: the finite number [v] is, if it is one. *)
Definition finiteNumber (v : JsValue) : option Qc :=
  match v with
  | VNumber (Fin q) => Some q
  | _ => None
  end.

(** [v === n] for a number [n] *)
Definition strictEqNumber (v : JsValue) (n : JsNumber) : bool :=
  match v with
  | VNumber m => numStrictEq m n
  | _ => false
  end.

(** [Array.isArray(v)]: the items of [v], if it is an array. *)
Definition arrayItems (v : JsValue) : option (list JsValue) :=
  match v with
  | VArray items => Some items
  | _ => None
  end.

(** Sequencing of calls that may throw. *)
#[global] Instance Completion_bind : MBind Completion := λ A B k c,
  match c with
  | Return a => k a
  | Throw e => Throw e
  end.

(** ** Snapshots *)

Record RawDocRecord := {
  rawRelPath : string;
  rawSlug : list string;
  rawTitle : string;
  rawDescription : string;
  rawDate : string;
  rawContent : string;
}.

Record DocSearchEntry := {
  entryRelPath : string;
  entrySlug : list string;
  entryTitle : string;
  entryDescription : string;
}.

Record DocsSnapshot := {
  docs : list DocRecord;
  slugs : list (list string);
  tree : list DocTreeNode;
  searchEntries : list DocSearchEntry;
}.

Definition emptySnapshot : DocsSnapshot :=
  {| docs := []; slugs := []; tree := []; searchEntries := [] |}.

(** What the cache holds: a snapshot built by [createSnapshot], or the four
    arrays adopted unchecked from the persisted file. *)
Inductive Snapshot :=
| Built (snapshot : DocsSnapshot)
| Adopted (docs slugs tree searchEntries : list JsValue).

Definition SNAPSHOT_SCHEMA_VERSION : JsNumber := numOfZ 2.

Record DocsSnapshotMeta := {
  createdAt : string;
  schemaVersion : JsNumber;
  version : DocsVersion;
}.

(** What [getPersistedSnapshotMeta] returns when it does not return null. *)
Record PersistedMeta := {
  persistedSchemaVersion : JsNumber;
  persistedVersion : DocsVersion;
}.

(** The payload [writeSnapshotToDisk] serialises. *)
Record PersistedDocsSnapshot := {
  payload : DocsSnapshot;
  __meta : DocsSnapshotMeta;
}.

(** The snapshot file as [existsSync] and [readFileSync] find it. *)
Inductive SnapshotFile :=
| NoFile
| Unreadable
| FileText (raw : string).

(** The surroundings of the process: the content root ([None] when it does
    not exist), [NODE_ENV === "production"], the snapshot file, whether
    writing it succeeds, and the clock. *)
Record Env := {
  foundationRoot : option (list (string * FsNode));
  production : bool;
  snapshotFile : SnapshotFile;
  snapshotWritable : bool;
  now : Z;
}.

(** The two module-level variables. *)
Record Cache := {
  cachedSnapshot : option Snapshot;
  cachedVersion : option DocsVersion;
}.

(** What an access does to the file system, in order. *)
Inductive Event :=
| ComputeVersion
| CreateSnapshot
| ReadDoc (relPath : string)
| ReadSnapshotFile
| WriteSnapshotFile (succeeded : bool).

#[global] Instance Event_eq_dec : EqDecision Event.
Proof. solve_decision. Defined.

(** *** A small instance of the surroundings *)

Definition plainMatter (source : string) : list (string * JsValue) * string :=
  ([], source).

Definition plainRender (root : list (string * FsNode)) (markdown currentDocPath : string)
    (docPathSet : gset string) : string * list DocHeading :=
  (markdown, []).

(** A parser that knows two texts: [{}], and [snapshot] for a persisted
    snapshot without documents whose fingerprint is 3 files, time 9. *)
Definition tinyParse (raw : string) : option JsValue :=
  if String.eqb raw "{}" then Some (VObject [])
  else if String.eqb raw "snapshot" then
    Some (VObject
            [("docs", VArray []); ("slugs", VNull); ("tree", VArray []);
             ("__meta",
              VObject [("createdAt", VString "2024-01-05T00:00:00.000Z");
                       ("schemaVersion", VNumber (numOfZ 2));
                       ("version", VObject [("fileCount", VNumber (numOfZ 3));
                                            ("maxMtimeMs", VNumber (numOfZ 9))])])])
  else None.

Definition tinyStringify (p : PersistedDocsSnapshot) : string := "{}".

Definition sampleRoot : list (string * FsNode) :=
  [("b.md", FsFile (Qc_of_Z 7) "# B");
   ("sub", FsDir [("a.md", FsFile (Qc_of_Z 9) "text"); ("pic.png", FsFile (Qc_of_Z 3) "")])].

Definition sampleEnv (production : bool) (file : SnapshotFile) : Env :=
  {| foundationRoot := Some sampleRoot; production := production;
     snapshotFile := file; snapshotWritable := false; now := 0 |}.

Definition warmCache (recorded : DocsVersion) : Cache :=
  {| cachedSnapshot := Some (Built emptySnapshot); cachedVersion := Some recorded |}.

(** * More of the site *)

(** ** Images and links of [renderMarkdownToHtml] *)

(** [/^(https?:|data:|\/\/)/i.test(src)] *)
Definition isRemoteSrc (src : string) : bool :=
  Js.startsWithNoCase "http:" src || Js.startsWithNoCase "https:" src
  || Js.startsWithNoCase "data:" src || Js.startsWith "//" src.

Definition resolveImageSrc (src currentDocPath : string) : string :=
  if Js.isEmpty src then src
  else if isRemoteSrc src then src
  else
    let ps := splitPathAndSuffix src in
    match resolveDocsRelativePath currentDocPath (pathname ps) with
    | None => src
    | Some resolvedPath =>
        if Js.isEmpty resolvedPath then src
        else "/api/docs-asset/" +:+ encodePath resolvedPath +:+ suffix ps
    end.

(** [normalizeString(path, false, "/", isPosixPathSeparator)] of Node's
    [path] on the segments of [path]: [.] and empty segments are dropped and
    [..] removes the segment before it, if there is one. *)
Fixpoint normalizeParts (parts res : list string) : list string :=
  match parts with
  | [] => res
  | segment :: rest =>
      if Js.isEmpty segment || String.eqb segment "." then normalizeParts rest res
      else if String.eqb segment ".." then normalizeParts rest (stripLast res)
      else normalizeParts rest (res ++ [segment])
  end.

(** [path.resolve(root, p)] on POSIX for an absolute [root]: the arguments
    are taken from the right until an absolute one is met, and the text
    collected is normalised. *)
Definition pathResolve (root p : string) : string :=
  let resolvedPath :=
    if Js.isEmpty p then root +:+ "/"
    else if Js.startsWith "/" p then p +:+ "/"
    else root +:+ "/" +:+ p +:+ "/" in
  "/" +:+ Js.join "/" (normalizeParts (Js.split "/" resolvedPath) []).

Definition resolveImageAbsolutePath (FOUNDATION_ROOT src currentDocPath : string)
  : option string :=
  if Js.isEmpty src || isRemoteSrc src then None
  else
    let ps := splitPathAndSuffix src in
    match resolveDocsRelativePath currentDocPath (pathname ps) with
    | None => None
    | Some resolvedPath =>
        if Js.isEmpty resolvedPath then None
        else Some (pathResolve FOUNDATION_ROOT resolvedPath)
    end.

(** [/^(https?:|mailto:|tel:|\/\/)/i.test(resolvedHref)] *)
Definition isExternalHref (resolvedHref : string) : bool :=
  Js.startsWithNoCase "http:" resolvedHref || Js.startsWithNoCase "https:" resolvedHref
  || Js.startsWithNoCase "mailto:" resolvedHref || Js.startsWithNoCase "tel:" resolvedHref
  || Js.startsWith "//" resolvedHref.

(** [name="value"] *)
Definition htmlAttribute (name value : string) : string :=
  name +:+ "=" +:+ String Js.dq "" +:+ value +:+ String Js.dq "".

(** [renderer.link]; [title] is [None] for [null], and [text] is what
    [marked.Parser.parseInline] made of the tokens. *)
Definition link (href : string) (title : option string) (text : string)
    (currentDocPath : string) (docPathSet : gset string) : string :=
  let resolvedHref := resolveMarkdownHref href currentDocPath docPathSet in
  let isExternal := isExternalHref resolvedHref in
  let attrs :=
    List.filter (λ a, negb (Js.isEmpty a))
      [htmlAttribute "href" (escapeHtmlAttribute resolvedHref);
       if isExternal then htmlAttribute "target" "_blank" else "";
       if isExternal then htmlAttribute "rel" "noreferrer noopener" else "";
       match title with
       | Some t => if Js.isEmpty t then ""
                   else htmlAttribute "title" (escapeHtmlAttribute t)
       | None => ""
       end] in
  "<a " +:+ Js.join " " attrs +:+ ">" +:+ text +:+ "</a>".

(** ** [lib/base-path.ts] and the base path of [next.config] *)

Definition normalizeBasePath (rawValue : option string) : string :=
  match rawValue with
  | None => ""
  | Some rawValue =>
      if Js.isEmpty rawValue then ""
      else
        let trimmed := Js.trim rawValue in
        if Js.isEmpty trimmed || String.eqb trimmed "/" then ""
        else
          let withLeadingSlash :=
            if Js.startsWith "/" trimmed then trimmed else "/" +:+ trimmed in
          if Js.endsWith "/" withLeadingSlash
          then Js.dropEnd 1 withLeadingSlash
          else withLeadingSlash
  end.

(** [/^(https?:|mailto:|tel:|data:|\/\/)/i.test(pathname)] *)
Definition isAbsoluteUrl (pathname : string) : bool :=
  Js.startsWithNoCase "http:" pathname || Js.startsWithNoCase "https:" pathname
  || Js.startsWithNoCase "mailto:" pathname || Js.startsWithNoCase "tel:" pathname
  || Js.startsWithNoCase "data:" pathname || Js.startsWith "//" pathname.

(** [withBasePath]; [BASE_PATH] is the module constant. *)
Definition withBasePath (BASE_PATH pathname : string) : string :=
  if Js.isEmpty pathname then (if Js.isEmpty BASE_PATH then "/" else BASE_PATH)
  else if isAbsoluteUrl pathname then pathname
  else
    let normalizedPath :=
      if Js.startsWith "/" pathname then pathname else "/" +:+ pathname in
    BASE_PATH +:+ normalizedPath.

(** [s.replace(/\/$/, "")] *)
Definition stripTrailingSlash (s : string) : string :=
  if Js.endsWith "/" s then Js.dropEnd 1 s else s.

(** [normalizedBasePath] of the export configuration; [rawBasePath] is
    [None] when the variable is not set. *)
Definition normalizedBasePath (rawBasePath : option string) : string :=
  let trimmedBasePath :=
    match rawBasePath with
    | Some s => Js.trim s
    | None => ""
    end in
  if Js.isEmpty trimmedBasePath || String.eqb trimmedBasePath "/" then ""
  else if Js.startsWith "/" trimmedBasePath then stripTrailingSlash trimmedBasePath
  else "/" +:+ stripTrailingSlash trimmedBasePath.

(** [/\.(md|mdx)$/i.test(p)]: the path names a Markdown file. *)
Definition isMarkdownPath (p : string) : bool :=
  let lower := Js.toLowerCase p in
  Js.endsWith ".md" lower || Js.endsWith ".mdx" lower.

(** ** [lib/about.ts] *)

Module About.

Definition resolveAboutRelativePath (currentDocPath rawPath : string)
  : option string :=
  match walkParts (resolveParts currentDocPath rawPath) [] with
  | None => None
  | Some [] => None
  | Some safeParts => Some (Js.join "/" safeParts)
  end.

Definition resolveAboutHref (BASE_PATH href currentDocPath : string) : string :=
  if Js.isEmpty href then href
  else if isPassThroughHref href then href
  else
    let ps := splitPathAndSuffix href in
    match resolveAboutRelativePath currentDocPath (pathname ps) with
    | None => href
    | Some resolvedPath =>
        if Js.isEmpty resolvedPath then href
        else if isMarkdownPath resolvedPath
        then withBasePath BASE_PATH ("/about" +:+ suffix ps)
        else withBasePath BASE_PATH
               ("/about-asset/" +:+ encodePath resolvedPath +:+ suffix ps)
    end.

Definition resolveImageSrc (BASE_PATH src currentDocPath : string) : string :=
  if Js.isEmpty src then src
  else if isRemoteSrc src then src
  else
    let ps := splitPathAndSuffix src in
    match resolveAboutRelativePath currentDocPath (pathname ps) with
    | None => src
    | Some resolvedPath =>
        if Js.isEmpty resolvedPath then src
        else withBasePath BASE_PATH
               ("/about-asset/" +:+ encodePath resolvedPath +:+ suffix ps)
    end.

Definition resolveImageAbsolutePath (ABOUT_ROOT src currentDocPath : string)
  : option string :=
  if Js.isEmpty src || isRemoteSrc src then None
  else
    let ps := splitPathAndSuffix src in
    match resolveAboutRelativePath currentDocPath (pathname ps) with
    | None => None
    | Some resolvedPath =>
        if Js.isEmpty resolvedPath then None
        else Some (pathResolve ABOUT_ROOT resolvedPath)
    end.

End About.

(** ** The development launcher: options and the warm-up address *)

(** [args[idx + 1]] after the first argument equal to [name], if it is
    there and not empty. *)
Fixpoint optionAfter (args : list string) (name : string) : option string :=
  match args with
  | [] => None
  | item :: rest =>
      if String.eqb item name then
        match rest with
        | next :: _ => if Js.isEmpty next then None else Some next
        | [] => None
        end
      else optionAfter rest name
  end.

Definition readOption (args : list string) (name fallback : string) : string :=
  let byIndex := default fallback (optionAfter args name) in
  match List.find (Js.startsWith (name +:+ "=")) args with
  | Some direct =>
      if Js.isEmpty direct then byIndex
      else
        let value := default "" (Js.split "=" direct !! 1) in
        if Js.isEmpty value then fallback else value
  | None => byIndex
  end.

Definition normalizeWarmHost (hostname : string) : string :=
  if Js.isEmpty hostname || String.eqb hostname "0.0.0.0" || String.eqb hostname "::"
  then "127.0.0.1"
  else hostname.

(** [baseUrl] as the launcher computes it from its arguments. *)
Definition warmBaseUrl (passThroughArgs : list string) : string :=
  let hostname := readOption passThroughArgs "--hostname" "127.0.0.1" in
  let port := readOption passThroughArgs "--port" "3000" in
  let warmHost := normalizeWarmHost hostname in
  "http://" +:+ warmHost +:+ ":" +:+ port.

(** [toDocPath]; [slug] is [None] for a value that is not an array. *)
Definition toDocPath (slug : option (list string)) : string :=
  match slug with
  | Some ((_ :: _) as s) => "/docs/" +:+ Js.join "/" (Js.encodeURIComponent <$> s)
  | _ => "/docs"
  end.

(** ** The docs page: static paths and props *)

(** The [slug] parameters of the paths [getStaticPaths] returns. *)
Definition getStaticPaths (slugs : list (list string)) : list (list string) :=
  [] :: slugs.

(** [getStaticProps] on the documents of the snapshot; [slugParam] is [None]
    when [params.slug] is not an array.  The result is [None] for
    [notFound], else the [currentDoc] of the props. *)
Definition getStaticProps (docs : list DocRecord) (slugParam : option (list string))
  : option (option DocRecord) :=
  let requestedSlug := default [] slugParam in
  let currentDoc := findDocBySlug docs (Some requestedSlug) in
  match currentDoc with
  | None => if 0 <? length requestedSlug then None else Some None
  | Some doc => Some (Some doc)
  end.

(** ** Shape of trees and of the content directory *)

(** The file nodes of a tree, left to right. *)
Fixpoint nodeFiles (n : DocTreeNode) : list DocTreeNode :=
  match n with
  | Folder _ _ children => concat (nodeFiles <$> children)
  | File _ _ _ _ _ => [n]
  end.

Definition treeFiles (forest : list DocTreeNode) : list DocTreeNode :=
  concat (nodeFiles <$> forest).

(** The modification times of the files below a node, in listing order. *)
Fixpoint fileMtimes (n : FsNode) : list Qc :=
  match n with
  | FsFile mtimeMs _ => [mtimeMs]
  | FsDir entries => concat ((λ entry, fileMtimes entry.2) <$> entries)
  end.

(** ** Predicates used in the statements *)

(** Characters of an encoded segment: unreserved ones and [%]. *)
Definition segmentChar (c : ascii) : bool := Js.isUnreserved c || Ascii.eqb c "%".

(** Characters of an encoded path: those of a segment and [/]. *)
Definition pathChar (c : ascii) : bool := segmentChar c || Ascii.eqb c "/".

(** A character other than the punctuation [slugify] deletes. *)
Definition slugChar (c : ascii) : bool := negb (Js.memChar c slugPunctuation).

(** At no place of [s] does a white-space character start. *)
Fixpoint noSpace (s : string) : bool :=
  match s with
  | EmptyString => true
  | String _ s' =>
      match Js.spaceAt s with
      | Some _ => false
      | None => noSpace s'
      end
  end.

(** No member of the class is the beginning of another. *)
Definition prefixFree (class : list string) : Prop :=
  ∀ w w', w ∈ class → w' ∈ class → Js.startsWith w w' = true → w = w'.

(** No two hyphens in a row. *)
Fixpoint noHyphenPair (s : string) : bool :=
  match s with
  | String a ((String b _) as rest) =>
      negb (Ascii.eqb a "-" && Ascii.eqb b "-") && noHyphenPair rest
  | _ => true
  end.

(** A character that cannot end a double-quoted attribute value or open or
    close a tag. *)
Definition attributeSafe (c : ascii) : bool :=
  negb (Ascii.eqb c Js.dq) && negb (Ascii.eqb c "<") && negb (Ascii.eqb c ">").

(** What [escapeHtmlAttribute] makes of one character. *)
Definition escapedChar (c : ascii) : string :=
  if Ascii.eqb c "&" then "&amp;"
  else if Ascii.eqb c Js.dq then "&quot;"
  else if Ascii.eqb c "<" then "&lt;"
  else if Ascii.eqb c ">" then "&gt;"
  else String c "".

Definition noBackslash (s : string) : Prop := Js.indexOf "\" s = None.

(** The greatest of [0] and the given times, as the loop of
    [computeDocsVersion] accumulates it. *)
Definition latestOf (times : list Qc) : Qc := foldl qcMax 0%Qc times.

(** A parsed value that shows the fields of a payload that
    [getValidatedSnapshotFromDisk] looks at: [__meta] with the schema version
    and the two numbers of the version, and arrays for [docs] and [tree]. *)
Definition persistedShape (p : PersistedDocsSnapshot) (parsed : JsValue) : Prop :=
  ∃ fields meta versionFields docItems treeItems,
    parsed = VObject fields ∧
    getField "__meta" fields = VObject meta ∧
    getField "schemaVersion" meta = VNumber (schemaVersion (__meta p)) ∧
    getField "version" meta = VObject versionFields ∧
    getField "fileCount" versionFields = VNumber (fileCount (version (__meta p))) ∧
    getField "maxMtimeMs" versionFields = VNumber (maxMtimeMs (version (__meta p))) ∧
    getField "docs" fields = VArray docItems ∧
    getField "tree" fields = VArray treeItems.

(** The cache of a process that has just started. *)
Definition coldCache : Cache := {| cachedSnapshot := None; cachedVersion := None |}.

(** *** More small surroundings *)

(** [sampleRoot] after [b.md] has been saved again. *)
Definition editedRoot : list (string * FsNode) :=
  [("b.md", FsFile (Qc_of_Z 12) "# B, edited");
   ("sub", FsDir [("a.md", FsFile (Qc_of_Z 9) "text"); ("pic.png", FsFile (Qc_of_Z 3) "")])].

(** [sampleRoot] as another listing gives it. *)
Definition listedRoot : list (string * FsNode) :=
  [("sub", FsDir [("pic.png", FsFile (Qc_of_Z 3) ""); ("a.md", FsFile (Qc_of_Z 9) "text")]);
   ("b.md", FsFile (Qc_of_Z 7) "# B")].

(** Other names and contents under the modification times of [sampleRoot]. *)
Definition renamedRoot : list (string * FsNode) :=
  [("c.md", FsFile (Qc_of_Z 9) "# C");
   ("sub", FsDir [("a.md", FsFile (Qc_of_Z 7) "other"); ("pic.png", FsFile (Qc_of_Z 3) "")])].

Definition envOver (root : list (string * FsNode)) (production writable : bool)
    (file : SnapshotFile) : Env :=
  {| foundationRoot := Some root; production := production;
     snapshotFile := file; snapshotWritable := writable; now := 0 |}.

(** A serialiser whose text is the one [tinyParse] knows. *)
Definition sampleStringify (p : PersistedDocsSnapshot) : string := "snapshot".

(** *** Well-formed content directories *)

(** A name a directory entry can have: a child segment without backslash. *)
Definition entryName (name : string) : Prop := childSegment name ∧ noBackslash name.

(** In every directory the entries have names and no two have one name. *)
Fixpoint wellFormed (n : FsNode) : Prop :=
  match n with
  | FsFile _ _ => True
  | FsDir entries =>
      NoDup (fst <$> entries) ∧ Forall (λ entry, entryName entry.1) entries ∧
      foldr (λ entry acc, wellFormed entry.2 ∧ acc) True entries
  end.

(** The comparison reports no two different names of [names] as equal. *)
Definition untied (localeCompare : string → string → Z) (names : list string) : Prop :=
  ∀ a b, a ∈ names → b ∈ names → localeCompare a b = 0%Z → a = b.

(** In no directory does the comparison report two different names as
    equal. *)
Fixpoint untiedListing (localeCompare : string → string → Z) (n : FsNode) : Prop :=
  match n with
  | FsFile _ _ => True
  | FsDir entries =>
      untied localeCompare (fst <$> entries) ∧
      foldr (λ entry acc, untiedListing localeCompare entry.2 ∧ acc) True entries
  end.

(** The names in the tree of [docs]: the segments of their paths. *)
Definition pathNames (docs : list DocRecord) : list string :=
  concat ((λ doc, Js.split "/" (relPath doc)) <$> docs).

(** Every node of the forest, at any depth, has its name in [names]. *)
Definition namedIn (names : list string) (forest : list DocTreeNode) : Prop :=
  everyLevel (Forall (λ n, nodeName n ∈ names)) forest.

(** The comparison [localeCompare] with its ties broken by code-unit
    order. *)
Definition tieBreak (localeCompare : string → string → Z) (a b : string) : Z :=
  if (localeCompare a b =? 0)%Z then codeUnitCompare a b else localeCompare a b.

(** *** A comparison with a tie *)

(** The two spellings of [é] in UTF-8: the precomposed letter (U+00E9), and
    [e] followed by the combining acute accent (U+0301). *)
Definition eAcute : string := Js.bytes [195; 169].
Definition combiningAcute : string := Js.bytes [204; 129].

(** [s] with every [e] that a combining acute accent follows written as the
    precomposed letter. *)
Fixpoint composeAcute (s : string) : string :=
  match s with
  | EmptyString => EmptyString
  | String c s' =>
      let r := composeAcute s' in
      if Ascii.eqb c "e" && Js.startsWith combiningAcute r
      then eAcute +:+ Js.sliceFrom 2 r
      else String c r
  end.

(** A comparison that, as a collation does, reports canonically equivalent
    spellings as equal: code-unit order on the composed names. *)
Definition collateCompare (a b : string) : Z :=
  codeUnitCompare (composeAcute a) (composeAcute b).

(** ** The docs page: search *)

(** [hay.includes(needle)] *)
Fixpoint includes (needle hay : string) : bool :=
  Js.startsWith needle hay ||
  match hay with
  | EmptyString => false
  | String _ hay' => includes needle hay'
  end.

Section Search.
  (** [String.prototype.toLowerCase], the lower-casing of the runtime. *)
  Variable toLowerCase : string → string.

(** The text of an entry that a query is looked for in. *)
Definition haystack (entry : DocSearchEntry) : string :=
  toLowerCase (entryTitle entry +:+ " " +:+ entryDescription entry
               +:+ " " +:+ entryRelPath entry).

(** A hit of the query in the title, in the path or in the text of an
    entry. *)
Definition searchHit (query : string) (entry : DocSearchEntry) : bool :=
  includes query (toLowerCase (entryTitle entry))
  || includes query (toLowerCase (entryRelPath entry))
  || includes query (haystack entry).

Definition searchScore (query : string) (entry : DocSearchEntry) : nat :=
  let exactTitle :=
    if includes query (toLowerCase (entryTitle entry)) then 3 else 0 in
  let exactPath :=
    if includes query (toLowerCase (entryRelPath entry)) then 2 else 0 in
  let weak := if includes query (haystack entry) then 1 else 0 in
  exactTitle + exactPath + weak.

(** The [searchResults] of the docs page. *)
Definition searchResults (searchEntries : list DocSearchEntry) (searchQuery : string)
  : list DocSearchEntry :=
  let query := toLowerCase (Js.trim searchQuery) in
  if Js.isEmpty query then []
  else
    fst <$> arraySort (λ a b : DocSearchEntry * nat, (Z.of_nat b.2 - Z.of_nat a.2)%Z)
              (List.filter (λ item, 0 <? item.2)
                 ((λ entry, (entry, searchScore query entry)) <$> searchEntries)).

End Search.

(** *** One directory tree under two listings *)

(** The same files and directories, the entries of each directory listed
    in some other order. *)
Inductive sameFiles : FsNode → FsNode → Prop :=
| sameFiles_file mtimeMs content :
    sameFiles (FsFile mtimeMs content) (FsFile mtimeMs content)
| sameFiles_dir entries listed entries' :
    Permutation entries listed →
    Forall2 (λ entry entry' : string * FsNode,
               entry.1 = entry'.1 ∧ sameFiles entry.2 entry'.2) listed entries' →
    sameFiles (FsDir entries) (FsDir entries').

Section SnapshotCache.
  (** The platform and library functions the cache is built on. *)
  Variable localeCompare : string → string → Z.
  (** [matter(source)]: the front-matter fields and the body. *)
  Variable matter : string → list (string * JsValue) * string.
  (** [renderMarkdownToHtml(markdown, currentDocPath, docPathSet)]; the
      image hook looks into the content root. *)
  Variable renderMarkdownToHtml :
    list (string * FsNode) → string → string → gset string → string * list DocHeading.
  (** [JSON.parse], [None] for a [SyntaxError], and [JSON.stringify]. *)
  Variable jsonParse : string → option JsValue.
  Variable jsonStringify : PersistedDocsSnapshot → string.

(** [toPosixPath(path.join(currentDir, name))] *)
Definition nextRelativePath (currentDir name : string) : string :=
  toPosixPath (if Js.isEmpty currentDir then name else currentDir +:+ "/" +:+ name).

(** The record [readDocsRecursively] makes of one document file. *)
Definition rawDocOf (relPath name source : string) : RawDocRecord :=
  let '(data, content) := matter source in
  let fallbackTitle := stripDocExtension name in
  let titleFromMeta :=
    match getField "title" data with
    | VString s => Js.trim s
    | _ => ""
    end in
  let contentTitle := getTitleFromContent content in
  let title :=
    if negb (Js.isEmpty titleFromMeta) then titleFromMeta
    else if negb (Js.isEmpty contentTitle) then contentTitle
    else fallbackTitle in
  {| rawRelPath := relPath;
     rawSlug := Js.split "/" (stripDocExtension relPath);
     rawTitle := title;
     rawDescription := docDescription (getField "description" data) content;
     rawDate := normalizeDate (getField "date" data);
     rawContent := content |}.

Definition isDocName (name : string) : bool :=
  let extension := Js.toLowerCase (extname name) in
  String.eqb extension ".md" || String.eqb extension ".mdx".

(** [readDocsRecursively] on the directory [n] found at [currentDir].  The
    source sorts the entries by name and then visits them; here each entry
    is visited where it stands and the results are put in the order of the
    names, which gives the same list as the sort looks at names only. *)
Fixpoint readDocsIn (currentDir : string) (n : FsNode) : list RawDocRecord :=
  match n with
  | FsFile _ _ => []
  | FsDir entries =>
      let visited :=
        (λ entry : string * FsNode,
           let next := nextRelativePath currentDir entry.1 in
           (entry.1,
            match entry.2 with
            | FsDir _ => readDocsIn next entry.2
            | FsFile _ source =>
                if isDocName entry.1 then [rawDocOf next entry.1 source] else []
            end)) <$> entries in
      concat (snd <$> arraySort (λ a b, localeCompare a.1 b.1) visited)
  end.

Definition readDocsRecursively (root : list (string * FsNode)) : list RawDocRecord :=
  readDocsIn "" (FsDir root).

(** [createSnapshot()] on an existing content root. *)
Definition createSnapshot (root : list (string * FsNode)) : DocsSnapshot :=
  let rawDocs :=
    arraySort (λ a b, localeCompare (rawRelPath a) (rawRelPath b))
      (readDocsRecursively root) in
  let docPathSet : gset string := list_to_set (rawRelPath <$> rawDocs) in
  let docs :=
    (λ doc,
       let rendered :=
         renderMarkdownToHtml root (rawContent doc) (rawRelPath doc) docPathSet in
       {| relPath := rawRelPath doc; slug := rawSlug doc; title := rawTitle doc;
          description := rawDescription doc; date := rawDate doc;
          contentHtml := rendered.1; docHeadings := rendered.2 |}) <$> rawDocs in
  {| docs := docs;
     slugs := slug <$> docs;
     tree := buildDocsTree localeCompare docs;
     searchEntries :=
       (λ doc, {| entryRelPath := relPath doc; entrySlug := slug doc;
                  entryTitle := title doc; entryDescription := description doc |})
       <$> docs |}.

(** The files a build reads, one [readFileSync] per document. *)
Definition buildEvents (root : list (string * FsNode)) : list Event :=
  CreateSnapshot :: (ReadDoc <$> (rawRelPath <$> readDocsRecursively root)).

(** [getPersistedSnapshotMeta] *)
Definition getPersistedSnapshotMeta (snapshot : JsValue)
  : Completion (option PersistedMeta) :=
  meta ← getProp snapshot "__meta";
  if negb (truthy meta) then Return None
  else
    metaSchemaVersion ← getProp meta "schemaVersion";
    if negb (strictEqNumber metaSchemaVersion SNAPSHOT_SCHEMA_VERSION)
    then Return None
    else
      metaVersion ← getProp meta "version";
      if negb (truthy metaVersion) then Return None
      else
        fileCount ← getProp metaVersion "fileCount";
        maxMtimeMs ← getProp metaVersion "maxMtimeMs";
        match finiteNumber fileCount, finiteNumber maxMtimeMs with
        | Some fc, Some mt =>
            Return (Some {| persistedSchemaVersion := SNAPSHOT_SCHEMA_VERSION;
                            persistedVersion :=
                              {| fileCount := Fin fc; maxMtimeMs := Fin mt |} |})
        | _, _ => Return None
        end.

(** The body of the [try] block of [getValidatedSnapshotFromDisk]. *)
Definition validateSnapshotFile (file : SnapshotFile) (expectedVersion : DocsVersion)
  : Completion (option Snapshot) :=
  raw ← match file with
        | FileText raw => Return raw
        | _ => Throw "Error: cannot read the snapshot file"
        end;
  parsed ← match jsonParse raw with
           | Some v => Return v
           | None => Throw "SyntaxError"
           end;
  meta ← getPersistedSnapshotMeta parsed;
  match meta with
  | None => Return None
  | Some meta =>
      if negb (isSameDocsVersion (persistedVersion meta) expectedVersion)
      then Return None
      else
        parsedDocs ← getProp parsed "docs";
        parsedTree ← getProp parsed "tree";
        match arrayItems parsedDocs, arrayItems parsedTree with
        | Some docItems, Some treeItems =>
            parsedSlugs ← getProp parsed "slugs";
            parsedEntries ← getProp parsed "searchEntries";
            Return (Some (Adopted docItems (default [] (arrayItems parsedSlugs))
                                  treeItems (default [] (arrayItems parsedEntries))))
        | _, _ => Return None
        end
  end.

Definition getValidatedSnapshotFromDisk (env : Env) (expectedVersion : DocsVersion)
  : option Snapshot :=
  match snapshotFile env with
  | NoFile => None
  | file =>
      match validateSnapshotFile file expectedVersion with
      | Return result => result
      | Throw _ => None
      end
  end.

(** [writeSnapshotToDisk]: the surroundings it leaves.  A failure inside
    the [try] block changes nothing. *)
Definition writeSnapshotToDisk (env : Env) (snapshot : DocsSnapshot)
    (version : DocsVersion) : Env :=
  let payload :=
    {| payload := snapshot;
       __meta := {| createdAt := IsoDate.toISOString (now env);
                    schemaVersion := SNAPSHOT_SCHEMA_VERSION;
                    version := version |} |} in
  if snapshotWritable env
  then {| foundationRoot := foundationRoot env; production := production env;
          snapshotFile := FileText (jsonStringify payload);
          snapshotWritable := snapshotWritable env; now := now env |}
  else env.

(** The outcome of one access. *)
Record Access := {
  returned : Snapshot;
  cacheAfter : Cache;
  envAfter : Env;
  events : list Event;
}.

Definition getSnapshot (env : Env) (cache : Cache) : Access :=
  match foundationRoot env with
  | None =>
      let empty := Built emptySnapshot in
      {| returned := empty;
         cacheAfter := {| cachedSnapshot := Some empty;
                          cachedVersion := Some {| fileCount := numOfZ 0;
                                                   maxMtimeMs := numOfZ 0 |} |};
         envAfter := env; events := [] |}
  | Some root =>
      if negb (production env) then
        let currentVersion := computeDocsVersion root in
        let rebuilt :=
          let snapshot := Built (createSnapshot root) in
          {| returned := snapshot;
             cacheAfter := {| cachedSnapshot := Some snapshot;
                              cachedVersion := Some currentVersion |};
             envAfter := env;
             events := ComputeVersion :: buildEvents root |} in
        match cachedSnapshot cache, cachedVersion cache with
        | Some snapshot, Some recorded =>
            if isSameDocsVersion recorded currentVersion
            then {| returned := snapshot; cacheAfter := cache; envAfter := env;
                    events := [ComputeVersion] |}
            else rebuilt
        | _, _ => rebuilt
        end
      else
        match cachedSnapshot cache with
        | Some snapshot =>
            {| returned := snapshot; cacheAfter := cache; envAfter := env;
               events := [] |}
        | None =>
            let currentVersion := computeDocsVersion root in
            let readEvents :=
              match snapshotFile env with
              | NoFile => []
              | _ => [ReadSnapshotFile]
              end in
            match getValidatedSnapshotFromDisk env currentVersion with
            | Some diskSnapshot =>
                {| returned := diskSnapshot;
                   cacheAfter := {| cachedSnapshot := Some diskSnapshot;
                                    cachedVersion := Some currentVersion |};
                   envAfter := env;
                   events := ComputeVersion :: readEvents |}
            | None =>
                let snapshot := createSnapshot root in
                {| returned := Built snapshot;
                   cacheAfter := {| cachedSnapshot := Some (Built snapshot);
                                    cachedVersion := Some currentVersion |};
                   envAfter := writeSnapshotToDisk env snapshot currentVersion;
                   events := ComputeVersion :: readEvents ++ buildEvents root
                             ++ [WriteSnapshotFile (snapshotWritable env)] |}
            end
        end
  end.

(** Number of full rebuilds in a trace. *)
Definition rebuilds (trace : list Event) : nat :=
  length (filter (λ e, e = CreateSnapshot) trace).

(** A persisted snapshot that passes every check of
    [getValidatedSnapshotFromDisk] against [expected], and what is adopted
    from it. *)
Definition acceptedFile (file : SnapshotFile) (expected : DocsVersion)
    (adopted : Snapshot) : Prop :=
  ∃ raw parsed meta versionFields fc mt docItems treeItems,
    file = FileText raw ∧ jsonParse raw = Some (VObject parsed) ∧
    getField "__meta" parsed = VObject meta ∧
    getField "schemaVersion" meta = VNumber SNAPSHOT_SCHEMA_VERSION ∧
    getField "version" meta = VObject versionFields ∧
    getField "fileCount" versionFields = VNumber (Fin fc) ∧
    getField "maxMtimeMs" versionFields = VNumber (Fin mt) ∧
    expected = {| fileCount := Fin fc; maxMtimeMs := Fin mt |} ∧
    getField "docs" parsed = VArray docItems ∧
    getField "tree" parsed = VArray treeItems ∧
    adopted = Adopted docItems (default [] (arrayItems (getField "slugs" parsed)))
                      treeItems
                      (default [] (arrayItems (getField "searchEntries" parsed))).

(** *** The documents of a directory as lists of names *)

(** The document files below a node, each as the list of names that leads
    to it, in listing order. *)
Fixpoint docSegments (n : FsNode) : list (list string) :=
  match n with
  | FsFile _ _ => []
  | FsDir entries =>
      concat ((λ entry : string * FsNode,
                 match entry.2 with
                 | FsDir _ => (λ segs, entry.1 :: segs) <$> docSegments entry.2
                 | FsFile _ _ => if isDocName entry.1 then [[entry.1]] else []
                 end) <$> entries)
  end.

(** A list of names that leads to a document: names all, the last one
    that of a document file. *)
Definition leadsToDocument (segs : list string) : Prop :=
  Forall entryName segs ∧ ∃ dir name, segs = dir ++ [name] ∧ isDocName name = true.

(** * Properties *)

(** ** The snapshot cache *)

Lemma numStrictEq_true a b : numStrictEq a b = true ↔ a = b ∧ a ≠ NaN.
Proof.
  unfold numStrictEq. destruct a, b; simpl; rewrite ?bool_decide_eq_true;
    split; try (intros [? ?]); try done; naive_solver.
Qed.

Lemma isSameDocsVersion_computed recorded root :
  isSameDocsVersion recorded (computeDocsVersion root) = true
  ↔ recorded = computeDocsVersion root.
Proof.
  unfold isSameDocsVersion, computeDocsVersion. destruct recorded as [fc mt].
  cbn [fileCount maxMtimeMs]. rewrite andb_true_iff, !numStrictEq_true. split.
  - by intros [[-> _] [-> _]].
  - intros [= -> ->]. by unfold numOfNat, numOfZ.
Qed.

Lemma rebuilds_buildEvents root : rebuilds (buildEvents root) = 1.
Proof.
  unfold rebuilds, buildEvents. rewrite filter_cons_True by done. cbn [length]. f_equal.
  induction (rawRelPath <$> readDocsRecursively root) as [|p l IH]; [reflexivity|].
  cbn [fmap list_fmap]. by rewrite filter_cons_False.
Qed.

Lemma ReadDoc_not_in_ComputeVersion p : ReadDoc p ∉ [ComputeVersion].
Proof. by intros [=]%list_elem_of_singleton. Qed.

(** ** C6 *)

(** C6. Outside production, with the content root in place and the cache
    warm: when the fingerprint computed at the access equals the recorded
    one, the access returns the cached snapshot, leaves the cache as it is,
    and neither rebuilds nor reads any document file; when it differs, the
    access runs exactly one full rebuild, returns its result and records it
    together with the new fingerprint. *)
Theorem getSnapshot_live_editing env cache snapshot recorded root :
  production env = false →
  foundationRoot env = Some root →
  cachedSnapshot cache = Some snapshot →
  cachedVersion cache = Some recorded →
  let current := computeDocsVersion root in
  let access := getSnapshot env cache in
  (recorded = current →
     returned access = snapshot ∧ cacheAfter access = cache ∧
     rebuilds (events access) = 0 ∧ (∀ p, ReadDoc p ∉ events access)) ∧
  (recorded ≠ current →
     returned access = Built (createSnapshot root) ∧
     cacheAfter access
     = {| cachedSnapshot := Some (Built (createSnapshot root));
          cachedVersion := Some current |} ∧
     rebuilds (events access) = 1).
Proof.
  intros Hprod Hroot Hs Hv current access. subst access.
  unfold getSnapshot. rewrite Hroot, Hprod, Hs, Hv. cbn [negb].
  destruct (isSameDocsVersion recorded (computeDocsVersion root)) eqn:E.
  - apply isSameDocsVersion_computed in E. split; [|done].
    intros _. cbn [returned cacheAfter events]. repeat split.
    intros p. apply ReadDoc_not_in_ComputeVersion.
  - split.
    + intros Heq. apply isSameDocsVersion_computed in Heq. congruence.
    + intros _. cbn [returned cacheAfter events]. repeat split.
      unfold rebuilds. rewrite filter_cons_False by done. apply rebuilds_buildEvents.
Qed.

Lemma strictEqNumber_schema v :
  strictEqNumber v SNAPSHOT_SCHEMA_VERSION = true ↔ v = VNumber SNAPSHOT_SCHEMA_VERSION.
Proof.
  destruct v; simpl; try (split; [discriminate|congruence]).
  rewrite numStrictEq_true. split; [by intros [-> _]|].
  intros [= ->]. by unfold SNAPSHOT_SCHEMA_VERSION, numOfZ.
Qed.

Lemma isSameDocsVersion_finite fc mt expected :
  isSameDocsVersion {| fileCount := Fin fc; maxMtimeMs := Fin mt |} expected = true
  ↔ expected = {| fileCount := Fin fc; maxMtimeMs := Fin mt |}.
Proof.
  unfold isSameDocsVersion. destruct expected as [a b]. cbn [fileCount maxMtimeMs].
  rewrite andb_true_iff, !numStrictEq_true. split.
  - by intros [[<- _] [<- _]].
  - by intros [= -> ->].
Qed.

Lemma finiteNumber_Some v q : finiteNumber v = Some q → v = VNumber (Fin q).
Proof. destruct v as [| | |[]| | | |]; simpl; congruence. Qed.

Lemma getPersistedSnapshotMeta_Some parsed m :
  getPersistedSnapshotMeta parsed = Return (Some m) ↔
  ∃ fields meta versionFields fc mt,
    parsed = VObject fields ∧
    getField "__meta" fields = VObject meta ∧
    getField "schemaVersion" meta = VNumber SNAPSHOT_SCHEMA_VERSION ∧
    getField "version" meta = VObject versionFields ∧
    getField "fileCount" versionFields = VNumber (Fin fc) ∧
    getField "maxMtimeMs" versionFields = VNumber (Fin mt) ∧
    m = {| persistedSchemaVersion := SNAPSHOT_SCHEMA_VERSION;
           persistedVersion := {| fileCount := Fin fc; maxMtimeMs := Fin mt |} |}.
Proof.
  unfold getPersistedSnapshotMeta. split.
  - destruct parsed as [| | | | | |items|fields]; try discriminate.
    all: cbn [getProp mbind Completion_bind truthy negb]; try discriminate.
    destruct (getField "__meta" fields) as [| |b|n|s|t|items|meta] eqn:Em;
      cbn [getProp mbind Completion_bind truthy negb strictEqNumber]; try discriminate.
    all: repeat (case_match; try discriminate).
    match goal with H : negb (strictEqNumber _ _) = false |- _ =>
      apply negb_false_iff, strictEqNumber_schema in H; rename H into Hsv end.
    destruct (getField "version" meta) as [| | | | | |?|versionFields] eqn:Ev;
      cbn [getProp mbind Completion_bind finiteNumber]; try discriminate.
    destruct (finiteNumber (getField "fileCount" versionFields)) as [fc|] eqn:Efc;
      [|discriminate].
    destruct (finiteNumber (getField "maxMtimeMs" versionFields)) as [mt|] eqn:Emt;
      [|discriminate].
    intros [= <-]. exists fields, meta, versionFields, fc, mt.
    apply finiteNumber_Some in Efc, Emt. done.
  - intros (fields & meta & vf & fc & mt & -> & Hm & Hsv & Hv & Hfc & Hmt & ->).
    cbn [getProp mbind Completion_bind]. rewrite Hm.
    cbn [truthy negb getProp mbind Completion_bind]. rewrite Hsv.
    rewrite (proj2 (strictEqNumber_schema _) eq_refl). cbn [negb]. rewrite Hv.
    cbn [truthy negb getProp mbind Completion_bind]. by rewrite Hfc, Hmt.
Qed.

Lemma arrayItems_Some v items : arrayItems v = Some items → v = VArray items.
Proof. destruct v; simpl; congruence. Qed.

Lemma getValidatedSnapshotFromDisk_Some env expected adopted :
  getValidatedSnapshotFromDisk env expected = Some adopted
  ↔ acceptedFile (snapshotFile env) expected adopted.
Proof.
  unfold getValidatedSnapshotFromDisk, acceptedFile. split.
  - destruct (snapshotFile env) as [| |raw]; try discriminate.
    unfold validateSnapshotFile. cbn [mbind Completion_bind].
    destruct (jsonParse raw) as [parsed|] eqn:Ep; cbn [mbind Completion_bind];
      [|discriminate].
    destruct (getPersistedSnapshotMeta parsed) as [[m|]|] eqn:Em;
      cbn [mbind Completion_bind]; try discriminate.
    apply getPersistedSnapshotMeta_Some in Em
      as (fields & meta & vf & fc & mt & -> & Hm & Hsv & Hv & Hfc & Hmt & ->).
    cbn [persistedVersion].
    destruct (isSameDocsVersion _ expected) eqn:Es; cbn [negb]; [|discriminate].
    apply isSameDocsVersion_finite in Es.
    cbn [getProp mbind Completion_bind].
    destruct (arrayItems (getField "docs" fields)) as [docItems|] eqn:Ed; [|discriminate].
    destruct (arrayItems (getField "tree" fields)) as [treeItems|] eqn:Et; [|discriminate].
    intros [= <-]. exists raw, fields, meta, vf, fc, mt, docItems, treeItems.
    apply arrayItems_Some in Ed, Et. done.
  - intros (raw & fields & meta & vf & fc & mt & docItems & treeItems
            & -> & Hp & Hm & Hsv & Hv & Hfc & Hmt & -> & Hd & Ht & ->).
    unfold validateSnapshotFile. cbn [mbind Completion_bind]. rewrite Hp.
    cbn [mbind Completion_bind].
    rewrite (proj2 (getPersistedSnapshotMeta_Some (VObject fields)
                      {| persistedSchemaVersion := SNAPSHOT_SCHEMA_VERSION;
                         persistedVersion :=
                           {| fileCount := Fin fc; maxMtimeMs := Fin mt |} |})).
    2:{ by exists fields, meta, vf, fc, mt. }
    cbn [mbind Completion_bind persistedVersion].
    rewrite (proj2 (isSameDocsVersion_finite fc mt _) eq_refl).
    cbn [negb getProp mbind Completion_bind]. by rewrite Hd, Ht.
Qed.

(** ** C9 *)

(** C9. Loading the persisted snapshot yields a snapshot exactly when the
    file exists, can be read, parses as JSON, carries [__meta] with the
    schema version of the code and a finite fingerprint equal to the current
    one, and has arrays for [docs] and [tree]; a missing file, a read or
    parse error and every other shape give no snapshot.  A cold access in
    production that gets no snapshot from the file runs one full rebuild and
    caches its result, whether or not writing the file succeeds; an accepted
    file is adopted without a rebuild.  The access always returns. *)
Theorem persisted_snapshot_soft_miss env expected :
  (∀ adopted,
     getValidatedSnapshotFromDisk env expected = Some adopted
     ↔ acceptedFile (snapshotFile env) expected adopted) ∧
  (snapshotFile env = NoFile ∨ snapshotFile env = Unreadable ∨
   (∃ raw, snapshotFile env = FileText raw ∧ jsonParse raw = None) →
   getValidatedSnapshotFromDisk env expected = None) ∧
  (∀ cache root,
     production env = true → foundationRoot env = Some root →
     cachedSnapshot cache = None → expected = computeDocsVersion root →
     let access := getSnapshot env cache in
     (getValidatedSnapshotFromDisk env expected = None →
        returned access = Built (createSnapshot root) ∧
        cacheAfter access
        = {| cachedSnapshot := Some (Built (createSnapshot root));
             cachedVersion := Some expected |} ∧
        rebuilds (events access) = 1 ∧
        (snapshotWritable env = false → envAfter access = env)) ∧
     (∀ adopted,
        getValidatedSnapshotFromDisk env expected = Some adopted →
        returned access = adopted ∧
        cacheAfter access
        = {| cachedSnapshot := Some adopted; cachedVersion := Some expected |} ∧
        rebuilds (events access) = 0 ∧ envAfter access = env)).
Proof.
  split; [|split].
  - intros adopted. apply getValidatedSnapshotFromDisk_Some.
  - unfold getValidatedSnapshotFromDisk.
    intros [-> | [-> | (raw & -> & Hp)]]; try reflexivity.
    unfold validateSnapshotFile. cbn [mbind Completion_bind]. by rewrite Hp.
  - intros cache root Hprod Hroot Hcold -> access. subst access.
    unfold getSnapshot. rewrite Hroot, Hprod, Hcold. cbn [negb]. split.
    + intros ->. cbn [returned cacheAfter events envAfter]. repeat split.
      * unfold rebuilds. rewrite filter_cons_False by done.
        rewrite !filter_app, !length_app.
        fold (rebuilds (buildEvents root)). rewrite rebuilds_buildEvents.
        rewrite filter_cons_False, filter_nil by done.
        destruct (snapshotFile env); reflexivity.
      * intros Hw. unfold writeSnapshotToDisk. by rewrite Hw.
    + intros adopted ->. cbn [returned cacheAfter events envAfter]. repeat split.
      unfold rebuilds. rewrite filter_cons_False by done.
      destruct (snapshotFile env); reflexivity.
Qed.

End SnapshotCache.

(** ** The link resolver *)

Example resolve_md : resolveMarkdownHref "../b/c.md#x" "a/d/e.md" ∅ = "/docs/a/b/c#x".
Proof. vm_compute. reflexivity. Qed.
Example resolve_asset : resolveMarkdownHref "img/p q.png?v=1" "a/e.md" ∅ = "/api/docs-asset/a/img/p%20q.png?v=1".
Proof. vm_compute. reflexivity. Qed.
Example resolve_esc : resolveMarkdownHref "../../../etc/passwd" "a/e.md" ∅ = "../../../etc/passwd".
Proof. vm_compute. reflexivity. Qed.
Example resolve_ext : resolveMarkdownHref "HTTPS://x.y" "a/e.md" ∅ = "HTTPS://x.y".
Proof. vm_compute. reflexivity. Qed.
Example resolve_sib : resolveMarkdownHref "guide" "a/e.md" {["a/guide.md"]} = "/docs/a/guide".
Proof. vm_compute. reflexivity. Qed.

Lemma length_stripLast {A} (l : list A) : length (stripLast l) = pred (length l).
Proof.
  unfold stripLast. induction l as [|a [|b l] IH]; simpl in *; auto.
Qed.

Lemma Forall_stripLast {A} (P : A → Prop) (l : list A) :
  Forall P l → Forall P (stripLast l).
Proof.
  unfold stripLast. induction 1 as [|a l Ha Hl IH]; simpl; [constructor|].
  destruct l; [constructor|]. constructor; auto.
Qed.

Lemma walkParts_None_iff parts safeParts :
  walkParts parts safeParts = None ↔
  ascendsAboveRoot parts (length safeParts) = true.
Proof.
  revert safeParts. induction parts as [|seg rest IH]; intros safeParts; simpl.
  - split; discriminate.
  - destruct (Js.isEmpty seg || String.eqb seg "."); [apply IH|].
    destruct (String.eqb seg "..").
    + destruct safeParts as [|a l]; [simpl; tauto|].
      rewrite IH, length_stripLast. reflexivity.
    + rewrite IH, length_app. simpl. rewrite Nat.add_1_r. reflexivity.
Qed.

Lemma split_nonempty sep s : Js.split sep s ≠ [].
Proof.
  destruct s as [|c s]; simpl; [discriminate|].
  destruct (Ascii.eqb c sep); [discriminate|].
  destruct (Js.split sep s); discriminate.
Qed.

Lemma split_noSlash s : Forall noSlash (Js.split "/" s).
Proof.
  induction s as [|c s IH]; simpl.
  - constructor; [reflexivity|constructor].
  - destruct (Ascii.eqb c "/") eqn:E.
    + constructor; [reflexivity|exact IH].
    + destruct (Js.split "/" s) as [|w ws]; [repeat constructor|].
      * unfold noSlash. simpl. rewrite E. reflexivity.
      * inversion IH as [|? ? Hw Hws]; subst. constructor; [|exact Hws].
        unfold noSlash in *. simpl. rewrite E, Hw. reflexivity.
Qed.

Lemma split_of_noSlash s : noSlash s → Js.split "/" s = [s].
Proof.
  unfold noSlash. induction s as [|c s IH]; simpl; [reflexivity|].
  destruct (Ascii.eqb c "/"); [discriminate|].
  destruct (Js.indexOf "/" s); [discriminate|].
  intros _. rewrite IH; reflexivity.
Qed.

Lemma split_app_slash x t :
  noSlash x → Js.split "/" (x +:+ "/" +:+ t) = x :: Js.split "/" t.
Proof.
  unfold noSlash. induction x as [|c x IH]; simpl; [reflexivity|].
  destruct (Ascii.eqb c "/") eqn:E; [discriminate|].
  destruct (Js.indexOf "/" x); [discriminate|].
  intros _. change (String c x +:+ "/" +:+ t) with (String c (x +:+ "/" +:+ t)).
  simpl. rewrite IH; reflexivity.
Qed.

Lemma split_join l :
  l ≠ [] → Forall noSlash l → Js.split "/" (Js.join "/" l) = l.
Proof.
  induction l as [|x [|y l] IH]; intros Hne Hl; [done| |].
  - simpl. apply split_of_noSlash. by inversion Hl.
  - inversion Hl as [|? ? Hx Hrest]; subst.
    change (Js.join "/" (x :: y :: l)) with (x +:+ "/" +:+ Js.join "/" (y :: l)).
    rewrite split_app_slash by exact Hx. f_equal. apply IH; [done|exact Hrest].
Qed.

Lemma isEmpty_false s : Js.isEmpty s = false ↔ s ≠ "".
Proof. destruct s; simpl; split; congruence. Qed.

Lemma walkParts_childSegments parts safeParts out :
  Forall noSlash parts → Forall childSegment safeParts →
  walkParts parts safeParts = Some out → Forall childSegment out.
Proof.
  revert safeParts. induction parts as [|seg rest IH]; intros safeParts Hp Hs; simpl.
  - congruence.
  - inversion Hp as [|? ? Hseg Hrest]; subst.
    destruct (Js.isEmpty seg || String.eqb seg ".") eqn:E1; [by apply IH|].
    destruct (String.eqb seg "..") eqn:E2.
    + destruct safeParts as [|a l]; [discriminate|].
      apply IH; [exact Hrest|]. by apply Forall_stripLast.
    + apply IH; [exact Hrest|]. apply Forall_app. split; [exact Hs|].
      constructor; [|constructor].
      apply orb_false_iff in E1 as [E0 E1].
      apply isEmpty_false in E0. apply String.eqb_neq in E1, E2. done.
Qed.

Lemma resolveParts_noSlash doc raw : Forall noSlash (resolveParts doc raw).
Proof.
  unfold resolveParts. destruct (Js.startsWith _ _).
  - apply split_noSlash.
  - apply Forall_app. split; [apply Forall_stripLast|]; apply split_noSlash.
Qed.

Lemma resolveDocsRelativePath_insideRoot doc raw p :
  resolveDocsRelativePath doc raw = Some p → insideRoot p.
Proof.
  unfold resolveDocsRelativePath, insideRoot.
  destruct (walkParts _ _) as [out|] eqn:W; [|discriminate].
  pose proof (walkParts_childSegments _ _ _ (resolveParts_noSlash doc raw)
                (List.Forall_nil _) W) as Hc.
  destruct out as [|a l]; [discriminate|]. intros [= <-].
  change (Forall childSegment (Js.split "/" (Js.join "/" (a :: l)))).
  rewrite split_join; [exact Hc|done|].
  eapply Forall_impl; [exact Hc|]. by intros s (_ & _ & _ & ?).
Qed.

Lemma ascendsAboveRoot_children l d :
  Forall childSegment l → ascendsAboveRoot l d = false.
Proof.
  intros H. revert d. induction H as [|s l (H0 & H1 & H2 & _) _ IH]; intros d; simpl.
  - reflexivity.
  - apply isEmpty_false in H0. apply String.eqb_neq in H1, H2.
    rewrite H0, H1, H2. simpl. apply IH.
Qed.

(** ** C1 *)

(** C1. Traversal safety of the link resolver.  Whenever the walk over the
    segments of the href's path (prefixed with the referencing document's
    directory unless the path starts with [/]) meets a [..] at depth 0,
    [resolveMarkdownHref] returns the href itself.  In every case the result
    is either the href itself or a route built from a resolved path all of
    whose segments are children (none is empty, [.] or [..]), so that path
    never ascends above the content root. *)
Theorem resolveMarkdownHref_stays_in_root
    (href currentDocPath : string) (docPathSet : gset string) :
  let ps := splitPathAndSuffix href in
  (ascendsAboveRoot (resolveParts currentDocPath (pathname ps)) 0 = true →
   resolveMarkdownHref href currentDocPath docPathSet = href) ∧
  (resolveMarkdownHref href currentDocPath docPathSet = href ∨
   ∃ p, resolveDocsRelativePath currentDocPath (pathname ps) = Some p ∧
        insideRoot p ∧ ascendsAboveRoot (Js.split "/" p) 0 = false ∧
        (resolveMarkdownHref href currentDocPath docPathSet =
           toDocHref (Js.split "/" (Js.dropEnd 3 p)) +:+ suffix ps ∨
         resolveMarkdownHref href currentDocPath docPathSet =
           toDocHref (Js.split "/" (Js.dropEnd 4 p)) +:+ suffix ps ∨
         resolveMarkdownHref href currentDocPath docPathSet =
           toDocHref (Js.split "/" p) +:+ suffix ps ∨
         resolveMarkdownHref href currentDocPath docPathSet =
           "/api/docs-asset/" +:+ encodePath p +:+ suffix ps)).
Proof.
  intros ps. split.
  - intros Hup. unfold resolveMarkdownHref. fold ps.
    apply (walkParts_None_iff _ []) in Hup.
    unfold resolveDocsRelativePath. rewrite Hup.
    repeat (match goal with |- context [if ?b then _ else _] => destruct b end);
      reflexivity.
  - unfold resolveMarkdownHref. fold ps.
    destruct (Js.isEmpty href); [by left|].
    destruct (isPassThroughHref href); [by left|].
    destruct (Js.isEmpty (pathname ps)); [by left|].
    destruct (resolveDocsRelativePath _ _) as [p|] eqn:R; [|by left].
    destruct (Js.isEmpty p); [by left|].
    right. exists p. pose proof (resolveDocsRelativePath_insideRoot _ _ _ R) as Hin.
    split; [reflexivity|]. split; [exact Hin|].
    split; [by apply ascendsAboveRoot_children|].
    simpl. destruct (Js.endsWith ".md" _); [by left|].
    destruct (Js.endsWith ".mdx" _); [by right; left|].
    repeat case_bool_decide; auto.
Qed.

Lemma resolveMarkdownHref_stays_in_root_witness :
  resolveMarkdownHref "../../../etc/passwd" "guide/intro.md" ∅
  = "../../../etc/passwd".
Proof.
  apply (proj1 (resolveMarkdownHref_stays_in_root
                  "../../../etc/passwd" "guide/intro.md" ∅)).
  vm_compute. reflexivity.
Defined.

(** ** C10 *)

(** C10. When the walk over the href's path ends with no segment left and
    without meeting a [..] at depth 0, path resolution still fails and
    [resolveMarkdownHref] returns the href itself; so do [/], [.] and [./]
    referenced from a document at the content root. *)
Theorem resolveMarkdownHref_no_segments
    (href currentDocPath : string) (docPathSet : gset string) :
  let ps := splitPathAndSuffix href in
  isPassThroughHref href = false →
  walkParts (resolveParts currentDocPath (pathname ps)) [] = Some [] →
  ascendsAboveRoot (resolveParts currentDocPath (pathname ps)) 0 = false ∧
  resolveDocsRelativePath currentDocPath (pathname ps) = None ∧
  resolveMarkdownHref href currentDocPath docPathSet = href.
Proof.
  intros ps Hext Hwalk. split; [|split].
  - destruct (ascendsAboveRoot _ 0) eqn:E; [|reflexivity].
    apply (walkParts_None_iff _ []) in E. congruence.
  - unfold resolveDocsRelativePath. by rewrite Hwalk.
  - unfold resolveMarkdownHref, resolveDocsRelativePath. fold ps.
    rewrite Hext, Hwalk. by repeat case_match.
Qed.

Lemma resolveMarkdownHref_no_segments_witness :
  (resolveMarkdownHref "/" "README.md" ∅ = "/" ∧
   resolveMarkdownHref "." "README.md" ∅ = ".") ∧
  resolveMarkdownHref "./" "README.md" {["README.md"]} = "./".
Proof.
  split; [split|].
  - apply (resolveMarkdownHref_no_segments "/" "README.md" ∅); reflexivity.
  - apply (resolveMarkdownHref_no_segments "." "README.md" ∅); reflexivity.
  - apply (resolveMarkdownHref_no_segments "./" "README.md" {["README.md"]});
      reflexivity.
Defined.

(** ** Slugs and the heading hook *)

Example slugify_ex : slugify Js.toLowerCase "  Hello,   World -- (v2)! " = "hello-world-v2".
Proof. vm_compute. reflexivity. Qed.
Example slugify_empty : slugify Js.toLowerCase "?!" = "".
Proof. vm_compute. reflexivity. Qed.
(** A no-break space and an ideographic space make one run of white space. *)
Example slugify_spaces :
  slugify Js.toLowerCase
    ("a" +:+ Js.bytes [194; 160] +:+ Js.bytes [227; 128; 128] +:+ "b ") = "a-b".
Proof. vm_compute. reflexivity. Qed.
Example trim_spaces :
  Js.trim (Js.bytes [227; 128; 128] +:+ " a b" +:+ Js.bytes [239; 187; 191]
           +:+ Js.bytes [226; 128; 169]) = "a b".
Proof. vm_compute. reflexivity. Qed.

Example headings_ex :
  renderHeadings Js.toLowerCase [("Intro", 2); ("Usage", 1); ("Intro", 3); ("intro!", 4); ("Intro", 2)]
    initialHeadingState
  = ([("intro", "<h2 id=" +:+ String Js.dq "" +:+ "intro" +:+ String Js.dq "" +:+ ">Intro</h2>");
      ("usage", "<h1 id=" +:+ String Js.dq "" +:+ "usage" +:+ String Js.dq "" +:+ ">Usage</h1>");
      ("intro-1", "<h3 id=" +:+ String Js.dq "" +:+ "intro-1" +:+ String Js.dq "" +:+ ">Intro</h3>");
      ("intro-2", "<h4 id=" +:+ String Js.dq "" +:+ "intro-2" +:+ String Js.dq "" +:+ ">intro!</h4>");
      ("intro-3", "<h2 id=" +:+ String Js.dq "" +:+ "intro-3" +:+ String Js.dq "" +:+ ">Intro</h2>")],
     {| headingCounts := {["intro" := 4; "usage" := 1]};
        headings := [ {| id := "intro"; level := 2; text := "Intro" |};
                      {| id := "intro-1"; level := 3; text := "Intro" |};
                      {| id := "intro-3"; level := 2; text := "Intro" |} ] |}).
Proof. vm_compute. reflexivity. Qed.

Section HeadingHook.
  Variable toLowerCase : string → string.

Lemma heading_countsAgree text depth st seen :
  countsAgree toLowerCase st seen →
  countsAgree toLowerCase (heading toLowerCase text depth st).2 (seen ++ [(text, depth)]).
Proof.
  intros Hinv b. simpl.
  rewrite filter_app, length_app, filter_cons, filter_nil. simpl.
  destruct (decide (headingBase toLowerCase text = b)) as [->|Hne].
  - rewrite lookup_insert_eq. simpl. rewrite (Hinv b). reflexivity.
  - rewrite lookup_insert_ne by exact Hne. rewrite (Hinv b). simpl. lia.
Qed.

Lemma heading_id text depth st seen :
  countsAgree toLowerCase st seen →
  let n := sameBaseBefore toLowerCase seen text in
  (heading toLowerCase text depth st).1.1
  = if n =? 0 then headingBase toLowerCase text else headingBase toLowerCase text +:+ "-" +:+ Js.ofNat n.
Proof. intros Hinv. simpl. unfold sameBaseBefore. rewrite <- (Hinv _). reflexivity. Qed.

Lemma heading_headings text depth st :
  headings (heading toLowerCase text depth st).2
  = headings st ++
    (if (2 <=? depth) && (depth <=? 3)
     then [{| id := (heading toLowerCase text depth st).1.1; level := depth; text := text |}]
     else []).
Proof.
  unfold heading. cbn [fst snd headings].
  destruct ((2 <=? depth) && (depth <=? 3)); [reflexivity|by rewrite app_nil_r].
Qed.

Lemma renderHeadings_cons text depth rest st :
  renderHeadings toLowerCase ((text, depth) :: rest) st
  = (((heading toLowerCase text depth st).1.1, headingHtml depth (heading toLowerCase text depth st).1.1 text)
       :: (renderHeadings toLowerCase rest (heading toLowerCase text depth st).2).1,
     (renderHeadings toLowerCase rest (heading toLowerCase text depth st).2).2).
Proof.
  cbn [renderHeadings].
  assert (Hh : (heading toLowerCase text depth st).1.2
               = headingHtml depth (heading toLowerCase text depth st).1.1 text) by reflexivity.
  destruct (heading toLowerCase text depth st) as [[i h] st']. cbn [fst snd] in *.
  destruct (renderHeadings toLowerCase rest st') as [out st'']. by rewrite Hh.
Qed.

Lemma renderHeadings_spec tokens : ∀ seen st,
  countsAgree toLowerCase st seen →
  let r := renderHeadings toLowerCase tokens st in
  length r.1 = length tokens ∧
  (∀ pre text depth post, tokens = pre ++ (text, depth) :: post →
     let n := sameBaseBefore toLowerCase (seen ++ pre) text in
     r.1 !! length pre
     = Some (if n =? 0 then headingBase toLowerCase text
             else headingBase toLowerCase text +:+ "-" +:+ Js.ofNat n,
             headingHtml depth
               (if n =? 0 then headingBase toLowerCase text
                else headingBase toLowerCase text +:+ "-" +:+ Js.ofNat n) text)) ∧
  headings r.2 = headings st ++ (recordOf <$> filter outlineLevel (zip r.1 tokens)).
Proof.
  induction tokens as [|[text depth] rest IH]; intros seen st Hinv r.
  - subst r. simpl. split; [reflexivity|]. split.
    + intros pre ? ? ? H. by destruct pre.
    + by rewrite app_nil_r.
  - subst r. rewrite renderHeadings_cons.
    destruct (IH (seen ++ [(text, depth)]) (heading toLowerCase text depth st).2
                (heading_countsAgree text depth st seen Hinv)) as (Hlen & Hpos & Hout).
    cbn [fst snd]. split; [cbn [length]; by rewrite Hlen|]. split.
    + intros pre text' depth' post Heq. destruct pre as [|t pre].
      * simpl in Heq. simplify_eq. rewrite app_nil_r.
        cbn [length lookup list_lookup]. rewrite (heading_id _ _ _ _ Hinv). reflexivity.
      * simpl in Heq. simplify_eq. cbn [length]. rewrite lookup_cons.
        rewrite (Hpos pre text' depth' post eq_refl).
        rewrite <- app_assoc. reflexivity.
    + rewrite Hout, heading_headings, <- app_assoc. f_equal.
      cbn [zip zip_with]. rewrite filter_cons.
      destruct (decide (outlineLevel _)) as [Hd|Hd];
        unfold outlineLevel in Hd; cbn [fst snd] in Hd.
      * replace ((2 <=? depth) && (depth <=? 3)) with true; [reflexivity|].
        symmetry. apply andb_true_iff. split; apply Nat.leb_le; lia.
      * replace ((2 <=? depth) && (depth <=? 3)) with false; [reflexivity|].
        symmetry. apply andb_false_iff.
        destruct (Nat.leb_spec 2 depth); [|by left].
        destruct (Nat.leb_spec depth 3); [lia|by right].
Qed.

(** ** C2 *)

(** C2. Whatever the lower-casing of the runtime: within one render, the
    heading hook gives the first heading with a given base slug the id
    [base], and the N-th one (N ≥ 2) the id [base-(N-1)]; the id is the one
    in the emitted tag.  The heading list of the render holds exactly the
    level-2 and level-3 headings, with those ids, in document order. *)
Theorem heading_ids_and_outline (tokens : list (string * nat)) :
  let r := renderHeadings toLowerCase tokens initialHeadingState in
  length r.1 = length tokens ∧
  (∀ pre text depth post N,
     tokens = pre ++ (text, depth) :: post →
     N = S (sameBaseBefore toLowerCase pre text) →
     ∃ id, r.1 !! length pre = Some (id, headingHtml depth id text) ∧
           (N = 1 → id = headingBase toLowerCase text) ∧
           (2 ≤ N → id = headingBase toLowerCase text +:+ "-" +:+ Js.ofNat (N - 1))) ∧
  headings r.2 = recordOf <$> filter outlineLevel (zip r.1 tokens).
Proof.
  intros r.
  destruct (renderHeadings_spec tokens [] initialHeadingState) as (Hlen & Hpos & Hout).
  { intros b. unfold initialHeadingState. cbn [headingCounts].
    by rewrite lookup_empty. }
  split; [exact Hlen|]. split; [|exact Hout].
  intros pre text depth post N Heq ->.
  specialize (Hpos pre text depth post Heq). cbn zeta in Hpos.
  rewrite app_nil_l in Hpos. eexists. split; [exact Hpos|].
  destruct (sameBaseBefore toLowerCase pre text) as [|n] eqn:E; simpl.
  - split; [reflexivity|lia].
  - split; [lia|]. intros _. reflexivity.
Qed.

End HeadingHook.

Lemma heading_ids_and_outline_witness :
  ∃ id, (renderHeadings Js.toLowerCase [("Setup", 2); ("Notes", 3); ("Setup", 4); ("setup?", 2)]
           initialHeadingState).1 !! 3
        = Some (id, headingHtml 2 id "setup?") ∧
        (3 = 1 → id = headingBase Js.toLowerCase "setup?") ∧
        (2 ≤ 3 → id = headingBase Js.toLowerCase "setup?" +:+ "-" +:+ Js.ofNat (3 - 1)).
Proof.
  apply (proj1 (proj2 (heading_ids_and_outline Js.toLowerCase
           [("Setup", 2); ("Notes", 3); ("Setup", 4); ("setup?", 2)]))
         [("Setup", 2); ("Notes", 3); ("Setup", 4)] "setup?" 2 [] 3);
    reflexivity.
Defined.

(** ** The embed preprocessor *)

Example preprocess_ex1 :
  preprocessObsidianMarkdown "a ![[ .\img\x.png | An image ]] b ![[y.png]]![[z" true
  = "a ![An image](/img/x.png) b ![](/y.png)![[z".
Proof. vm_compute. reflexivity. Qed.
Example preprocess_ex2 :
  preprocessObsidianMarkdown "![[a|b]c]] ![[|x]] ![[a|]] ![[a|b|c]]" false
  = "![[a|b]c]] ![[|x]] ![[a|]] ![b|c](a)".
Proof. vm_compute. reflexivity. Qed.

Lemma str_app_cons c a b : String c a +:+ b = String c (a +:+ b).
Proof. reflexivity. Qed.

Lemma str_app_assoc a b c : (a +:+ b) +:+ c = a +:+ (b +:+ c).
Proof. induction a as [|x a IH]; [reflexivity|]. by rewrite !str_app_cons, IH. Qed.

Lemma span_app p t r :
  allChars p t = true → headFails p r → Embed.span p (t +:+ r) = (t, r).
Proof.
  induction t as [|c t IH]; intros Ht Hr.
  - destruct r as [|c r]; [reflexivity|]. simpl in *. by rewrite Hr.
  - simpl in Ht. apply andb_true_iff in Ht as [Hc Ht].
    rewrite str_app_cons. simpl. by rewrite Hc, IH.
Qed.

Lemma sliceFrom_app a b n :
  Js.sliceFrom (String.length a + n) (a +:+ b) = Js.sliceFrom n b.
Proof. induction a as [|c a IH]; [reflexivity|]. rewrite str_app_cons. exact IH. Qed.

Lemma replaceAll_skip rr n s :
  Embed.replaceAll rr n s = Embed.replaceAll rr 0 (Js.sliceFrom n s).
Proof.
  revert n. induction s as [|c s IH]; intros [|n]; try reflexivity.
  cbn [Embed.replaceAll Js.sliceFrom]. apply IH.
Qed.

Lemma matchAt_with_alt t a rest :
  t ≠ "" → allChars Embed.targetChar t = true →
  a ≠ "" → allChars Embed.altChar a = true →
  Embed.matchAt ("![[" +:+ t +:+ "|" +:+ a +:+ "]]" +:+ rest)
  = Some {| Embed.rawTarget := t; Embed.rawAlt := Some a;
            Embed.matched := 3 + String.length t + 1 + String.length a + 2 |}.
Proof.
  intros Ht Hta Ha Haa. unfold Embed.matchAt.
  change (Js.sliceFrom 3 ("![[" +:+ t +:+ "|" +:+ a +:+ "]]" +:+ rest))
    with (t +:+ "|" +:+ a +:+ "]]" +:+ rest).
  change (Js.startsWith "![[" ("![[" +:+ t +:+ "|" +:+ a +:+ "]]" +:+ rest)) with true.
  cbv iota. rewrite span_app; [|exact Hta|reflexivity].
  apply isEmpty_false in Ht. rewrite Ht.
  change (Js.startsWith "|" ("|" +:+ a +:+ "]]" +:+ rest)) with true. cbv iota.
  change (Js.sliceFrom 1 ("|" +:+ a +:+ "]]" +:+ rest)) with (a +:+ "]]" +:+ rest).
  rewrite span_app; [|exact Haa|reflexivity].
  apply isEmpty_false in Ha. rewrite Ha. reflexivity.
Qed.

Lemma matchAt_without_alt t rest :
  t ≠ "" → allChars Embed.targetChar t = true →
  Embed.matchAt ("![[" +:+ t +:+ "]]" +:+ rest)
  = Some {| Embed.rawTarget := t; Embed.rawAlt := None;
            Embed.matched := 3 + String.length t + 2 |}.
Proof.
  intros Ht Hta. unfold Embed.matchAt.
  change (Js.sliceFrom 3 ("![[" +:+ t +:+ "]]" +:+ rest)) with (t +:+ "]]" +:+ rest).
  change (Js.startsWith "![[" ("![[" +:+ t +:+ "]]" +:+ rest)) with true.
  cbv iota. rewrite span_app; [|exact Hta|reflexivity].
  apply isEmpty_false in Ht. rewrite Ht. reflexivity.
Qed.

Lemma replaceAll_at_match rr c s m :
  Embed.matchAt (String c s) = Some m →
  Embed.replaceAll rr 0 (String c s)
  = Embed.replacement rr m
    +:+ Embed.replaceAll rr 0 (Js.sliceFrom (Embed.matched m) (String c s)).
Proof.
  intros Hm. cbn [Embed.replaceAll]. rewrite Hm, replaceAll_skip.
  destruct (Embed.matched m) as [|k] eqn:E.
  - exfalso. revert Hm E. unfold Embed.matchAt.
    repeat (case_match; try discriminate); intros [= <-]; simpl; lia.
  - cbn [Js.sliceFrom]. by replace (S k - 1) with k by lia.
Qed.

Lemma preprocess_no_bang rr s :
  Js.indexOf "!" s = None → Embed.replaceAll rr 0 s = s.
Proof.
  induction s as [|c s IH]; [reflexivity|]. cbn [Js.indexOf].
  destruct (Ascii.eqb c "!") eqn:E; [discriminate|].
  destruct (Js.indexOf "!" s); [discriminate|]. intros _.
  cbn [Embed.replaceAll]. unfold Embed.matchAt.
  cbn [Js.startsWith]. rewrite Ascii.eqb_sym, E. cbn [andb]. by rewrite IH.
Qed.

Lemma sliceFrom_whole_match_alt t a rest :
  Js.sliceFrom (3 + String.length t + 1 + String.length a + 2)
    ("![[" +:+ t +:+ "|" +:+ a +:+ "]]" +:+ rest) = rest.
Proof.
  replace (3 + String.length t + 1 + String.length a + 2)
    with (S (S (S (String.length t + S (String.length a + 2))))) by lia.
  change (Js.sliceFrom (S (S (S ?n))) ("![[" +:+ ?x)) with (Js.sliceFrom n x).
  rewrite sliceFrom_app.
  change (Js.sliceFrom (S ?n) ("|" +:+ ?x)) with (Js.sliceFrom n x).
  by rewrite sliceFrom_app.
Qed.

Lemma sliceFrom_whole_match t rest :
  Js.sliceFrom (3 + String.length t + 2) ("![[" +:+ t +:+ "]]" +:+ rest) = rest.
Proof.
  replace (3 + String.length t + 2) with (S (S (S (String.length t + 2)))) by lia.
  change (Js.sliceFrom (S (S (S ?n))) ("![[" +:+ ?x)) with (Js.sliceFrom n x).
  by rewrite sliceFrom_app.
Qed.

(** ** C3 *)

(** C3, as amended.  In every text, an embed [![[target|alt]]] or
    [![[target]]] (target: one or more characters other than []] and [|];
    alt: one or more characters other than []]) standing where the scan has
    arrived is replaced by [![alt](target)], where alt is trimmed (empty when
    absent) and the target is trimmed, has its backslashes turned into
    slashes, loses every leading slash and after that one leading [./], and
    is prefixed with [/] when [rootRelative] is set; the scan goes on after
    the embed.  A character at which the pattern does not match is copied,
    and a text without [!] is returned as it is.  The text
    [![[diagram.png|A diagram]]] with [rootRelative] set becomes
    [![A diagram](/diagram.png)]. *)
Theorem preprocessObsidianMarkdown_rewrites_embeds (rootRelative : bool) :
  (∀ t a rest,
     t ≠ "" → allChars Embed.targetChar t = true →
     a ≠ "" → allChars Embed.altChar a = true →
     preprocessObsidianMarkdown ("![[" +:+ t +:+ "|" +:+ a +:+ "]]" +:+ rest) rootRelative
     = "![" +:+ Js.trim a +:+ "](" +:+ (if rootRelative then "/" else "")
       +:+ Embed.stripDotSlash (Embed.stripLeadingSlashes
             (Js.backslashToSlash (Js.trim t)))
       +:+ ")" +:+ preprocessObsidianMarkdown rest rootRelative) ∧
  (∀ t rest,
     t ≠ "" → allChars Embed.targetChar t = true →
     preprocessObsidianMarkdown ("![[" +:+ t +:+ "]]" +:+ rest) rootRelative
     = "![](" +:+ (if rootRelative then "/" else "")
       +:+ Embed.stripDotSlash (Embed.stripLeadingSlashes
             (Js.backslashToSlash (Js.trim t)))
       +:+ ")" +:+ preprocessObsidianMarkdown rest rootRelative) ∧
  (∀ c s,
     Embed.matchAt (String c s) = None →
     preprocessObsidianMarkdown (String c s) rootRelative
     = String c (preprocessObsidianMarkdown s rootRelative)) ∧
  (∀ s, Js.indexOf "!" s = None →
        preprocessObsidianMarkdown s rootRelative = s) ∧
  preprocessObsidianMarkdown "![[diagram.png|A diagram]]" true
  = "![A diagram](/diagram.png)".
Proof.
  unfold preprocessObsidianMarkdown. repeat split.
  - intros t a rest Ht Hta Ha Haa.
    pose proof (matchAt_with_alt t a rest Ht Hta Ha Haa) as Hm.
    change ("![[" +:+ t +:+ "|" +:+ a +:+ "]]" +:+ rest)
      with (String "!" ("[[" +:+ t +:+ "|" +:+ a +:+ "]]" +:+ rest)) in Hm |- *.
    rewrite (replaceAll_at_match _ _ _ _ Hm). cbn [Embed.matched].
    change (String "!" ("[[" +:+ t +:+ "|" +:+ a +:+ "]]" +:+ rest))
      with ("![[" +:+ t +:+ "|" +:+ a +:+ "]]" +:+ rest).
    rewrite sliceFrom_whole_match_alt.
    unfold Embed.replacement, Embed.target. cbn [Embed.rawAlt Embed.rawTarget default].
    destruct rootRelative; rewrite !str_app_assoc; reflexivity.
  - intros t rest Ht Hta.
    pose proof (matchAt_without_alt t rest Ht Hta) as Hm.
    change ("![[" +:+ t +:+ "]]" +:+ rest)
      with (String "!" ("[[" +:+ t +:+ "]]" +:+ rest)) in Hm |- *.
    rewrite (replaceAll_at_match _ _ _ _ Hm). cbn [Embed.matched].
    change (String "!" ("[[" +:+ t +:+ "]]" +:+ rest))
      with ("![[" +:+ t +:+ "]]" +:+ rest).
    rewrite sliceFrom_whole_match.
    unfold Embed.replacement, Embed.target. cbn [Embed.rawAlt Embed.rawTarget default].
    destruct rootRelative; rewrite !str_app_assoc; reflexivity.
  - intros c s Hm. cbn [Embed.replaceAll]. by rewrite Hm.
  - intros s Hs. by apply preprocess_no_bang.
Qed.

Lemma preprocessObsidianMarkdown_rewrites_embeds_witness :
  preprocessObsidianMarkdown ("![[" +:+ " /\img\a.png " +:+ "|" +:+ " A " +:+ "]]" +:+ " tail") false
  = "![" +:+ "A" +:+ "](" +:+ "" +:+ "img/a.png" +:+ ")" +:+ " tail".
Proof.
  apply (proj1 (preprocessObsidianMarkdown_rewrites_embeds false)
           " /\img\a.png " " A " " tail"); [discriminate|reflexivity|discriminate|reflexivity].
Defined.

(** Against C3 as stated: of the two leading slashes of [//a.png] the
    preprocessor leaves none, where removing a single one would leave one. *)
Lemma preprocessObsidianMarkdown_strips_every_slash :
  preprocessObsidianMarkdown "![[//a.png]]" false = "![](a.png)" ∧
  "![](" +:+ specEmbedTarget "//a.png" +:+ ")" = "![](/a.png)" ∧
  preprocessObsidianMarkdown "![[//a.png]]" false
  ≠ "![](" +:+ specEmbedTarget "//a.png" +:+ ")".
Proof. repeat split; vm_compute; congruence. Qed.

(** ** Dates *)

Example iso_epoch : IsoDate.toISOString 0%Z = "1970-01-01T00:00:00.000Z".
Proof. vm_compute. reflexivity. Qed.
Example iso_2024 : IsoDate.toISOString 1704412800000%Z = "2024-01-05T00:00:00.000Z".
Proof. vm_compute. reflexivity. Qed.
Example iso_before : IsoDate.toISOString (-1)%Z = "1969-12-31T23:59:59.999Z".
Proof. vm_compute. reflexivity. Qed.
Example iso_leap : IsoDate.toISOString 951827696789%Z = "2000-02-29T12:34:56.789Z".
Proof. vm_compute. reflexivity. Qed.
Example iso_far : IsoDate.toISOString 253402300800000%Z = "+010000-01-01T00:00:00.000Z".
Proof. vm_compute. reflexivity. Qed.
Example iso_bc : IsoDate.toISOString (-62198755200000)%Z = "-000001-01-01T00:00:00.000Z".
Proof. vm_compute. reflexivity. Qed.

Lemma isDigit_digitChar n : IsoDate.isDigit (IsoDate.digitChar n) = true.
Proof.
  unfold IsoDate.isDigit, IsoDate.digitChar.
  pose proof (Z.mod_pos_bound n 10 ltac:(lia)) as Hb.
  rewrite nat_ascii_embedding by lia.
  apply andb_true_iff. split; apply Nat.leb_le; lia.
Qed.

(** ** C4 *)

(** C4, as amended.  For a [Date] value the date field is the first ten
    characters of its ISO rendering in UTC, which for the years 0 to 9999 is
    [YYYY-MM-DD]; for a string value it is that string, unchanged; for every
    other value (absent, null, a number, ...) it is empty. *)
Theorem normalizeDate_by_kind :
  (∀ t y m d,
     IsoDate.civilFromDays (t / IsoDate.msPerDay) = (y, m, d) →
     (0 ≤ y ≤ 9999)%Z →
     normalizeDate (VDate t)
     = IsoDate.fixedDigits 4 y +:+ "-" +:+ IsoDate.fixedDigits 2 m
       +:+ "-" +:+ IsoDate.fixedDigits 2 d ∧
     IsoDate.isIsoDate (IsoDate.fixedDigits 4 y +:+ "-" +:+ IsoDate.fixedDigits 2 m
                        +:+ "-" +:+ IsoDate.fixedDigits 2 d) = true) ∧
  (∀ s, normalizeDate (VString s) = s) ∧
  (∀ v, (∀ t, v ≠ VDate t) → (∀ s, v ≠ VString s) → normalizeDate v = "").
Proof.
  split; [|split].
  - intros t y m d Hc Hy. split.
    + unfold normalizeDate, IsoDate.toISOString, IsoDate.dateString.
      rewrite Hc. unfold IsoDate.yearString.
      replace ((0 <=? y)%Z && (y <=? 9999)%Z) with true
        by (symmetry; apply andb_true_iff; split; apply Z.leb_le; lia).
      reflexivity.
    + cbv [IsoDate.fixedDigits String.append IsoDate.isIsoDate forallb].
      by rewrite !isDigit_digitChar.
  - reflexivity.
  - intros v Hd Hs. destruct v; try reflexivity; [by destruct (Hs s)|by destruct (Hd timeValue)].
Qed.

Lemma normalizeDate_by_kind_witness :
  normalizeDate (VDate 1704412800000%Z) = "2024-01-05" ∧
  IsoDate.isIsoDate "2024-01-05" = true.
Proof.
  apply (proj1 normalizeDate_by_kind 1704412800000%Z 2024%Z 1%Z 5%Z);
    [reflexivity|lia].
Defined.

(** Against C4 as stated: a date given as a string is present, yet it is
    passed on as it is, whatever it holds. *)
Lemma normalizeDate_keeps_any_string :
  normalizeDate (VString "next week") = "next week" ∧
  IsoDate.isIsoDate "next week" = false.
Proof. split; reflexivity. Qed.

(** ** Descriptions *)

Example description_ex :
  getDescriptionFromContent
    ("# Title" +:+ String newline "" +:+ String newline "" +:+ "  ![img](a.png)"
     +:+ String newline "" +:+ "---" +:+ String newline ""
     +:+ " > A **well-known** _thing_. " +:+ String newline "" +:+ "more")
  = "A wellknown thing.".
Proof. vm_compute. reflexivity. Qed.

(** A description of white space only, here an ideographic space, counts
    as none. *)
Example description_blank :
  docDescription (VString (Js.bytes [227; 128; 128])) ("Hello" +:+ Js.bytes [194; 160])
  = "Hello".
Proof. vm_compute. reflexivity. Qed.

Lemma firstDescription_skip line rest :
  skippedLine line = true → firstDescription (line :: rest) = firstDescription rest.
Proof.
  unfold skippedLine. cbn [firstDescription].
  repeat (destruct (Js.startsWith _ line); [reflexivity|]). discriminate.
Qed.

Lemma firstDescription_take line rest :
  skippedLine line = false → firstDescription (line :: rest) = stripMarkers line.
Proof.
  unfold skippedLine. cbn [firstDescription].
  repeat (destruct (Js.startsWith _ line); [discriminate|]). reflexivity.
Qed.

Lemma firstDescription_first pre line post :
  forallb skippedLine pre = true → skippedLine line = false →
  firstDescription (pre ++ line :: post) = stripMarkers line.
Proof.
  induction pre as [|l pre IH]; simpl; intros Hpre Hline.
  - by apply firstDescription_take.
  - apply andb_true_iff in Hpre as [Hl Hpre].
    rewrite <- (IH Hpre Hline). by apply firstDescription_skip.
Qed.

Lemma firstDescription_none lines :
  forallb skippedLine lines = true → firstDescription lines = "".
Proof.
  induction lines as [|l lines IH]; [reflexivity|]. cbn [forallb].
  intros [Hl Hrest]%andb_true_iff. rewrite firstDescription_skip by exact Hl. auto.
Qed.

(** ** C5 *)

(** C5, as amended.  The description is the trimmed front-matter
    description when that is a string whose trimmed form is not empty.
    Otherwise (absent, not a string, empty or blank) it comes from the body:
    the lines are trimmed, blank ones are dropped, and the first remaining
    line that starts with none of [#], [![], [---] and the code fence is
    taken, with every [*], [_], backquote, [>], [#] and [-] removed and the
    result trimmed; without such a line the description is empty. *)
Theorem docDescription_sources (content : string) :
  (∀ s, Js.trim s ≠ "" → docDescription (VString s) content = Js.trim s) ∧
  (∀ v, (∀ s, v = VString s → Js.trim s = "") →
        docDescription v content = getDescriptionFromContent content) ∧
  (∀ pre line post,
     contentLines content = pre ++ line :: post →
     forallb skippedLine pre = true → skippedLine line = false →
     getDescriptionFromContent content = stripMarkers line) ∧
  (forallb skippedLine (contentLines content) = true →
   getDescriptionFromContent content = "").
Proof.
  repeat split.
  - intros s Hs. unfold docDescription. apply isEmpty_false in Hs. by rewrite Hs.
  - intros v Hv. unfold docDescription.
    destruct v; try reflexivity. by rewrite (Hv s eq_refl).
  - intros pre line post Hl Hpre Hline. unfold getDescriptionFromContent.
    rewrite Hl. by apply firstDescription_first.
  - intros Hall. by apply firstDescription_none.
Qed.

Lemma docDescription_sources_witness :
  (docDescription (VString " About Aelin ") "# T" = "About Aelin" ∧
   docDescription (VNumber (numOfZ 7)) ("# T" +:+ String newline "" +:+ "*Hello*")
   = getDescriptionFromContent ("# T" +:+ String newline "" +:+ "*Hello*")) ∧
  getDescriptionFromContent ("# T" +:+ String newline "" +:+ "*Hello*") = "Hello".
Proof.
  split; [split|].
  - apply (proj1 (docDescription_sources "# T") " About Aelin "). discriminate.
  - apply (proj1 (proj2 (docDescription_sources _)) (VNumber (numOfZ 7))). discriminate.
  - apply (proj1 (proj2 (proj2 (docDescription_sources
             ("# T" +:+ String newline "" +:+ "*Hello*")))) ["# T"] "*Hello*" []);
      reflexivity.
Defined.

(** Against C5 as stated: a front-matter description made of blanks is a
    non-empty string, yet the description is taken from the body and is not
    that string trimmed. *)
Lemma docDescription_blank_meta_falls_back :
  Js.isEmpty "  " = false ∧
  docDescription (VString "  ") "Hello" = "Hello" ∧
  docDescription (VString "  ") "Hello" ≠ Js.trim "  ".
Proof. repeat split; vm_compute; congruence. Qed.

(** ** Document lookup *)

Lemma find_firstWith {A} (f : A → bool) l d :
  List.find f l = Some d → firstWith f l d.
Proof.
  induction l as [|x l IH]; [discriminate|]. cbn [List.find].
  destruct (f x) eqn:E.
  - intros [= <-]. by exists [], l.
  - intros (pre & post & -> & Hd & Hpre)%IH.
    exists (x :: pre), post. cbn [forallb]. by rewrite E, Hpre.
Qed.

Lemma find_is_Some {A} (f : A → bool) l :
  (∃ x, x ∈ l ∧ f x = true) → ∃ d, List.find f l = Some d.
Proof.
  intros (x & Hx & Hfx). destruct (List.find f l) as [d|] eqn:E; [by exists d|].
  apply list_elem_of_In in Hx. by rewrite (find_none f l E x Hx) in Hfx.
Qed.

Lemma find_is_None {A} (f : A → bool) l :
  (¬ ∃ x, x ∈ l ∧ f x = true) → List.find f l = None.
Proof.
  intros Hno. destruct (List.find f l) as [d|] eqn:E; [|reflexivity].
  destruct Hno. exists d. apply find_some in E as [Hin Hf].
  by rewrite list_elem_of_In.
Qed.

(** ** C8 *)

(** C8. With an absent or empty slug, [findDocBySlug] returns the (first)
    document whose [relPath] is [getting-started/welcome.md] if there is one,
    else the (first) document whose [relPath] ends with [/README.md] if there
    is one, else the first document of the list, and null for an empty list.
    With a non-empty slug it returns the (first) document whose slash-joined
    slug equals the slash-joined argument, and null if there is none. *)
Theorem findDocBySlug_contract (docs : list DocRecord) :
  (∀ slug, slug = None ∨ slug = Some [] →
     ((∃ x, x ∈ docs ∧ relPath x = "getting-started/welcome.md") →
      ∃ d, findDocBySlug docs slug = Some d ∧ firstWith isWelcome docs d ∧
           relPath d = "getting-started/welcome.md") ∧
     ((¬ ∃ x, x ∈ docs ∧ relPath x = "getting-started/welcome.md") →
      (∃ x, x ∈ docs ∧ Js.endsWith "/README.md" (relPath x) = true) →
      ∃ d, findDocBySlug docs slug = Some d ∧ firstWith isReadme docs d) ∧
     ((¬ ∃ x, x ∈ docs ∧ relPath x = "getting-started/welcome.md") →
      (¬ ∃ x, x ∈ docs ∧ Js.endsWith "/README.md" (relPath x) = true) →
      findDocBySlug docs slug = head docs) ∧
     (docs = [] → findDocBySlug docs slug = None)) ∧
  (∀ s, s ≠ [] →
     ((∃ x, x ∈ docs ∧ Js.join "/" (slug x) = Js.join "/" s) →
      ∃ d, findDocBySlug docs (Some s) = Some d ∧
           firstWith (hasSlugKey (Js.join "/" s)) docs d ∧
           Js.join "/" (slug d) = Js.join "/" s) ∧
     ((¬ ∃ x, x ∈ docs ∧ Js.join "/" (slug x) = Js.join "/" s) →
      findDocBySlug docs (Some s) = None)).
Proof.
  split.
  - intros sl Hsl.
    assert (Hdef : findDocBySlug docs sl =
              match List.find isWelcome docs with
              | Some doc => Some doc
              | None => match List.find isReadme docs with
                        | Some doc => Some doc
                        | None => head docs
                        end
              end).
    { destruct docs; destruct Hsl as [-> | ->]; reflexivity. }
    rewrite Hdef. repeat split.
    + intros (x & Hx & Hw).
      destruct (find_is_Some isWelcome docs) as [d Hd].
      { exists x. split; [exact Hx|]. by apply String.eqb_eq. }
      exists d. rewrite Hd. split; [reflexivity|].
      pose proof (find_firstWith _ _ _ Hd) as Hf. split; [exact Hf|].
      destruct Hf as (? & ? & _ & Hwd & _). by apply String.eqb_eq.
    + intros Hno (x & Hx & Hr).
      rewrite (find_is_None isWelcome docs).
      2:{ intros (y & Hy & Hwy). apply Hno. exists y. split; [exact Hy|].
          by apply String.eqb_eq. }
      destruct (find_is_Some isReadme docs) as [d Hd]; [by exists x|].
      exists d. rewrite Hd. split; [reflexivity|]. by apply find_firstWith.
    + intros Hno Hnr.
      rewrite (find_is_None isWelcome docs).
      2:{ intros (y & Hy & Hwy). apply Hno. exists y. split; [exact Hy|].
          by apply String.eqb_eq. }
      by rewrite (find_is_None isReadme docs).
    + by intros ->.
  - intros s Hs.
    assert (Hdef : findDocBySlug docs (Some s)
                   = List.find (hasSlugKey (Js.join "/" s)) docs).
    { destruct docs; [reflexivity|]. destruct s; [done|reflexivity]. }
    rewrite Hdef. split.
    + intros (x & Hx & Hk).
      destruct (find_is_Some (hasSlugKey (Js.join "/" s)) docs) as [d Hd].
      { exists x. split; [exact Hx|]. by apply String.eqb_eq. }
      exists d. split; [exact Hd|].
      pose proof (find_firstWith _ _ _ Hd) as Hf. split; [exact Hf|].
      destruct Hf as (? & ? & _ & Hkd & _). by apply String.eqb_eq.
    + intros Hno. apply find_is_None. intros (y & Hy & Hky). apply Hno.
      exists y. split; [exact Hy|]. by apply String.eqb_eq.
Qed.

Lemma findDocBySlug_contract_witness :
  (∃ d, findDocBySlug [sampleDoc "a.md" ["a"]; sampleDoc "guide/README.md" ["guide"; "README"]]
          None = Some d ∧
        firstWith isReadme
          [sampleDoc "a.md" ["a"]; sampleDoc "guide/README.md" ["guide"; "README"]] d) ∧
  findDocBySlug [sampleDoc "a.md" ["a"]; sampleDoc "guide/README.md" ["guide"; "README"]]
    (Some ["guide"]) = None.
Proof.
  split.
  - apply (proj1 (proj2 (proj1 (findDocBySlug_contract
             [sampleDoc "a.md" ["a"]; sampleDoc "guide/README.md" ["guide"; "README"]])
             None (or_introl eq_refl)))).
    + intros (x & Hx & Hw). set_unfold in Hx.
      destruct Hx as [-> | [-> | []]]; discriminate.
    + exists (sampleDoc "guide/README.md" ["guide"; "README"]).
      split; [set_solver|reflexivity].
  - apply (proj2 (proj2 (findDocBySlug_contract
             [sampleDoc "a.md" ["a"]; sampleDoc "guide/README.md" ["guide"; "README"]])
             ["guide"] ltac:(discriminate))).
    intros (x & Hx & Hk). set_unfold in Hx.
    destruct Hx as [-> | [-> | []]]; discriminate.
Defined.

(** ** The document tree *)

Example buildDocsTree_ex :
  buildDocsTree codeUnitCompare
    [sampleDoc "a.md" ["a"]; sampleDoc "sub/b.md" ["sub"; "b"];
     sampleDoc "sub/deep/c.md" ["sub"; "deep"; "c"]; sampleDoc "Zed.md" ["Zed"]]
  = [Folder "sub" "sub"
       [Folder "deep" "sub/deep" [File "c.md" "sub/deep/c.md" "sub/deep/c.md" ["sub"; "deep"; "c"] "t"];
        File "b.md" "sub/b.md" "sub/b.md" ["sub"; "b"] "t"];
     File "Zed.md" "Zed.md" "Zed.md" ["Zed"] "t";
     File "a.md" "a.md" "a.md" ["a"] "t"].
Proof. vm_compute. reflexivity. Qed.

(** *** Stable insertion sort under a consistent comparator *)

Section ArraySortFacts.
  Context {A : Type} (compareFn : A → A → Z).
  Hypothesis compare_total :
    ∀ a b, notAfter compareFn a b = true ∨ notAfter compareFn b a = true.
  Hypothesis compare_trans :
    ∀ a b c, notAfter compareFn a b = true → notAfter compareFn b c = true →
             notAfter compareFn a c = true.

  Local Abbreviation ins := (insertSorted compareFn).
  Local Abbreviation sort := (arraySort compareFn).
  Local Abbreviation le := (λ a b, notAfter compareFn a b = true).

Lemma insertSorted_perm x l : Permutation (ins x l) (x :: l).
Proof.
  induction l as [|y l IH]; simpl; [reflexivity|].
  destruct (notAfter compareFn x y); [reflexivity|].
  rewrite IH. apply perm_swap.
Qed.

Lemma arraySort_perm l : Permutation (sort l) l.
Proof.
  induction l as [|x l IH]; simpl; [reflexivity|].
  rewrite insertSorted_perm. by constructor.
Qed.

Lemma insertSorted_sorted x l :
  StronglySorted le l → StronglySorted le (ins x l).
Proof.
  induction 1 as [|y l Hl IH Hy]; simpl; [by repeat constructor|].
  destruct (notAfter compareFn x y) eqn:E.
  - constructor; [by constructor|]. constructor; [exact E|].
    eapply Forall_impl; [exact Hy|]. intros z Hz. by eapply compare_trans.
  - constructor; [exact IH|].
    rewrite (insertSorted_perm x l). constructor; [|exact Hy].
    by destruct (compare_total x y) as [H|H]; [rewrite H in E|].
Qed.

Lemma arraySort_sorted l : StronglySorted le (sort l).
Proof.
  induction l as [|x l IH]; simpl; [constructor|]. by apply insertSorted_sorted.
Qed.

Lemma arraySort_fixed l : StronglySorted le l → sort l = l.
Proof.
  induction 1 as [|x l Hl IH Hx]; [reflexivity|].
  cbn [arraySort foldr]. fold (sort l). rewrite IH.
  destruct l as [|y l]; [reflexivity|]. simpl.
  inversion Hx as [|? ? Hxy _]; subst. by rewrite Hxy.
Qed.

Lemma insertSorted_comm t a l :
  notAfter compareFn a t = false → ins t (ins a l) = ins a (ins t l).
Proof.
  intros Hat.
  assert (Hta : notAfter compareFn t a = true).
  { by destruct (compare_total a t) as [H|H]; [rewrite H in Hat|]. }
  induction l as [|x l IH]; simpl.
  - by rewrite Hta, Hat.
  - destruct (notAfter compareFn a x) eqn:Eax, (notAfter compareFn t x) eqn:Etx; simpl.
    + by rewrite Hta, Hat, Eax.
    + by rewrite (compare_trans t a x Hta Eax) in Etx.
    + by rewrite Etx, Hat, Eax.
    + by rewrite Etx, Eax, IH.
Qed.

Lemma foldr_insertSorted_insert base a l :
  foldr ins base (ins a l) = ins a (foldr ins base l).
Proof.
  induction l as [|t l IH]; simpl; [reflexivity|].
  destruct (notAfter compareFn a t) eqn:E; simpl; [reflexivity|].
  rewrite IH. by apply insertSorted_comm.
Qed.

Lemma foldr_insertSorted_sort base l :
  foldr ins base (sort l) = foldr ins base l.
Proof.
  induction l as [|a l IH]; simpl; [reflexivity|].
  by rewrite foldr_insertSorted_insert, IH.
Qed.

Lemma arraySort_app l r : sort (l ++ r) = foldr ins (sort r) l.
Proof. unfold arraySort. by rewrite foldr_app. Qed.

Lemma arraySort_absorb l r : sort (sort l ++ r) = sort (l ++ r).
Proof. by rewrite !arraySort_app, foldr_insertSorted_sort. Qed.

Lemma arraySort_idem l : sort (sort l) = sort l.
Proof. apply arraySort_fixed, arraySort_sorted. Qed.

Lemma arraySort_swap_last l a b :
  notAfter compareFn a b = false ∨ notAfter compareFn b a = false →
  sort (l ++ [a; b]) = sort (l ++ [b; a]).
Proof.
  intros H. rewrite !arraySort_app. f_equal. simpl.
  destruct H as [H|H].
  - rewrite H. by destruct (compare_total a b) as [H'|H']; [rewrite H' in H|rewrite H'].
  - rewrite H. by destruct (compare_total a b) as [H'|H']; [rewrite H'|rewrite H' in H].
Qed.

Lemma insertSorted_map (g : A → A) x l :
  (∀ a b, notAfter compareFn (g a) (g b) = notAfter compareFn a b) →
  ins (g x) (g <$> l) = g <$> ins x l.
Proof.
  intros Hg. induction l as [|y l IH]; [reflexivity|].
  cbn [fmap list_fmap insertSorted]. rewrite Hg.
  destruct (notAfter compareFn x y); [reflexivity|].
  cbn [fmap list_fmap] in *. by rewrite IH.
Qed.

Lemma arraySort_map (g : A → A) l :
  (∀ a b, notAfter compareFn (g a) (g b) = notAfter compareFn a b) →
  sort (g <$> l) = g <$> sort l.
Proof.
  intros Hg. induction l as [|x l IH]; [reflexivity|].
  unfold arraySort in *. cbn [fmap list_fmap foldr] in *. rewrite IH.
  by apply insertSorted_map.
Qed.

End ArraySortFacts.

Lemma foldr_and_Forall {A} (Q : A → Prop) l :
  foldr (λ c acc, Q c ∧ acc) True l ↔ Forall Q l.
Proof.
  induction l as [|x l IH]; simpl.
  - split; [constructor|done].
  - rewrite IH. split; [intros []; by constructor|by inversion 1].
Qed.

Lemma everyLevel_Forall P forest :
  everyLevel P forest ↔ P forest ∧ Forall (nodeLevels P) forest.
Proof. unfold everyLevel. by rewrite foldr_and_Forall. Qed.

Lemma nodeLevels_Folder P name key children :
  nodeLevels P (Folder name key children) ↔ everyLevel P children.
Proof. reflexivity. Qed.

Lemma DocTreeNode_nested_ind (P : DocTreeNode → Prop) :
  (∀ name key children, Forall P children → P (Folder name key children)) →
  (∀ name key relPath slug title, P (File name key relPath slug title)) →
  ∀ n, P n.
Proof.
  intros Hfolder Hfile.
  fix IH 1. intros [name key children|name key relPath slug title].
  - apply Hfolder. induction children as [|c children IHc]; constructor.
    + apply IH.
    + exact IHc.
  - apply Hfile.
Qed.

Lemma StronglySorted_lookup {A} (R : A → A → Prop) l i j a b :
  StronglySorted R l → i < j → l !! i = Some a → l !! j = Some b → R a b.
Proof.
  intros Hl. revert i j. induction Hl as [|x l Hl IH Hx]; intros i j Hij Hi Hj.
  - by rewrite lookup_nil in Hi.
  - destruct j as [|j]; [lia|]. rewrite lookup_cons in Hj.
    destruct i as [|i]; simpl in Hi.
    + injection Hi as ->. rewrite Forall_forall in Hx. apply Hx.
      by eapply list_elem_of_lookup_2.
    + eapply IH; [|exact Hi|exact Hj]. lia.
Qed.

Section TreeOrder.
  Variable localeCompare : string → string → Z.
  (** The comparison is consistent: swapping the arguments flips the sign,
      and [≤] composes. *)
  Hypothesis locale_sym :
    ∀ a b, Z.sgn (localeCompare b a) = (- Z.sgn (localeCompare a b))%Z.
  Hypothesis locale_trans :
    ∀ a b c, (localeCompare a b ≤ 0)%Z → (localeCompare b c ≤ 0)%Z →
             (localeCompare a c ≤ 0)%Z.

  Local Abbreviation cmp := (compareNodes localeCompare).
  Local Abbreviation nodeLe := (λ a b, notAfter cmp a b = true).

Lemma compareNodes_total a b : notAfter cmp a b = true ∨ notAfter cmp b a = true.
Proof.
  unfold notAfter, compareNodes. rewrite !Z.leb_le.
  pose proof (locale_sym (nodeName a) (nodeName b)).
  destruct (isFolder a), (isFolder b); simpl; lia.
Qed.

Lemma compareNodes_trans a b c :
  notAfter cmp a b = true → notAfter cmp b c = true → notAfter cmp a c = true.
Proof.
  unfold notAfter, compareNodes. rewrite !Z.leb_le.
  pose proof (locale_trans (nodeName a) (nodeName b) (nodeName c)).
  destruct (isFolder a), (isFolder b), (isFolder c); simpl; lia.
Qed.

Lemma sortNode_isFolder n : isFolder (sortNode localeCompare n) = isFolder n.
Proof. by destruct n. Qed.

Lemma sortNode_nodeName n : nodeName (sortNode localeCompare n) = nodeName n.
Proof. by destruct n. Qed.

Lemma sortNode_notAfter a b :
  notAfter cmp (sortNode localeCompare a) (sortNode localeCompare b) = notAfter cmp a b.
Proof.
  unfold notAfter, compareNodes.
  by rewrite !sortNode_isFolder, !sortNode_nodeName.
Qed.

(** The order of the source: sort the list, then descend. *)
Lemma sortTree_sort_first nodes :
  sortTree localeCompare nodes = sortNode localeCompare <$> arraySort cmp nodes.
Proof. apply arraySort_map, sortNode_notAfter. Qed.

Lemma nodeLe_siblingsOrdered l :
  StronglySorted nodeLe l → siblingsOrdered localeCompare l.
Proof.
  intros Hl i j a b Hij Hi Hj.
  pose proof (StronglySorted_lookup _ _ _ _ _ _ Hl Hij Hi Hj) as Hab.
  cbv beta in Hab. unfold notAfter, compareNodes in Hab. apply Z.leb_le in Hab.
  destruct (isFolder a), (isFolder b); simpl in *; split; (done || lia).
Qed.

Lemma sortNode_levels n :
  nodeLevels (siblingsOrdered localeCompare) (sortNode localeCompare n).
Proof.
  induction n as [name key children IH|] using DocTreeNode_nested_ind; [|exact I].
  cbn [sortNode]. apply nodeLevels_Folder, everyLevel_Forall. split.
  - apply nodeLe_siblingsOrdered, arraySort_sorted;
      [apply compareNodes_total|apply compareNodes_trans].
  - rewrite (arraySort_perm cmp). by apply Forall_fmap.
Qed.

Lemma sortTree_levels nodes :
  everyLevel (siblingsOrdered localeCompare) (sortTree localeCompare nodes).
Proof.
  apply everyLevel_Forall. split.
  - apply nodeLe_siblingsOrdered, arraySort_sorted;
      [apply compareNodes_total|apply compareNodes_trans].
  - unfold sortTree. rewrite (arraySort_perm cmp). apply Forall_fmap, Forall_forall.
    intros n _. apply sortNode_levels.
Qed.

Lemma folderNames_app l r : folderNames (l ++ r) = folderNames l ++ folderNames r.
Proof. apply omap_app. Qed.

Lemma existsb_isFolderNamed seg l :
  existsb (isFolderNamed seg) l = true ↔ seg ∈ folderNames l.
Proof.
  unfold folderNames. rewrite existsb_exists, list_elem_of_omap.
  split; intros (n & Hn & Hseg); exists n.
  - apply list_elem_of_In in Hn. split; [exact Hn|].
    unfold isFolderNamed in Hseg. apply andb_true_iff in Hseg as [-> Heq].
    by apply String.eqb_eq in Heq as ->.
  - rewrite list_elem_of_In in Hn. split; [exact Hn|].
    unfold isFolderNamed. destruct (isFolder n); [|discriminate].
    injection Hseg as ->. apply String.eqb_refl.
Qed.

Lemma existsb_isFolderNamed_false seg l :
  existsb (isFolderNamed seg) l = false ↔ seg ∉ folderNames l.
Proof.
  rewrite <- existsb_isFolderNamed. by destruct (existsb _ l).
Qed.

Lemma folderNames_inFirstFolder seg f l :
  folderNames (inFirstFolder seg f l) = folderNames l.
Proof.
  induction l as [|n l IH]; [reflexivity|].
  destruct n as [name key c|]; cbn [inFirstFolder].
  - destruct (String.eqb name seg); [reflexivity|].
    unfold folderNames in *. cbn [omap list_omap isFolder nodeName]. by rewrite IH.
  - unfold folderNames in *. cbn [omap list_omap isFolder]. exact IH.
Qed.

Lemma onFolder_absent seg f l :
  seg ∉ folderNames l → onFolder seg f <$> l = l.
Proof.
  induction l as [|n l IH]; [reflexivity|]. intros Hnot.
  cbn [fmap list_fmap]. destruct n as [name key c|].
  - unfold folderNames in Hnot. cbn [omap list_omap isFolder nodeName] in Hnot.
    apply not_elem_of_cons in Hnot as [Hne Hnot].
    cbn [onFolder]. destruct (String.eqb_spec name seg) as [->|_]; [done|].
    f_equal. by apply IH.
  - cbn [onFolder]. f_equal. by apply IH.
Qed.

Lemma inFirstFolder_fmap seg f l :
  NoDup (folderNames l) → inFirstFolder seg f l = onFolder seg f <$> l.
Proof.
  induction l as [|n l IH]; [reflexivity|]. intros Hnd.
  cbn [fmap list_fmap]. destruct n as [name key c|]; cbn [inFirstFolder onFolder].
  - unfold folderNames in Hnd. cbn [omap list_omap isFolder nodeName] in Hnd.
    apply NoDup_cons in Hnd as [Hname Hnd].
    destruct (String.eqb_spec name seg) as [->|_].
    + f_equal. symmetry. by apply onFolder_absent.
    + f_equal. by apply IH.
  - f_equal. by apply IH.
Qed.

Lemma folderNames_fmap_sortNode l :
  folderNames (sortNode localeCompare <$> l) = folderNames l.
Proof.
  unfold folderNames. induction l as [|n l IH]; [reflexivity|].
  cbn [fmap list_fmap omap list_omap].
  rewrite sortNode_isFolder, sortNode_nodeName.
  destruct (isFolder n); [f_equal|]; exact IH.
Qed.

Lemma folderNames_sortTree l :
  Permutation (folderNames (sortTree localeCompare l)) (folderNames l).
Proof.
  unfold sortTree. rewrite <- (folderNames_fmap_sortNode l).
  unfold folderNames. apply omap_Permutation, arraySort_perm.
Qed.

Lemma existsb_isFolderNamed_sortTree seg l :
  existsb (isFolderNamed seg) (sortTree localeCompare l)
  = existsb (isFolderNamed seg) l.
Proof.
  apply eq_true_iff_eq. rewrite !existsb_isFolderNamed.
  by rewrite (folderNames_sortTree l).
Qed.

Lemma sortNode_idem n :
  sortNode localeCompare (sortNode localeCompare n) = sortNode localeCompare n.
Proof.
  induction n as [name key children IH|] using DocTreeNode_nested_ind; [|reflexivity].
  cbn [sortNode]. f_equal.
  rewrite <- (arraySort_map cmp (sortNode localeCompare)) by apply sortNode_notAfter.
  rewrite <- list_fmap_compose.
  rewrite (Forall_fmap_ext_1 _ (sortNode localeCompare) children) by exact IH.
  apply arraySort_idem; [apply compareNodes_total|apply compareNodes_trans].
Qed.

Lemma fmap_sortNode_sortTree l :
  sortNode localeCompare <$> sortTree localeCompare l = sortTree localeCompare l.
Proof.
  unfold sortTree.
  rewrite <- (arraySort_map cmp (sortNode localeCompare)) by apply sortNode_notAfter.
  rewrite <- list_fmap_compose.
  by rewrite (list_fmap_ext _ (sortNode localeCompare) l)
    by (intros; apply sortNode_idem).
Qed.

Lemma sortTree_idem l :
  sortTree localeCompare (sortTree localeCompare l) = sortTree localeCompare l.
Proof.
  unfold sortTree at 1. rewrite fmap_sortNode_sortTree.
  apply arraySort_idem; [apply compareNodes_total|apply compareNodes_trans].
Qed.

Lemma sortTree_absorb_app l r :
  sortTree localeCompare (sortTree localeCompare l ++ r) = sortTree localeCompare (l ++ r).
Proof.
  unfold sortTree at 1. rewrite fmap_app, fmap_sortNode_sortTree.
  unfold sortTree. rewrite fmap_app.
  apply arraySort_absorb; [apply compareNodes_total|apply compareNodes_trans].
Qed.

Lemma onFolder_isFolder seg f n : isFolder (onFolder seg f n) = isFolder n.
Proof. destruct n as [name ? ?|]; [|reflexivity]. simpl. by destruct (String.eqb name seg). Qed.

Lemma onFolder_nodeName seg f n : nodeName (onFolder seg f n) = nodeName n.
Proof. destruct n as [name ? ?|]; [|reflexivity]. simpl. by destruct (String.eqb name seg). Qed.

Lemma Forall_inFirstFolder (Q : DocTreeNode → Prop) seg f l :
  Forall Q l →
  (∀ name key c, Q (Folder name key c) → Q (Folder name key (f c))) →
  Forall Q (inFirstFolder seg f l).
Proof.
  intros Hl Hf. induction Hl as [|n l Hn Hl IH]; [constructor|].
  destruct n as [name key c|]; cbn [inFirstFolder].
  - destruct (String.eqb name seg); constructor; auto.
  - constructor; auto.
Qed.

Lemma uniqueFolders_nil : uniqueFolders [].
Proof. split; [constructor|exact I]. Qed.

Lemma uniqueFolders_insertDoc segs : ∀ acc file F,
  isFolder file = false → uniqueFolders F →
  uniqueFolders (insertDoc segs acc file F).
Proof.
  induction segs as [|seg rest IH]; intros acc file F Hfile HF;
    apply everyLevel_Forall in HF as [Htop Hsub]; cbn [insertDoc].
  - apply everyLevel_Forall. split.
    + rewrite folderNames_app. unfold folderNames at 2. cbn [omap list_omap].
      rewrite Hfile. by rewrite app_nil_r.
    + apply Forall_app. split; [exact Hsub|]. constructor; [|constructor].
      by destruct file.
  - destruct (existsb (isFolderNamed seg) F) eqn:E.
    + apply everyLevel_Forall. split.
      * by rewrite folderNames_inFirstFolder.
      * apply Forall_inFirstFolder; [exact Hsub|].
        intros name key c Hc. apply nodeLevels_Folder. apply IH; [exact Hfile|].
        exact Hc.
    + apply existsb_isFolderNamed_false in E.
      apply everyLevel_Forall. split.
      * rewrite folderNames_app. unfold folderNames at 2.
        cbn [omap list_omap isFolder nodeName].
        apply NoDup_app. split; [exact Htop|]. split; [|apply NoDup_singleton].
        intros x Hx ->%list_elem_of_singleton. done.
      * apply Forall_app. split; [exact Hsub|]. constructor; [|constructor].
        apply nodeLevels_Folder. apply IH; [exact Hfile|apply uniqueFolders_nil].
Qed.

(** Sorting a forest before a document is added does not change the sorted
    result. *)
Lemma sortTree_insertDoc_absorb segs : ∀ acc file F,
  uniqueFolders F →
  sortTree localeCompare (insertDoc segs acc file F)
  = sortTree localeCompare (insertDoc segs acc file (sortTree localeCompare F)).
Proof.
  induction segs as [|seg rest IH]; intros acc file F HF; cbn [insertDoc].
  - by rewrite sortTree_absorb_app.
  - rewrite existsb_isFolderNamed_sortTree.
    destruct (existsb (isFolderNamed seg) F) eqn:E;
      [|by rewrite sortTree_absorb_app].
    apply everyLevel_Forall in HF as [Htop Hsub].
    set (g := insertDoc rest
                (if Js.isEmpty acc then seg else acc +:+ "/" +:+ seg) file).
    rewrite !inFirstFolder_fmap;
      [|by rewrite (folderNames_sortTree F)|exact Htop].
    set (h := λ n, sortNode localeCompare (onFolder seg g n)).
    assert (Hh : ∀ a b, notAfter cmp (h a) (h b) = notAfter cmp a b).
    { intros a b. unfold h. rewrite sortNode_notAfter. unfold notAfter, compareNodes.
      by rewrite !onFolder_isFolder, !onFolder_nodeName. }
    unfold sortTree. rewrite <- !list_fmap_compose.
    change (sortNode localeCompare ∘ onFolder seg g) with h.
    rewrite <- (arraySort_map cmp h) by exact Hh.
    rewrite arraySort_idem by (apply compareNodes_total || apply compareNodes_trans).
    rewrite <- list_fmap_compose. f_equal.
    apply Forall_fmap_ext_1. eapply Forall_impl; [exact Hsub|].
    intros [name key c|] Hn; unfold h; cbn [compose sortNode onFolder].
    + destruct (String.eqb name seg); cbn [sortNode].
      * f_equal. fold (sortTree localeCompare c).
        fold (sortTree localeCompare (g c)).
        fold (sortTree localeCompare (g (sortTree localeCompare c))).
        apply IH. exact Hn.
      * f_equal. fold (sortTree localeCompare c).
        fold (sortTree localeCompare (sortTree localeCompare c)).
        symmetry. apply sortTree_idem.
    + reflexivity.
Qed.

Lemma sortTree_insertDoc_congr segs acc file F F' :
  uniqueFolders F → uniqueFolders F' →
  sortTree localeCompare F = sortTree localeCompare F' →
  sortTree localeCompare (insertDoc segs acc file F)
  = sortTree localeCompare (insertDoc segs acc file F').
Proof.
  intros HF HF' Heq.
  by rewrite (sortTree_insertDoc_absorb segs acc file F HF),
             (sortTree_insertDoc_absorb segs acc file F' HF'), Heq.
Qed.

Lemma existsb_isFolderNamed_inFirstFolder seg seg' f l :
  existsb (isFolderNamed seg) (inFirstFolder seg' f l)
  = existsb (isFolderNamed seg) l.
Proof.
  apply eq_true_iff_eq. by rewrite !existsb_isFolderNamed, folderNames_inFirstFolder.
Qed.

Lemma inFirstFolder_app_found seg f l r :
  existsb (isFolderNamed seg) l = true →
  inFirstFolder seg f (l ++ r) = inFirstFolder seg f l ++ r.
Proof.
  induction l as [|n l IH]; [discriminate|].
  destruct n as [name key c|]; cbn [existsb isFolderNamed isFolder nodeName andb
                                     inFirstFolder app].
  - destruct (String.eqb name seg); [reflexivity|]. cbn [orb].
    intros H. by rewrite IH.
  - intros H. by rewrite IH.
Qed.

Lemma inFirstFolder_app_absent seg f l r :
  existsb (isFolderNamed seg) l = false →
  inFirstFolder seg f (l ++ r) = l ++ inFirstFolder seg f r.
Proof.
  induction l as [|n l IH]; [reflexivity|].
  destruct n as [name key c|]; cbn [existsb isFolderNamed isFolder nodeName andb
                                     inFirstFolder app].
  - destruct (String.eqb name seg); [discriminate|]. cbn [orb].
    intros H. by rewrite IH.
  - intros H. by rewrite IH.
Qed.

Lemma inFirstFolder_compose seg f g l :
  inFirstFolder seg f (inFirstFolder seg g l) = inFirstFolder seg (f ∘ g) l.
Proof.
  induction l as [|n l IH]; [reflexivity|].
  destruct n as [name key c|]; cbn [inFirstFolder].
  - destruct (String.eqb name seg) eqn:E; cbn [inFirstFolder]; rewrite E;
      [reflexivity|by rewrite IH].
  - by rewrite IH.
Qed.

Lemma inFirstFolder_comm seg1 seg2 f g l :
  seg1 ≠ seg2 →
  inFirstFolder seg1 f (inFirstFolder seg2 g l)
  = inFirstFolder seg2 g (inFirstFolder seg1 f l).
Proof.
  intros Hne. induction l as [|n l IH]; [reflexivity|].
  destruct n as [name key c|]; cbn [inFirstFolder]; [|by rewrite IH].
  destruct (String.eqb name seg1) eqn:E1, (String.eqb name seg2) eqn:E2;
    cbn [inFirstFolder]; rewrite ?E1, ?E2; try reflexivity.
  - apply String.eqb_eq in E1, E2. congruence.
  - by rewrite IH.
Qed.

Lemma sortTree_inFirstFolder_ext seg f f' l :
  (∀ c, sortTree localeCompare (f c) = sortTree localeCompare (f' c)) →
  sortTree localeCompare (inFirstFolder seg f l)
  = sortTree localeCompare (inFirstFolder seg f' l).
Proof.
  intros Hf. unfold sortTree. f_equal.
  induction l as [|n l IH]; [reflexivity|].
  destruct n as [name key c|]; cbn [inFirstFolder].
  - destruct (String.eqb name seg); cbn [fmap list_fmap sortNode].
    + f_equal. f_equal. apply Hf.
    + f_equal. apply IH.
  - cbn [fmap list_fmap]. f_equal. apply IH.
Qed.

Lemma sortTree_snoc_folder_ext l name key c c' :
  sortTree localeCompare c = sortTree localeCompare c' →
  sortTree localeCompare (l ++ [Folder name key c])
  = sortTree localeCompare (l ++ [Folder name key c']).
Proof.
  intros Hc. unfold sortTree in *. rewrite !fmap_app. cbn [fmap list_fmap sortNode].
  by rewrite Hc.
Qed.

  (** From here on the comparison has no ties: distinct names never compare
      as equal.  [localeCompare] has ties; the lemmas below are used with
      [tieBreak localeCompare], which has none. *)
  Hypothesis locale_tie : ∀ a b, localeCompare a b = 0%Z → a = b.

Lemma compareNodes_apart a b :
  ¬ sameSortKey a b →
  notAfter cmp a b = false ∨ notAfter cmp b a = false.
Proof.
  unfold sameSortKey, notAfter, compareNodes. rewrite !Z.leb_gt. intros Hk.
  pose proof (locale_sym (nodeName a) (nodeName b)) as Hsym.
  pose proof (locale_tie (nodeName a) (nodeName b)) as Htie.
  destruct (isFolder a), (isFolder b); simpl; try lia.
  - destruct (Z.eq_dec (localeCompare (nodeName a) (nodeName b)) 0%Z) as [H0|H0];
      [destruct Hk; auto|lia].
  - destruct (Z.eq_dec (localeCompare (nodeName a) (nodeName b)) 0%Z) as [H0|H0];
      [destruct Hk; auto|lia].
Qed.

Lemma sortTree_swap_last l a b :
  ¬ sameSortKey a b →
  sortTree localeCompare (l ++ [a; b]) = sortTree localeCompare (l ++ [b; a]).
Proof.
  intros Hk. unfold sortTree. rewrite !fmap_app. cbn [fmap list_fmap].
  apply arraySort_swap_last; [apply compareNodes_total|].
  rewrite !sortNode_notAfter. by apply compareNodes_apart.
Qed.

Lemma isFolderNamed_file seg n : isFolder n = false → isFolderNamed seg n = false.
Proof. unfold isFolderNamed. by intros ->. Qed.

(** Adding two documents in either order gives the same sorted forest,
    unless they are files of one name in one folder. *)
Lemma sortTree_insertDoc_comm segs1 : ∀ segs2 acc f1 f2 F,
  isFolder f1 = false → isFolder f2 = false →
  (segs1 = segs2 → nodeName f1 ≠ nodeName f2) →
  sortTree localeCompare (insertDoc segs1 acc f1 (insertDoc segs2 acc f2 F))
  = sortTree localeCompare (insertDoc segs2 acc f2 (insertDoc segs1 acc f1 F)).
Proof.
  induction segs1 as [|s1 r1 IH]; intros [|s2 r2] acc f1 f2 F Hf1 Hf2 Hne.
  - cbn [insertDoc]. rewrite <- !app_assoc. cbn [app].
    apply sortTree_swap_last. intros [_ Hn]. by apply Hne.
  - cbn [insertDoc]. rewrite existsb_app. cbn [existsb].
    rewrite (isFolderNamed_file s2 f1 Hf1), !orb_false_r.
    destruct (existsb (isFolderNamed s2) F) eqn:E.
    + by rewrite inFirstFolder_app_found.
    + rewrite <- !app_assoc. cbn [app]. apply sortTree_swap_last.
      intros [Hk _]. cbn in Hk. congruence.
  - cbn [insertDoc]. rewrite existsb_app. cbn [existsb].
    rewrite (isFolderNamed_file s1 f2 Hf2), !orb_false_r.
    destruct (existsb (isFolderNamed s1) F) eqn:E.
    + by rewrite inFirstFolder_app_found.
    + rewrite <- !app_assoc. cbn [app]. apply sortTree_swap_last.
      intros [Hk _]. cbn in Hk. congruence.
  - cbn [insertDoc].
    set (acc1 := if Js.isEmpty acc then s1 else acc +:+ "/" +:+ s1).
    set (acc2 := if Js.isEmpty acc then s2 else acc +:+ "/" +:+ s2).
    destruct (String.eqb_spec s1 s2) as [Heq|Hs].
    + subst s2. subst acc2. fold acc1.
      destruct (existsb (isFolderNamed s1) F) eqn:E.
      * rewrite !existsb_isFolderNamed_inFirstFolder, E, !inFirstFolder_compose.
        apply sortTree_inFirstFolder_ext. intros c. cbn [compose].
        apply IH; [exact Hf1|exact Hf2|]. intros ->. by apply Hne.
      * rewrite !existsb_app, E. cbn [existsb isFolderNamed isFolder nodeName andb orb].
        rewrite String.eqb_refl. cbn [orb].
        rewrite !inFirstFolder_app_absent by exact E. cbn [inFirstFolder].
        rewrite String.eqb_refl. apply sortTree_snoc_folder_ext.
        apply IH; [exact Hf1|exact Hf2|]. intros ->. by apply Hne.
    + assert (String.eqb s2 s1 = false) as Hs21 by (apply String.eqb_neq; congruence).
      assert (String.eqb s1 s2 = false) as Hs12 by (by apply String.eqb_neq).
      destruct (existsb (isFolderNamed s1) F) eqn:E1,
               (existsb (isFolderNamed s2) F) eqn:E2;
        rewrite ?existsb_isFolderNamed_inFirstFolder, ?existsb_app, ?E1, ?E2;
        cbn [existsb isFolderNamed isFolder nodeName andb orb];
        rewrite ?Hs21, ?Hs12; cbn [orb].
      * by rewrite inFirstFolder_comm.
      * by rewrite inFirstFolder_app_found.
      * by rewrite inFirstFolder_app_found.
      * rewrite <- !app_assoc. cbn [app]. apply sortTree_swap_last.
        intros [_ Hk]. cbn in Hk. congruence.
Qed.

Lemma join_split s : Js.join "/" (Js.split "/" s) = s.
Proof.
  induction s as [|c s IH]; [reflexivity|]. cbn [Js.split].
  pose proof (split_nonempty "/" s) as Hne.
  destruct (Js.split "/" s) as [|w ws]; [done|].
  destruct (Ascii.eqb_spec c "/") as [->|_].
  - change (Js.join "/" ("" :: w :: ws)) with ("/" +:+ Js.join "/" (w :: ws)).
    by rewrite IH.
  - destruct ws as [|w' ws].
    + cbn [Js.join] in *. by rewrite IH.
    + change (Js.join "/" (String c w :: w' :: ws))
        with (String c (w +:+ "/" +:+ Js.join "/" (w' :: ws))).
      change (Js.join "/" (w :: w' :: ws))
        with (w +:+ "/" +:+ Js.join "/" (w' :: ws)) in IH.
      by rewrite IH.
Qed.

Lemma docPath_inj (d1 d2 : DocRecord) :
  stripLast (Js.split "/" (relPath d1)) = stripLast (Js.split "/" (relPath d2)) →
  nodeName (fileNode d1) = nodeName (fileNode d2) →
  relPath d1 = relPath d2.
Proof.
  unfold stripLast, fileNode. cbn [nodeName]. intros Hdir Hname.
  rewrite <- (join_split (relPath d1)), <- (join_split (relPath d2)). f_equal.
  rewrite (app_removelast_last (title d1) (split_nonempty "/" (relPath d1))).
  rewrite (app_removelast_last (title d2) (split_nonempty "/" (relPath d2))).
  by rewrite Hdir, Hname.
Qed.

Lemma uniqueFolders_addDoc F d :
  uniqueFolders F → uniqueFolders (addDoc F d).
Proof. intros HF. by apply uniqueFolders_insertDoc. Qed.

Lemma sortTree_addDoc_congr F F' d :
  uniqueFolders F → uniqueFolders F' →
  sortTree localeCompare F = sortTree localeCompare F' →
  sortTree localeCompare (addDoc F d) = sortTree localeCompare (addDoc F' d).
Proof. apply sortTree_insertDoc_congr. Qed.

Lemma addDoc_same_node F d1 d2 :
  relPath d1 = relPath d2 → slug d1 = slug d2 → title d1 = title d2 →
  addDoc F d1 = addDoc F d2.
Proof. unfold addDoc, fileNode. by intros -> -> ->. Qed.

Lemma sortTree_addDoc_comm F d1 d2 :
  (relPath d1 = relPath d2 → slug d1 = slug d2 ∧ title d1 = title d2) →
  sortTree localeCompare (addDoc (addDoc F d2) d1)
  = sortTree localeCompare (addDoc (addDoc F d1) d2).
Proof.
  intros Hkey. destruct (decide (relPath d1 = relPath d2)) as [Heq|Hne].
  - destruct (Hkey Heq) as [Hslug Htitle].
    rewrite (addDoc_same_node (addDoc F d2) d1 d2 Heq Hslug Htitle).
    by rewrite (addDoc_same_node F d1 d2 Heq Hslug Htitle).
  - unfold addDoc. apply sortTree_insertDoc_comm; [reflexivity..|].
    intros Hdir Hname. by apply Hne, docPath_inj.
Qed.

Lemma relPathIsKey_cons d docs : relPathIsKey (d :: docs) → relPathIsKey docs.
Proof. intros Hk d1 d2 H1 H2. apply Hk; by apply list_elem_of_further. Qed.

Lemma relPathIsKey_perm docs docs' :
  Permutation docs docs' → relPathIsKey docs → relPathIsKey docs'.
Proof. intros Hp Hk d1 d2 H1 H2. apply Hk; by rewrite Hp. Qed.

Lemma sortTree_foldl_addDoc docs docs' :
  Permutation docs docs' →
  relPathIsKey docs →
  ∀ F F', uniqueFolders F → uniqueFolders F' →
    sortTree localeCompare F = sortTree localeCompare F' →
    sortTree localeCompare (foldl addDoc F docs)
    = sortTree localeCompare (foldl addDoc F' docs').
Proof.
  induction 1 as [|x l l' Hp IH|x y l l' Hp IH|l l' l'' Hp1 IH1 Hp2 IH2]
    using Permutation_ind_bis; intros Hkey F F' HF HF' Heq.
  - exact Heq.
  - cbn [foldl]. apply IH; [by eapply relPathIsKey_cons|
                             by apply uniqueFolders_addDoc..|].
    by apply sortTree_addDoc_congr.
  - cbn [foldl].
    apply IH; [by do 2 eapply relPathIsKey_cons|
               by do 2 apply uniqueFolders_addDoc..|].
    rewrite (sortTree_addDoc_comm F x y).
    2:{ apply Hkey; [apply list_elem_of_further|]; apply list_elem_of_here. }
    apply sortTree_addDoc_congr; [by apply uniqueFolders_addDoc..|].
    by apply sortTree_addDoc_congr.
  - rewrite (IH1 Hkey F F HF HF eq_refl).
    apply IH2; [|exact HF|exact HF'|exact Heq].
    by eapply relPathIsKey_perm.
Qed.

Lemma NoDup_relPathIsKey docs : NoDup (relPath <$> docs) → relPathIsKey docs.
Proof.
  intros Hnd d1 d2 H1 H2 Heq.
  apply list_elem_of_lookup in H1 as [i Hi], H2 as [j Hj].
  assert (i = j) as ->.
  { eapply NoDup_lookup; [exact Hnd|..]; rewrite list_lookup_fmap.
    - by rewrite Hi.
    - rewrite Hj. simpl. by rewrite Heq. }
  rewrite Hi in Hj. by injection Hj as ->.
Qed.

End TreeOrder.

(** *** The code-unit order is a consistent, tie-free comparison *)

Lemma codeUnitCompare_sym a b :
  Z.sgn (codeUnitCompare b a) = (- Z.sgn (codeUnitCompare a b))%Z.
Proof.
  unfold codeUnitCompare. rewrite (String.compare_antisym a b).
  by destruct (String.compare b a).
Qed.

Lemma codeUnitCompare_le a b : (codeUnitCompare a b ≤ 0)%Z ↔ String.le a b.
Proof.
  unfold codeUnitCompare, String.le, String.leb.
  destruct (String.compare a b); simpl; split; (done || lia).
Qed.

Lemma codeUnitCompare_trans a b c :
  (codeUnitCompare a b ≤ 0)%Z → (codeUnitCompare b c ≤ 0)%Z →
  (codeUnitCompare a c ≤ 0)%Z.
Proof.
  rewrite !codeUnitCompare_le. intros Hab Hbc.
  exact (transitivity (R := String.le) Hab Hbc).
Qed.

Lemma codeUnitCompare_tie a b : codeUnitCompare a b = 0%Z → a = b.
Proof.
  unfold codeUnitCompare. destruct (String.compare a b) eqn:E; try discriminate.
  intros _. by apply String.compare_eq_iff in E.
Qed.

(** *** Sorting under two comparators *)

Lemma insertSorted_ext {A} (c c' : A → A → Z) x l :
  (∀ y, y ∈ l → notAfter c x y = notAfter c' x y) →
  insertSorted c x l = insertSorted c' x l.
Proof.
  induction l as [|y l IH]; intros H; [done|]. cbn [insertSorted].
  rewrite <- (H y) by apply list_elem_of_here.
  destruct (notAfter c x y); [done|]. f_equal. apply IH.
  intros z Hz. by apply H, list_elem_of_further.
Qed.

Lemma arraySort_ext {A} (c c' : A → A → Z) l :
  (∀ a b, a ∈ l → b ∈ l → notAfter c a b = notAfter c' a b) →
  arraySort c l = arraySort c' l.
Proof.
  induction l as [|x l IH]; intros H; [done|]. cbn [arraySort foldr].
  fold (arraySort c l). fold (arraySort c' l).
  rewrite IH by (intros a b Ha Hb; by apply H; apply list_elem_of_further).
  apply insertSorted_ext. intros y Hy. rewrite (arraySort_perm c' l) in Hy.
  apply H; [apply list_elem_of_here|by apply list_elem_of_further].
Qed.

Lemma namedIn_insertDoc names segs : ∀ acc file F,
  Forall (λ seg, seg ∈ names) segs → nodeName file ∈ names →
  nodeLevels (Forall (λ n, nodeName n ∈ names)) file →
  namedIn names F → namedIn names (insertDoc segs acc file F).
Proof.
  unfold namedIn.
  induction segs as [|seg rest IH]; intros acc file F Hsegs Hfile Hsub HF;
    apply everyLevel_Forall in HF as [Htop Hrec]; cbn [insertDoc].
  - apply everyLevel_Forall. split.
    + apply Forall_app. split; [exact Htop|]. by repeat constructor.
    + apply Forall_app. split; [exact Hrec|]. by repeat constructor.
  - apply Forall_cons in Hsegs as [Hseg Hrest].
    destruct (existsb (isFolderNamed seg) F).
    + apply everyLevel_Forall. split.
      * apply (Forall_inFirstFolder (λ n, nodeName n ∈ names)); [exact Htop|done].
      * apply (Forall_inFirstFolder (nodeLevels (Forall (λ n, nodeName n ∈ names))));
          [exact Hrec|].
        intros name key c Hc. apply nodeLevels_Folder. apply IH; try done.
    + apply everyLevel_Forall. split.
      * apply Forall_app. split; [exact Htop|]. by repeat constructor.
      * apply Forall_app. split; [exact Hrec|]. constructor; [|constructor].
        apply nodeLevels_Folder. apply IH; try done.
Qed.

Lemma pathNames_doc docs d seg :
  d ∈ docs → seg ∈ Js.split "/" (relPath d) → seg ∈ pathNames docs.
Proof.
  intros Hd Hseg. unfold pathNames. apply list_elem_of_In, in_concat.
  exists (Js.split "/" (relPath d)). split; [|by apply list_elem_of_In].
  apply list_elem_of_In, list_elem_of_fmap. by exists d.
Qed.

Lemma last_elem_of {A} (l : list A) d : l ≠ [] → List.last l d ∈ l.
Proof.
  induction l as [|x l IH]; [done|]. intros _. destruct l as [|y l].
  - apply list_elem_of_here.
  - apply list_elem_of_further. by apply IH.
Qed.

Lemma removelast_elem_of {A} (l : list A) x : x ∈ removelast l → x ∈ l.
Proof.
  induction l as [|y l IH]; [done|]. cbn [removelast]. destruct l as [|z l].
  - by rewrite elem_of_nil.
  - rewrite elem_of_cons. intros [->|H]; [apply list_elem_of_here|].
    apply list_elem_of_further. by apply IH.
Qed.

Lemma namedIn_addDoc names F d :
  Forall (λ seg, seg ∈ names) (Js.split "/" (relPath d)) →
  namedIn names F → namedIn names (addDoc F d).
Proof.
  intros Hd HF. rewrite Forall_forall in Hd. apply namedIn_insertDoc; [| |exact I|exact HF].
  - apply Forall_forall. intros seg Hseg. by apply Hd, removelast_elem_of.
  - cbn [fileNode nodeName]. apply Hd, last_elem_of, split_nonempty.
Qed.

Lemma namedIn_foldl_addDoc names docs : ∀ F,
  Forall (λ d, Forall (λ seg, seg ∈ names) (Js.split "/" (relPath d))) docs →
  namedIn names F → namedIn names (foldl addDoc F docs).
Proof.
  induction docs as [|d docs IH]; intros F Hdocs HF; [exact HF|].
  apply Forall_cons in Hdocs as [Hd Hdocs]. cbn [foldl].
  apply IH; [exact Hdocs|]. by apply namedIn_addDoc.
Qed.

Lemma namedIn_docs docs : namedIn (pathNames docs) (foldl addDoc [] docs).
Proof.
  apply namedIn_foldl_addDoc.
  - apply Forall_forall. intros d Hd. apply Forall_forall. intros seg Hseg.
    by eapply pathNames_doc.
  - apply everyLevel_Forall. by split; constructor.
Qed.

Lemma pathNames_Permutation docs docs' seg :
  Permutation docs docs' → seg ∈ pathNames docs → seg ∈ pathNames docs'.
Proof.
  intros Hperm. unfold pathNames. rewrite !list_elem_of_In, !in_concat.
  intros (l & Hl & Hseg). exists l. split; [|exact Hseg].
  apply list_elem_of_In. apply list_elem_of_In in Hl. by rewrite <- Hperm.
Qed.

(** *** Ties broken by code-unit order *)

Section TieBreak.
  Variable localeCompare : string → string → Z.
  Hypothesis locale_sym :
    ∀ a b, Z.sgn (localeCompare b a) = (- Z.sgn (localeCompare a b))%Z.
  Hypothesis locale_trans :
    ∀ a b c, (localeCompare a b ≤ 0)%Z → (localeCompare b c ≤ 0)%Z →
             (localeCompare a c ≤ 0)%Z.

Lemma tieBreak_sym a b :
  Z.sgn (tieBreak localeCompare b a) = (- Z.sgn (tieBreak localeCompare a b))%Z.
Proof.
  unfold tieBreak. pose proof (locale_sym a b) as Hs.
  pose proof (codeUnitCompare_sym a b) as Hc.
  destruct (Z.eqb_spec (localeCompare a b) 0), (Z.eqb_spec (localeCompare b a) 0); lia.
Qed.

Lemma tieBreak_trans a b c :
  (tieBreak localeCompare a b ≤ 0)%Z → (tieBreak localeCompare b c ≤ 0)%Z →
  (tieBreak localeCompare a c ≤ 0)%Z.
Proof.
  unfold tieBreak.
  pose proof (locale_trans a b c) as Habc.
  pose proof (locale_trans c a b) as Hcab.
  pose proof (locale_trans b c a) as Hbca.
  pose proof (locale_sym a b) as Sab. pose proof (locale_sym b c) as Sbc.
  pose proof (locale_sym a c) as Sac.
  pose proof (codeUnitCompare_trans a b c) as Hcu.
  destruct (Z.eqb_spec (localeCompare a b) 0), (Z.eqb_spec (localeCompare b c) 0),
           (Z.eqb_spec (localeCompare a c) 0); lia.
Qed.

Lemma tieBreak_tie a b : tieBreak localeCompare a b = 0%Z → a = b.
Proof.
  unfold tieBreak. destruct (Z.eqb_spec (localeCompare a b) 0); [|done].
  apply codeUnitCompare_tie.
Qed.

Lemma tieBreak_untied names a b :
  untied localeCompare names → a ∈ names → b ∈ names →
  tieBreak localeCompare a b = localeCompare a b.
Proof.
  intros Hnames Ha Hb. unfold tieBreak.
  destruct (Z.eqb_spec (localeCompare a b) 0) as [H0|]; [|done].
  rewrite H0. assert (a = b) as -> by (by apply Hnames).
  pose proof (codeUnitCompare_sym b b). lia.
Qed.

Lemma sortNode_tieBreak names n :
  untied localeCompare names →
  nodeLevels (Forall (λ n, nodeName n ∈ names)) n →
  sortNode (tieBreak localeCompare) n = sortNode localeCompare n.
Proof.
  intros Hnames.
  induction n as [name key children IH|] using DocTreeNode_nested_ind; [|done].
  intros Hn. apply nodeLevels_Folder, everyLevel_Forall in Hn as [Htop Hrec].
  cbn [sortNode]. f_equal.
  rewrite (Forall_fmap_ext_1 (sortNode (tieBreak localeCompare))
             (sortNode localeCompare) children).
  2:{ rewrite Forall_forall in IH, Hrec |- *. intros c Hc. by apply IH, Hrec. }
  apply arraySort_ext. intros a b Ha Hb.
  apply list_elem_of_fmap in Ha as (a' & -> & Ha'), Hb as (b' & -> & Hb').
  rewrite Forall_forall in Htop.
  unfold notAfter, compareNodes. rewrite !sortNode_isFolder, !sortNode_nodeName.
  by rewrite (tieBreak_untied names) by (done || by apply Htop).
Qed.

Lemma sortTree_tieBreak names forest :
  untied localeCompare names → namedIn names forest →
  sortTree (tieBreak localeCompare) forest = sortTree localeCompare forest.
Proof.
  intros Hnames Hn. apply everyLevel_Forall in Hn as [Htop Hrec]. unfold sortTree.
  rewrite (Forall_fmap_ext_1 (sortNode (tieBreak localeCompare))
             (sortNode localeCompare) forest).
  2:{ rewrite Forall_forall in Hrec |- *. intros c Hc.
      by apply (sortNode_tieBreak names), Hrec. }
  apply arraySort_ext. intros a b Ha Hb.
  apply list_elem_of_fmap in Ha as (a' & -> & Ha'), Hb as (b' & -> & Hb').
  rewrite Forall_forall in Htop.
  unfold notAfter, compareNodes. rewrite !sortNode_isFolder, !sortNode_nodeName.
  by rewrite (tieBreak_untied names) by (done || by apply Htop).
Qed.

Lemma buildDocsTree_tieBreak docs :
  untied localeCompare (pathNames docs) →
  buildDocsTree (tieBreak localeCompare) docs = buildDocsTree localeCompare docs.
Proof.
  intros Hnames. unfold buildDocsTree.
  apply (sortTree_tieBreak (pathNames docs)); [exact Hnames|apply namedIn_docs].
Qed.

(** ** C7 *)

(** C7, as amended.  For a consistent locale comparison: in the tree
    [buildDocsTree] returns, every sibling list has its folders before its
    files and the nodes of one kind in the order of the comparison of their
    names; two lists holding the same documents in any order give the same
    tree when the comparison reports no two different names on the paths of
    the documents as equal, the documents being told apart by their
    [relPath] (as they are when the [relPath]s are pairwise distinct); and
    the tree is a fixed point of [sortTree], so building (which is a
    function of the list) and sorting again give this very tree. *)
Theorem buildDocsTree_sorted_and_order_independent (docs docs' : list DocRecord) :
  everyLevel (siblingsOrdered localeCompare) (buildDocsTree localeCompare docs) ∧
  (relPathIsKey docs → untied localeCompare (pathNames docs) →
   Permutation docs docs' →
   buildDocsTree localeCompare docs = buildDocsTree localeCompare docs') ∧
  (NoDup (relPath <$> docs) → relPathIsKey docs) ∧
  sortTree localeCompare (buildDocsTree localeCompare docs)
  = buildDocsTree localeCompare docs.
Proof.
  split; [|split; [|split]].
  - by apply sortTree_levels.
  - intros Hkey Hnames Hp.
    rewrite <- (buildDocsTree_tieBreak docs Hnames).
    rewrite <- (buildDocsTree_tieBreak docs').
    2:{ intros a b Ha Hb. apply Hnames; by eapply pathNames_Permutation. }
    unfold buildDocsTree.
    apply (sortTree_foldl_addDoc (tieBreak localeCompare)
             tieBreak_sym tieBreak_trans tieBreak_tie);
      [exact Hp|exact Hkey|apply uniqueFolders_nil..|reflexivity].
  - apply NoDup_relPathIsKey.
  - by apply sortTree_idem.
Qed.

End TieBreak.

Lemma untied_codeUnitCompare names : untied codeUnitCompare names.
Proof. intros a b _ _. apply codeUnitCompare_tie. Qed.

Lemma buildDocsTree_sorted_and_order_independent_witness :
  buildDocsTree codeUnitCompare
    [sampleDoc "a.md" ["a"]; sampleDoc "sub/b.md" ["sub"; "b"]; sampleDoc "sub/a.md" ["sub"; "a"]]
  = buildDocsTree codeUnitCompare
    [sampleDoc "sub/a.md" ["sub"; "a"]; sampleDoc "a.md" ["a"]; sampleDoc "sub/b.md" ["sub"; "b"]].
Proof.
  apply (proj1 (proj2 (buildDocsTree_sorted_and_order_independent codeUnitCompare
           codeUnitCompare_sym codeUnitCompare_trans _ _))).
  - apply (proj1 (proj2 (proj2 (buildDocsTree_sorted_and_order_independent
             codeUnitCompare codeUnitCompare_sym codeUnitCompare_trans _ [])))).
    apply (bool_decide_unpack _). vm_compute. reflexivity.
  - apply untied_codeUnitCompare.
  - apply Permutation_sym, (Permutation_cons_append [_; _]).
Defined.

(** *** A comparison with ties *)

Lemma collateCompare_sym a b :
  Z.sgn (collateCompare b a) = (- Z.sgn (collateCompare a b))%Z.
Proof. apply codeUnitCompare_sym. Qed.

Lemma collateCompare_trans a b c :
  (collateCompare a b ≤ 0)%Z → (collateCompare b c ≤ 0)%Z →
  (collateCompare a c ≤ 0)%Z.
Proof. apply codeUnitCompare_trans. Qed.

(** Two files at the top whose names the comparison reports as equal stay
    in the order in which their documents come. *)
Lemma buildDocsTree_tied_pair (localeCompare : string → string → Z) (d1 d2 : DocRecord) :
  Js.indexOf "/" (relPath d1) = None → Js.indexOf "/" (relPath d2) = None →
  localeCompare (relPath d1) (relPath d2) = 0%Z →
  buildDocsTree localeCompare [d1; d2] = [fileNode d1; fileNode d2].
Proof.
  intros H1 H2 Htie. unfold buildDocsTree, sortTree, addDoc. cbn [foldl].
  rewrite (split_of_noSlash _ H1), (split_of_noSlash _ H2).
  cbn [stripLast removelast insertDoc app fmap list_fmap arraySort foldr insertSorted].
  unfold fileNode at 1 2 3. rewrite (split_of_noSlash _ H1), (split_of_noSlash _ H2).
  cbn [List.last sortNode]. unfold notAfter, compareNodes. cbn [isFolder nodeName Bool.eqb negb].
  rewrite Htie. cbn. unfold fileNode.
  by rewrite (split_of_noSlash _ H1), (split_of_noSlash _ H2).
Qed.

(** Against C7 as stated: under a consistent comparison that reports the two
    spellings of [é.md] as equal, as a collation does with canonically
    equivalent names, the two files keep the order in which their documents
    come, so two lists of the same documents give two trees. *)
Lemma buildDocsTree_keeps_order_of_tied_names :
  relPath (sampleDoc (eAcute +:+ ".md") [eAcute])
  ≠ relPath (sampleDoc ("e" +:+ combiningAcute +:+ ".md") ["e" +:+ combiningAcute]) ∧
  collateCompare (eAcute +:+ ".md") ("e" +:+ combiningAcute +:+ ".md") = 0%Z ∧
  Permutation
    [sampleDoc (eAcute +:+ ".md") [eAcute];
     sampleDoc ("e" +:+ combiningAcute +:+ ".md") ["e" +:+ combiningAcute]]
    [sampleDoc ("e" +:+ combiningAcute +:+ ".md") ["e" +:+ combiningAcute];
     sampleDoc (eAcute +:+ ".md") [eAcute]] ∧
  buildDocsTree collateCompare
    [sampleDoc (eAcute +:+ ".md") [eAcute];
     sampleDoc ("e" +:+ combiningAcute +:+ ".md") ["e" +:+ combiningAcute]]
  ≠ buildDocsTree collateCompare
      [sampleDoc ("e" +:+ combiningAcute +:+ ".md") ["e" +:+ combiningAcute];
       sampleDoc (eAcute +:+ ".md") [eAcute]].
Proof.
  split; [by vm_compute|]. split; [by vm_compute|]. split; [apply perm_swap|].
  by vm_compute.
Qed.

(** ** Titles, extensions, versions and a small snapshot *)

Example title_ex1 :
  getTitleFromContent ("intro" +:+ String newline "" +:+ "#  B Heading  "
                       +:+ String newline "" +:+ "# Other") = "B Heading".
Proof. vm_compute. reflexivity. Qed.
Example title_ex2 : getTitleFromContent "#nospace ## x" = "".
Proof. vm_compute. reflexivity. Qed.
(** A line separator (U+2028) starts a line and ends one; a no-break space
    and a line feed are white space after [#]. *)
Example title_ex3 :
  getTitleFromContent ("a" +:+ Js.bytes [226; 128; 168] +:+ "#" +:+ Js.bytes [194; 160]
                       +:+ String newline "" +:+ "Next line" +:+ Js.bytes [226; 128; 168]
                       +:+ "more") = "Next line".
Proof. vm_compute. reflexivity. Qed.

Example extname_ex :
  extname <$> ["a.md"; ".md"; "x.tar.GZ"; "noext"; ".."; "a."; ".a.mdx"]
  = [".md"; ""; ".GZ"; ""; ""; "."; ".mdx"].
Proof. vm_compute. reflexivity. Qed.

Example version_ex :
  computeDocsVersion
    [("a.md", FsFile (Qc_of_Z 5) "x");
     ("sub", FsDir [("b.md", FsFile (Qc_of_Z 9) "y"); ("c.png", FsFile (Qc_of_Z 7) "")]);
     ("z.txt", FsFile (Qc_of_Z 2) "")]
  = {| fileCount := numOfNat 4; maxMtimeMs := Fin (Qc_of_Z 9) |}.
Proof. vm_compute. reflexivity. Qed.

Example createSnapshot_ex :
  (relPath <$> docs (createSnapshot codeUnitCompare plainMatter plainRender sampleRoot),
   title <$> docs (createSnapshot codeUnitCompare plainMatter plainRender sampleRoot),
   tree (createSnapshot codeUnitCompare plainMatter plainRender sampleRoot))
  = (["b.md"; "sub/a.md"], ["B"; "a"],
     [Folder "sub" "sub" [File "a.md" "sub/a.md" "sub/a.md" ["sub"; "a"] "a"];
      File "b.md" "b.md" "b.md" ["b"] "B"]).
Proof. vm_compute. reflexivity. Qed.

Lemma getSnapshot_live_editing_witness :
  (returned (getSnapshot codeUnitCompare plainMatter plainRender tinyParse tinyStringify
               (sampleEnv false NoFile)
               (warmCache {| fileCount := numOfNat 3; maxMtimeMs := Fin (Qc_of_Z 9) |}))
   = Built emptySnapshot) ∧
  (returned (getSnapshot codeUnitCompare plainMatter plainRender tinyParse tinyStringify
               (sampleEnv false NoFile)
               (warmCache {| fileCount := numOfNat 2; maxMtimeMs := Fin (Qc_of_Z 9) |}))
   = Built (createSnapshot codeUnitCompare plainMatter plainRender sampleRoot)).
Proof.
  split.
  - apply (proj1 (getSnapshot_live_editing codeUnitCompare plainMatter plainRender
             tinyParse tinyStringify (sampleEnv false NoFile)
             (warmCache {| fileCount := numOfNat 3; maxMtimeMs := Fin (Qc_of_Z 9) |})
             (Built emptySnapshot) _ sampleRoot eq_refl eq_refl eq_refl eq_refl)).
    vm_compute. reflexivity.
  - apply (proj2 (getSnapshot_live_editing codeUnitCompare plainMatter plainRender
             tinyParse tinyStringify (sampleEnv false NoFile)
             (warmCache {| fileCount := numOfNat 2; maxMtimeMs := Fin (Qc_of_Z 9) |})
             (Built emptySnapshot) _ sampleRoot eq_refl eq_refl eq_refl eq_refl)).
    vm_compute. discriminate.
Defined.

Lemma persisted_snapshot_soft_miss_witness :
  getValidatedSnapshotFromDisk tinyParse (sampleEnv true (FileText "snapshot"))
    (computeDocsVersion sampleRoot) = Some (Adopted [] [] [] []) ∧
  returned (getSnapshot codeUnitCompare plainMatter plainRender tinyParse tinyStringify
              (sampleEnv true (FileText "{}"))
              {| cachedSnapshot := None; cachedVersion := None |})
  = Built (createSnapshot codeUnitCompare plainMatter plainRender sampleRoot).
Proof.
  split.
  { apply (proj1 (persisted_snapshot_soft_miss codeUnitCompare plainMatter
             plainRender tinyParse tinyStringify (sampleEnv true (FileText "snapshot"))
             (computeDocsVersion sampleRoot))).
    eexists "snapshot", _, _, _, (Qc_of_Z 3), (Qc_of_Z 9), [], [].
    repeat split; reflexivity. }
  apply (proj1 (proj2 (proj2 (persisted_snapshot_soft_miss codeUnitCompare plainMatter
           plainRender tinyParse tinyStringify (sampleEnv true (FileText "{}"))
           (computeDocsVersion sampleRoot)))
           {| cachedSnapshot := None; cachedVersion := None |} sampleRoot
           eq_refl eq_refl eq_refl eq_refl)).
  reflexivity.
Defined.

(** * Further properties *)

(** ** [splitPathAndSuffix] and [encodePath] *)

Lemma sliceTo_sliceFrom n s : Js.sliceTo n s +:+ Js.sliceFrom n s = s.
Proof.
  revert n. induction s as [|c s IH]; intros [|n]; simpl; try reflexivity.
  rewrite str_app_cons. f_equal. apply IH.
Qed.

Lemma indexOf_sliceTo_None c s i :
  (∀ k, Js.indexOf c s = Some k → i ≤ k) → Js.indexOf c (Js.sliceTo i s) = None.
Proof.
  revert i. induction s as [|a s IH]; intros [|i] H; simpl; try reflexivity.
  simpl in H. destruct (Ascii.eqb a c).
  - specialize (H 0 eq_refl). lia.
  - rewrite IH; [reflexivity|]. intros k Hk. rewrite Hk in H.
    specialize (H (S k) eq_refl). lia.
Qed.

Lemma indexOf_sliceFrom c s i :
  Js.indexOf c s = Some i → ∃ t, Js.sliceFrom i s = String c t.
Proof.
  revert i. induction s as [|a s IH]; intros i; simpl; [discriminate|].
  destruct (Ascii.eqb a c) eqn:E.
  - intros [= <-]. apply Ascii.eqb_eq in E as ->. by eexists.
  - destruct (Js.indexOf c s) as [j|]; [|discriminate]. intros [= <-].
    simpl. by apply IH.
Qed.

Lemma str_app_nil_r s : s +:+ "" = s.
Proof. induction s as [|c s IH]; [reflexivity|]. by rewrite str_app_cons, IH. Qed.

Lemma sliceTo_all n s : String.length s ≤ n → Js.sliceTo n s = s.
Proof.
  revert n. induction s as [|c s IH]; intros [|n]; simpl; try reflexivity; try lia.
  intros H. rewrite IH; [reflexivity|lia].
Qed.

(** X1. [splitPathAndSuffix] cuts a URL in two without losing anything:
    path and suffix put together are the URL again; the path holds neither
    [?] nor [#]; and the suffix is empty, when the URL holds neither, or
    else starts with the [?] or [#] that comes first. *)
Theorem splitPathAndSuffix_round_trip (rawUrl : string) :
  let ps := splitPathAndSuffix rawUrl in
  pathname ps +:+ suffix ps = rawUrl ∧
  Js.indexOf "?" (pathname ps) = None ∧ Js.indexOf "#" (pathname ps) = None ∧
  (suffix ps = "" ∧ Js.indexOf "?" rawUrl = None ∧ Js.indexOf "#" rawUrl = None
   ∨ Js.startsWith "?" (suffix ps) = true ∨ Js.startsWith "#" (suffix ps) = true).
Proof.
  unfold splitPathAndSuffix.
  destruct (Js.indexOf "?" rawUrl) as [q|] eqn:Q;
    destruct (Js.indexOf "#" rawUrl) as [h|] eqn:H; simpl.
  - split; [apply sliceTo_sliceFrom|].
    split; [apply indexOf_sliceTo_None; intros k; rewrite Q; intros [= <-]; lia|].
    split; [apply indexOf_sliceTo_None; intros k; rewrite H; intros [= <-]; lia|].
    right. destruct (Nat.min_spec q h) as [[_ ->]|[_ ->]].
    + left. apply indexOf_sliceFrom in Q as [t ->]. reflexivity.
    + right. apply indexOf_sliceFrom in H as [t ->]. reflexivity.
  - split; [apply sliceTo_sliceFrom|].
    split; [apply indexOf_sliceTo_None; intros k; rewrite Q; intros [= <-]; lia|].
    split; [apply indexOf_sliceTo_None; intros k; rewrite H; discriminate|].
    right. left. apply indexOf_sliceFrom in Q as [t ->]. reflexivity.
  - split; [apply sliceTo_sliceFrom|].
    split; [apply indexOf_sliceTo_None; intros k; rewrite Q; discriminate|].
    split; [apply indexOf_sliceTo_None; intros k; rewrite H; intros [= <-]; lia|].
    right. right. apply indexOf_sliceFrom in H as [t ->]. reflexivity.
  - rewrite str_app_nil_r. do 3 (split; [done|]). by left.
Qed.

Lemma allChars_app p a b :
  allChars p (a +:+ b) = allChars p a && allChars p b.
Proof.
  induction a as [|c a IH]; [reflexivity|].
  rewrite str_app_cons. simpl. by rewrite IH, andb_assoc.
Qed.

Lemma allChars_impl (p q : ascii → bool) s :
  (∀ c, p c = true → q c = true) → allChars p s = true → allChars q s = true.
Proof.
  intros H. induction s as [|c s IH]; simpl; [done|].
  rewrite !andb_true_iff. intros [Hc Hs]. auto.
Qed.

Lemma allChars_join p l :
  p "/"%char = true → Forall (λ s, allChars p s = true) l →
  allChars p (Js.join "/" l) = true.
Proof.
  intros Hp. induction 1 as [|x l Hx Hl IH]; [reflexivity|].
  destruct l as [|y l]; [exact Hx|].
  change (Js.join "/" (x :: y :: l)) with (x +:+ "/" +:+ Js.join "/" (y :: l)).
  rewrite !allChars_app, Hx, IH. simpl. by rewrite Hp.
Qed.

Lemma hexDigit_unreserved n : n < 16 → Js.isUnreserved (Js.hexDigit n) = true.
Proof.
  intros H. do 16 (destruct n as [|n]; [reflexivity|]). lia.
Qed.

Lemma hexDigit_inj m n : m < 16 → n < 16 → Js.hexDigit m = Js.hexDigit n → m = n.
Proof.
  intros Hm Hn.
  do 16 (destruct m as [|m]; [do 16 (destruct n as [|n]; [done|]); lia|]). lia.
Qed.

Lemma nat_of_ascii_lt c : nat_of_ascii c < 256.
Proof. apply nat_ascii_bounded. Qed.

Lemma encodeURIComponent_cons c s :
  Js.encodeURIComponent (String c s) =
  if Js.isUnreserved c then String c (Js.encodeURIComponent s)
  else String "%" (String (Js.hexDigit (nat_of_ascii c / 16))
         (String (Js.hexDigit (nat_of_ascii c mod 16)) (Js.encodeURIComponent s))).
Proof. reflexivity. Qed.

Lemma encodeURIComponent_chars s :
  allChars segmentChar (Js.encodeURIComponent s) = true.
Proof.
  induction s as [|c s IH]; [reflexivity|].
  rewrite encodeURIComponent_cons.
  destruct (Js.isUnreserved c) eqn:E; cbn [allChars].
  - rewrite IH, andb_true_r. unfold segmentChar. by rewrite E.
  - pose proof (nat_of_ascii_lt c) as Hc.
    rewrite IH, andb_true_r. unfold segmentChar.
    rewrite !hexDigit_unreserved; [reflexivity| |].
    + apply Nat.mod_upper_bound. lia.
    + apply Nat.Div0.div_lt_upper_bound. lia.
Qed.

Lemma segmentChar_noSlash s : allChars segmentChar s = true → noSlash s.
Proof.
  unfold noSlash. induction s as [|c s IH]; simpl; [done|].
  rewrite andb_true_iff. intros [Hc Hs]. rewrite (IH Hs).
  destruct (Ascii.eqb c "/") eqn:E; [|reflexivity].
  apply Ascii.eqb_eq in E as ->. discriminate.
Qed.

Lemma encodeURIComponent_inj a b :
  Js.encodeURIComponent a = Js.encodeURIComponent b → a = b.
Proof.
  revert b.
  induction a as [|c a IH]; intros [|d b]; rewrite ?encodeURIComponent_cons.
  - done.
  - simpl. destruct (Js.isUnreserved d); discriminate.
  - simpl. destruct (Js.isUnreserved c); discriminate.
  - destruct (Js.isUnreserved c) eqn:Ec, (Js.isUnreserved d) eqn:Ed.
    + intros [= -> H]. f_equal. by apply IH.
    + intros [= -> _]. discriminate.
    + intros [= <- _]. discriminate.
    + pose proof (nat_of_ascii_lt c). pose proof (nat_of_ascii_lt d).
      assert (nat_of_ascii c / 16 < 16 ∧ nat_of_ascii d / 16 < 16) as [Hqc Hqd]
        by (split; apply Nat.Div0.div_lt_upper_bound; lia).
      assert (nat_of_ascii c mod 16 < 16 ∧ nat_of_ascii d mod 16 < 16) as [Hrc Hrd]
        by (split; apply Nat.mod_upper_bound; lia).
      revert Hqc Hqd Hrc Hrd.
      generalize (Nat.div_mod_eq (nat_of_ascii c) 16) (Nat.div_mod_eq (nat_of_ascii d) 16).
      generalize (nat_of_ascii c / 16) (nat_of_ascii d / 16)
                 (nat_of_ascii c mod 16) (nat_of_ascii d mod 16).
      intros qc qd rc rd Hc Hd Hqc Hqd Hrc Hrd [= H1 H2 Hrest].
      f_equal; [|by apply IH].
      apply hexDigit_inj in H1; [|done..].
      apply hexDigit_inj in H2; [|done..].
      rewrite <- (ascii_nat_embedding c), <- (ascii_nat_embedding d). f_equal.
      congruence.
Qed.

Lemma encodePath_split p :
  Js.split "/" (encodePath p) = Js.encodeURIComponent <$> Js.split "/" p.
Proof.
  unfold encodePath. apply split_join.
  - pose proof (split_nonempty "/" p). by destruct (Js.split "/" p).
  - apply Forall_fmap, Forall_forall. intros s _. simpl.
    apply segmentChar_noSlash, encodeURIComponent_chars.
Qed.

(** X2. [encodePath] keeps the segments of a path apart: the encoded path
    splits at [/] into the encoded segments of the path, one for one; and it
    consists of unreserved characters, [%] and [/] only. *)
Theorem encodePath_keeps_segments (pathname : string) :
  Js.split "/" (encodePath pathname)
  = Js.encodeURIComponent <$> Js.split "/" pathname ∧
  allChars pathChar (encodePath pathname) = true.
Proof.
  split; [apply encodePath_split|].
  unfold encodePath. apply allChars_join; [reflexivity|].
  apply Forall_fmap, Forall_forall. intros s _. simpl.
  eapply allChars_impl; [|apply encodeURIComponent_chars].
  intros c Hc. unfold pathChar. by rewrite Hc.
Qed.

(** X3. [encodePath] is injective: two paths with one encoding are one
    path. *)
Theorem encodePath_injective (a b : string) :
  encodePath a = encodePath b ↔ a = b.
Proof.
  split; [|by intros ->].
  intros H. apply (f_equal (Js.split "/")) in H. rewrite !encodePath_split in H.
  rewrite <- (join_split a), <- (join_split b). f_equal.
  revert H. generalize (Js.split "/" a) (Js.split "/" b).
  induction l as [|x l IH]; intros [|y l']; simpl; try done.
  intros [= Hx Hl]. f_equal; [by apply encodeURIComponent_inj|by apply IH].
Qed.

(** ** White space *)

Lemma classAt_None class s :
  Js.classAt class s = None ↔ Forall (λ w, Js.startsWith w s = false) class.
Proof.
  unfold Js.classAt. induction class as [|w class IH]; cbn [List.find].
  - split; [constructor|done].
  - destruct (Js.startsWith w s) eqn:E.
    + split; [done|]. intros H. apply Forall_cons in H as [H _]. congruence.
    + rewrite IH. split; [by constructor|]. intros H. by apply Forall_cons in H as [_ H].
Qed.

Lemma classAt_Some class s w :
  Js.classAt class s = Some w → w ∈ class ∧ Js.startsWith w s = true.
Proof.
  unfold Js.classAt. intros H. apply find_some in H as [Hin Hw].
  split; [by apply list_elem_of_In|done].
Qed.

Lemma whiteSpace_shape w :
  w ∈ Js.whiteSpace →
  w ≠ "" ∧ allChars (λ c, negb (Ascii.eqb c "-")) w = true.
Proof.
  revert w. apply Forall_forall. unfold Js.whiteSpace.
  repeat (apply Forall_cons; split; [by split|]). apply List.Forall_nil.
Qed.

Lemma spaceAt_hyphen s : Js.spaceAt (String "-" s) = None.
Proof.
  apply classAt_None, Forall_forall. intros w Hw.
  destruct (whiteSpace_shape w Hw) as [Hne Hall].
  destruct w as [|c w]; [done|]. cbn [allChars] in Hall. cbn [Js.startsWith].
  apply andb_true_iff in Hall as [Hc _]. apply negb_true_iff in Hc.
  by rewrite Hc.
Qed.

(** ** [slugify] *)

Lemma allChars_true s : allChars (λ _, true) s = true.
Proof. by induction s. Qed.

Lemma allChars_removeChars p q s :
  allChars p s = true →
  allChars (λ c, p c && negb (q c)) (Js.removeChars q s) = true.
Proof.
  induction s as [|c s IH]; simpl; [done|].
  rewrite andb_true_iff. intros [Hc Hs].
  destruct (q c) eqn:E; simpl; [auto|]. by rewrite Hc, E, IH.
Qed.

Lemma allChars_replaceSpaceRuns p r b k s :
  allChars p r = true → allChars p s = true →
  allChars p (Js.replaceSpaceRuns r b k s) = true.
Proof.
  intros Hr. revert b k. induction s as [|c s IH]; intros b k; [done|].
  cbn [allChars Js.replaceSpaceRuns]. rewrite andb_true_iff. intros [Hc Hs].
  destruct k as [|k]; [|by apply IH].
  destruct (Js.spaceAt (String c s)) as [w|].
  - rewrite allChars_app, (IH _ _ Hs), andb_true_r. by destruct b.
  - cbn [allChars]. by rewrite Hc, IH.
Qed.

Lemma allChars_replaceRuns p Q b s :
  Q "-"%char = true → allChars (λ c, p c || Q c) s = true →
  allChars Q (Js.replaceRuns p "-" b s) = true.
Proof.
  intros HQ. revert b. induction s as [|c s IH]; intros b; simpl; [done|].
  rewrite andb_true_iff. intros [Hc Hs].
  destruct (p c) eqn:E.
  - destruct b; [by apply IH|].
    rewrite allChars_app. simpl. by rewrite HQ, IH.
  - simpl in Hc. simpl. by rewrite Hc, IH.
Qed.

Lemma noHyphenPair_cons c s :
  noHyphenPair (String c s)
  = negb (Ascii.eqb c "-" && Js.startsWith "-" s) && noHyphenPair s.
Proof.
  destruct s as [|d t]; [by rewrite andb_false_r|].
  cbn [noHyphenPair Js.startsWith].
  by rewrite (Ascii.eqb_sym "-"%char d), andb_true_r.
Qed.

Lemma startsWith_hyphen_cons c s :
  Js.startsWith "-" (String c s) = Ascii.eqb c "-".
Proof. simpl. destruct s; by rewrite Ascii.eqb_sym, andb_true_r. Qed.

Lemma noHyphenPair_replaceRuns b s :
  let out := Js.replaceRuns (λ c, Ascii.eqb c "-") "-" b s in
  noHyphenPair out = true ∧ (b = true → Js.startsWith "-" out = false).
Proof.
  revert b. induction s as [|c s IH]; intros b; cbn zeta; cbn [Js.replaceRuns];
    [by split|].
  cbn zeta in IH.
  destruct (Ascii.eqb c "-") eqn:E.
  - destruct (IH true) as [H1 H2]. specialize (H2 eq_refl). destruct b.
    + by split.
    + split; [|done]. rewrite str_app_cons. change ("" +:+ ?x) with x.
      by rewrite noHyphenPair_cons, H1, H2.
  - destruct (IH false) as [H1 _]. split.
    + by rewrite noHyphenPair_cons, E, H1.
    + intros _. by rewrite startsWith_hyphen_cons.
Qed.

Lemma removeChars_fixed q s :
  allChars (λ c, negb (q c)) s = true → Js.removeChars q s = s.
Proof.
  induction s as [|c s IH]; simpl; [done|].
  rewrite andb_true_iff, negb_true_iff. intros [Hc Hs]. by rewrite Hc, (IH Hs).
Qed.

Lemma replaceRuns_hyphen_fixed b s :
  noHyphenPair s = true → (b = true → Js.startsWith "-" s = false) →
  Js.replaceRuns (λ c, Ascii.eqb c "-") "-" b s = s.
Proof.
  revert b. induction s as [|c s IH]; intros b Hs Hb; [done|].
  rewrite noHyphenPair_cons in Hs. apply andb_true_iff in Hs as [Hcd Hs].
  apply negb_true_iff in Hcd. cbn [Js.replaceRuns].
  destruct (Ascii.eqb c "-") eqn:E.
  - simpl in Hcd. destruct b.
    + specialize (Hb eq_refl). rewrite startsWith_hyphen_cons in Hb. congruence.
    + rewrite str_app_cons. change ("" +:+ ?x) with x.
      apply Ascii.eqb_eq in E as ->. f_equal. by apply IH.
  - f_equal. apply IH; [done|discriminate].
Qed.

(** What the replaced text starts with, hyphens apart, the text started
    with. *)
Lemma startsWith_replaceSpaceRuns w : ∀ s,
  allChars (λ c, negb (Ascii.eqb c "-")) w = true →
  Js.startsWith w (Js.replaceSpaceRuns "-" false 0 s) = true →
  Js.startsWith w s = true.
Proof.
  induction w as [|d w IH]; intros s Hw Hout; [by destruct s|].
  cbn [allChars] in Hw. apply andb_true_iff in Hw as [Hd Hw].
  apply negb_true_iff in Hd.
  destruct s as [|c s]; [done|]. cbn [Js.replaceSpaceRuns] in Hout.
  destruct (Js.spaceAt (String c s)) as [v|].
  - rewrite str_app_cons in Hout. cbn [Js.startsWith] in Hout.
    by rewrite Hd in Hout.
  - cbn [Js.startsWith] in Hout |- *. apply andb_true_iff in Hout as [-> Hout].
    by rewrite (IH s Hw Hout).
Qed.

Lemma noSpace_replaceSpaceRuns s : ∀ b k,
  noSpace (Js.replaceSpaceRuns "-" b k s) = true.
Proof.
  induction s as [|c s IH]; intros b k; [done|]. cbn [Js.replaceSpaceRuns].
  destruct k as [|k]; [|by apply IH].
  destruct (Js.spaceAt (String c s)) as [v|] eqn:E.
  - destruct b; [by apply IH|]. rewrite str_app_cons. cbn [noSpace].
    rewrite spaceAt_hyphen. change ("" +:+ ?x) with x. apply IH.
  - cbn [noSpace]. rewrite IH.
    destruct (Js.spaceAt (String c (Js.replaceSpaceRuns "-" false 0 s))) as [w|] eqn:Ew;
      [|done].
    exfalso. apply classAt_Some in Ew as [Hin Hw].
    assert (Js.startsWith w (String c s) = true) as Hs.
    { apply startsWith_replaceSpaceRuns; [by apply whiteSpace_shape|].
      cbn [Js.replaceSpaceRuns]. by rewrite E. }
    apply classAt_None in E. rewrite Forall_forall in E.
    by rewrite (E w Hin) in Hs.
Qed.

Lemma startsWith_replaceRuns_hyphen w : ∀ s,
  allChars (λ c, negb (Ascii.eqb c "-")) w = true →
  Js.startsWith w (Js.replaceRuns (λ c, Ascii.eqb c "-") "-" false s) = true →
  Js.startsWith w s = true.
Proof.
  induction w as [|d w IH]; intros s Hw Hout; [by destruct s|].
  cbn [allChars] in Hw. apply andb_true_iff in Hw as [Hd Hw].
  apply negb_true_iff in Hd.
  destruct s as [|c s]; [done|]. cbn [Js.replaceRuns] in Hout.
  destruct (Ascii.eqb c "-") eqn:Ec.
  - rewrite str_app_cons in Hout. cbn [Js.startsWith] in Hout.
    by rewrite Hd in Hout.
  - cbn [Js.startsWith] in Hout |- *. apply andb_true_iff in Hout as [-> Hout].
    by rewrite (IH s Hw Hout).
Qed.

Lemma noSpace_replaceRuns_hyphen s : ∀ b,
  noSpace s = true →
  noSpace (Js.replaceRuns (λ c, Ascii.eqb c "-") "-" b s) = true.
Proof.
  induction s as [|c s IH]; intros b Hs; [done|]. cbn [noSpace] in Hs.
  destruct (Js.spaceAt (String c s)) as [v|] eqn:E; [done|].
  cbn [Js.replaceRuns]. destruct (Ascii.eqb c "-") eqn:Ec.
  - destruct b; [by apply IH|]. rewrite str_app_cons. cbn [noSpace].
    rewrite spaceAt_hyphen. change ("" +:+ ?x) with x. by apply IH.
  - cbn [noSpace]. rewrite (IH false Hs).
    destruct (Js.spaceAt (String c (Js.replaceRuns _ "-" false s))) as [w|] eqn:Ew;
      [|done].
    exfalso. apply classAt_Some in Ew as [Hin Hw].
    assert (Js.startsWith w (String c s) = true) as Hs'.
    { apply startsWith_replaceRuns_hyphen; [by apply whiteSpace_shape|].
      cbn [Js.replaceRuns]. by rewrite Ec. }
    apply classAt_None in E. rewrite Forall_forall in E.
    by rewrite (E w Hin) in Hs'.
Qed.

Lemma trimStart_no_space s : Js.spaceAt s = None → Js.trimStart s = s.
Proof. intros H. destruct s as [|c s]; [done|]. unfold Js.trimStart. cbn [Js.dropSpaces]. by rewrite H. Qed.

Lemma noSpace_head s : noSpace s = true → Js.spaceAt s = None.
Proof.
  destruct s as [|c s]; [done|]. cbn [noSpace].
  by destruct (Js.spaceAt (String c s)).
Qed.

Lemma trimEnd_noSpace s : noSpace s = true → Js.trimEnd s = s.
Proof.
  induction s as [|c s IH]; [done|]. intros Hs.
  pose proof (noSpace_head _ Hs) as Hh. cbn [noSpace] in Hs. rewrite Hh in Hs.
  cbn [Js.trimEnd]. rewrite (trimStart_no_space _ Hh). by rewrite (IH Hs).
Qed.

Lemma trim_noSpace s : noSpace s = true → Js.trim s = s.
Proof.
  intros Hs. unfold Js.trim.
  rewrite (trimStart_no_space s (noSpace_head s Hs)). by apply trimEnd_noSpace.
Qed.

Lemma replaceSpaceRuns_noSpace r s :
  noSpace s = true → Js.replaceSpaceRuns r false 0 s = s.
Proof.
  induction s as [|c s IH]; [done|]. cbn [noSpace Js.replaceSpaceRuns].
  destruct (Js.spaceAt (String c s)); [done|]. intros Hs. by rewrite (IH Hs).
Qed.

(** X4. Whatever the lower-casing, a slug holds none of the punctuation
    that [slugify] deletes, no white space (at no place of it does a
    white-space character of ECMAScript start) and no two hyphens in a row;
    and [slugify] returns a slug as it is when lower-casing does. *)
Theorem slugify_normal_form (toLowerCase : string → string) (input : string) :
  let slug := slugify toLowerCase input in
  allChars slugChar slug = true ∧ noSpace slug = true ∧ noHyphenPair slug = true ∧
  (toLowerCase slug = slug → slugify toLowerCase slug = slug).
Proof.
  intros slug.
  assert (allChars slugChar slug = true) as Hchars.
  { unfold slug, slugify. apply allChars_replaceRuns; [reflexivity|].
    apply (allChars_impl slugChar); [intros c Hc; rewrite Hc; apply orb_true_r|].
    apply allChars_replaceSpaceRuns; [reflexivity|].
    eapply allChars_impl; [|apply (allChars_removeChars (λ _, true)), allChars_true].
    intros c. unfold slugChar. by rewrite andb_true_l. }
  assert (noSpace slug = true) as Hspace
    by apply noSpace_replaceRuns_hyphen, noSpace_replaceSpaceRuns.
  assert (noHyphenPair slug = true) as Hpair by apply noHyphenPair_replaceRuns.
  repeat split; [done..|]. intros Hlower. unfold slugify at 1. rewrite Hlower.
  rewrite (trim_noSpace slug Hspace), (removeChars_fixed _ slug) by exact Hchars.
  rewrite (replaceSpaceRuns_noSpace _ slug Hspace).
  by apply replaceRuns_hyphen_fixed.
Qed.

(** ** [escapeHtmlAttribute] and [toPosixPath] *)

Lemma replaceChar_app c r a b :
  Js.replaceChar c r (a +:+ b) = Js.replaceChar c r a +:+ Js.replaceChar c r b.
Proof.
  induction a as [|x a IH]; [reflexivity|].
  rewrite str_app_cons. cbn [Js.replaceChar]. rewrite IH.
  destruct (Ascii.eqb x c); [by rewrite str_app_assoc|by rewrite str_app_cons].
Qed.

Lemma escapeHtmlAttribute_cons c s :
  escapeHtmlAttribute (String c s) = escapedChar c +:+ escapeHtmlAttribute s.
Proof.
  unfold escapeHtmlAttribute, escapedChar. cbn [Js.replaceChar].
  destruct (Ascii.eqb c "&") eqn:E1.
  - rewrite !replaceChar_app. reflexivity.
  - cbn [Js.replaceChar]. destruct (Ascii.eqb c Js.dq) eqn:E2.
    + rewrite !replaceChar_app. reflexivity.
    + cbn [Js.replaceChar]. destruct (Ascii.eqb c "<") eqn:E3.
      * rewrite !replaceChar_app. reflexivity.
      * cbn [Js.replaceChar]. destruct (Ascii.eqb c ">") eqn:E4; reflexivity.
Qed.

Lemma escapeHtmlAttribute_app a b :
  escapeHtmlAttribute (a +:+ b) = escapeHtmlAttribute a +:+ escapeHtmlAttribute b.
Proof.
  induction a as [|c a IH]; [reflexivity|].
  by rewrite str_app_cons, !escapeHtmlAttribute_cons, IH, str_app_assoc.
Qed.

Lemma escapedChar_safe c : allChars attributeSafe (escapedChar c) = true.
Proof.
  unfold escapedChar.
  destruct (Ascii.eqb c "&"); [reflexivity|].
  destruct (Ascii.eqb c Js.dq) eqn:E2; [reflexivity|].
  destruct (Ascii.eqb c "<") eqn:E3; [reflexivity|].
  destruct (Ascii.eqb c ">") eqn:E4; [reflexivity|].
  simpl. unfold attributeSafe. by rewrite E2, E3, E4.
Qed.

Lemma escapeHtmlAttribute_safe s :
  allChars attributeSafe (escapeHtmlAttribute s) = true.
Proof.
  induction s as [|c s IH]; [reflexivity|].
  by rewrite escapeHtmlAttribute_cons, allChars_app, escapedChar_safe, IH.
Qed.

Lemma escapedChar_cases c :
  (c = "&"%char ∧ escapedChar c = "&amp;") ∨
  (c = Js.dq ∧ escapedChar c = "&quot;") ∨
  (c = "<"%char ∧ escapedChar c = "&lt;") ∨
  (c = ">"%char ∧ escapedChar c = "&gt;") ∨
  (c ≠ "&"%char ∧ escapedChar c = String c "").
Proof.
  unfold escapedChar.
  destruct (Ascii.eqb c "&") eqn:E1; [apply Ascii.eqb_eq in E1; auto|].
  destruct (Ascii.eqb c Js.dq) eqn:E2; [apply Ascii.eqb_eq in E2; auto|].
  destruct (Ascii.eqb c "<") eqn:E3; [apply Ascii.eqb_eq in E3; auto 6|].
  destruct (Ascii.eqb c ">") eqn:E4; [apply Ascii.eqb_eq in E4; auto 6|].
  apply Ascii.eqb_neq in E1. auto 6.
Qed.

Lemma escapedChar_inj c d s t :
  escapedChar c +:+ s = escapedChar d +:+ t → c = d ∧ s = t.
Proof.
  destruct (escapedChar_cases c) as [[-> ->]|[[-> ->]|[[-> ->]|[[-> ->]|[Hc ->]]]]];
  destruct (escapedChar_cases d) as [[-> ->]|[[-> ->]|[[-> ->]|[[-> ->]|[Hd ->]]]]];
  rewrite ?str_app_cons; change ("" +:+ ?x) with x; intros H;
  try discriminate H; try (injection H as H; done);
  try (injection H as H1 H2; congruence).
Qed.

Lemma escapeHtmlAttribute_inj a b :
  escapeHtmlAttribute a = escapeHtmlAttribute b → a = b.
Proof.
  revert b. induction a as [|c a IH]; intros [|d b];
    rewrite ?escapeHtmlAttribute_cons.
  - done.
  - intros H. exfalso. revert H.
    destruct (escapedChar_cases d) as [[_ ->]|[[_ ->]|[[_ ->]|[[_ ->]|[_ ->]]]]];
      discriminate.
  - intros H. exfalso. revert H.
    destruct (escapedChar_cases c) as [[_ ->]|[[_ ->]|[[_ ->]|[[_ ->]|[_ ->]]]]];
      discriminate.
  - intros H. apply escapedChar_inj in H as [-> H]. f_equal. by apply IH.
Qed.

(** X5. What [escapeHtmlAttribute] returns holds no double quote, no [<] and
    no [>]; it is the text with [&], the double quote, [<] and [>] each
    replaced by its entity, one character at a time, so an [&] that an
    entity brings is not escaped again; and no two texts have one escaped
    form. *)
Theorem escapeHtmlAttribute_safe_and_faithful (value other : string) :
  allChars attributeSafe (escapeHtmlAttribute value) = true ∧
  escapeHtmlAttribute value
  = fold_right (λ c out, escapedChar c +:+ out) "" (list_ascii_of_string value) ∧
  (escapeHtmlAttribute value = escapeHtmlAttribute other ↔ value = other).
Proof.
  split; [apply escapeHtmlAttribute_safe|]. split.
  - induction value as [|c s IH]; [reflexivity|].
    rewrite escapeHtmlAttribute_cons, IH. reflexivity.
  - split; [apply escapeHtmlAttribute_inj|by intros ->].
Qed.

Lemma backslashToSlash_noBackslash s : noBackslash (Js.backslashToSlash s).
Proof.
  unfold noBackslash, Js.backslashToSlash.
  induction s as [|c s IH]; [reflexivity|]. cbn [Js.map Js.indexOf].
  rewrite IH. destruct (Ascii.eqb c "\") eqn:E; [reflexivity|]. by rewrite E.
Qed.

Lemma backslashToSlash_fixed s : noBackslash s → Js.backslashToSlash s = s.
Proof.
  unfold noBackslash, Js.backslashToSlash.
  induction s as [|c s IH]; [reflexivity|]. cbn [Js.map Js.indexOf].
  destruct (Ascii.eqb c "\") eqn:E; [discriminate|].
  destruct (Js.indexOf "\" s); [discriminate|]. intros _. by rewrite IH.
Qed.

Lemma backslashToSlash_length s :
  String.length (Js.backslashToSlash s) = String.length s.
Proof.
  unfold Js.backslashToSlash. induction s as [|c s IH]; simpl; [done|]. by rewrite IH.
Qed.

(** X6. [toPosixPath] leaves no backslash in a path, keeps its length, and
    changes nothing in a path that has no backslash, such as its own
    result. *)
Theorem toPosixPath_normal_form (filePath : string) :
  noBackslash (toPosixPath filePath) ∧
  String.length (toPosixPath filePath) = String.length filePath ∧
  toPosixPath (toPosixPath filePath) = toPosixPath filePath ∧
  (noBackslash filePath ↔ toPosixPath filePath = filePath).
Proof.
  unfold toPosixPath. split; [apply backslashToSlash_noBackslash|].
  split; [apply backslashToSlash_length|].
  split; [apply backslashToSlash_fixed, backslashToSlash_noBackslash|].
  split; [apply backslashToSlash_fixed|].
  intros <-. apply backslashToSlash_noBackslash.
Qed.

(** ** More on the resolvers *)

Lemma walkParts_children parts safeParts :
  Forall childSegment parts → walkParts parts safeParts = Some (safeParts ++ parts).
Proof.
  intros H. revert safeParts.
  induction H as [|s l (H0 & H1 & H2 & _) _ IH]; intros safeParts; simpl.
  - by rewrite app_nil_r.
  - apply isEmpty_false in H0. apply String.eqb_neq in H1, H2.
    rewrite H0, H1, H2. simpl. by rewrite IH, <- app_assoc.
Qed.

Lemma insideRoot_cons p :
  insideRoot p → ∃ c rest, p = String c rest ∧ c ≠ "/"%char.
Proof.
  unfold insideRoot. destruct p as [|c rest]; simpl.
  - intros H. inversion H as [|? ? (H0 & _) _]. done.
  - intros H. exists c, rest. split; [done|]. intros ->. simpl in H.
    inversion H as [|? ? (H0 & _) _]. done.
Qed.

Lemma resolveParts_rooted doc p :
  noBackslash p → resolveParts doc ("/" +:+ p) = Js.split "/" p.
Proof.
  intros Hp. unfold resolveParts.
  change (Js.backslashToSlash ("/" +:+ p)) with (String "/" (Js.backslashToSlash p)).
  by rewrite backslashToSlash_fixed.
Qed.

Lemma resolveDocsRelativePath_rooted doc p :
  insideRoot p → noBackslash p → resolveDocsRelativePath doc ("/" +:+ p) = Some p.
Proof.
  intros Hin Hp. unfold resolveDocsRelativePath.
  rewrite resolveParts_rooted, walkParts_children by done. simpl.
  pose proof (split_nonempty "/" p) as Hne.
  destruct (Js.split "/" p) as [|a l] eqn:E; [done|].
  by rewrite <- E, join_split.
Qed.

(** X7. A path inside the content root, written with a leading slash,
    resolves to itself from every document.  So resolution is idempotent:
    what it returns, read as a root-relative path, resolves to itself. *)
Theorem resolveDocsRelativePath_root_relative (currentDocPath p : string) :
  insideRoot p → noBackslash p →
  resolveDocsRelativePath currentDocPath ("/" +:+ p) = Some p.
Proof. apply resolveDocsRelativePath_rooted. Qed.

Lemma resolveDocsRelativePath_root_relative_witness :
  resolveDocsRelativePath "guide/intro.md" "../img/./a.png" = Some "img/a.png" ∧
  resolveDocsRelativePath "deep/er/x.md" "/img/a.png" = Some "img/a.png".
Proof.
  split; [reflexivity|].
  apply (resolveDocsRelativePath_root_relative "deep/er/x.md" "img/a.png").
  - apply (resolveDocsRelativePath_insideRoot "guide/intro.md" "../img/./a.png").
    reflexivity.
  - reflexivity.
Defined.

Lemma startsWithNoCase_head x p a s :
  Ascii.eqb (Js.lowerChar x) (Js.lowerChar a) = false →
  Js.startsWithNoCase (String x p) (String a s) = false.
Proof.
  intros H. unfold Js.startsWithNoCase, Js.toLowerCase.
  cbn [String.length Js.sliceTo Js.map Js.startsWith]. by rewrite H.
Qed.

Lemma startsWith_slashes c rest :
  c ≠ "/"%char → Js.startsWith "//" (String "/" (String c rest)) = false.
Proof.
  intros Hc. cbn [Js.startsWith]. apply Ascii.eqb_neq in Hc.
  rewrite (Ascii.eqb_sym "/"%char c), Hc. reflexivity.
Qed.

Lemma isPassThroughHref_rooted c rest :
  c ≠ "/"%char → isPassThroughHref (String "/" (String c rest)) = false.
Proof.
  intros Hc. unfold isPassThroughHref.
  rewrite !startsWithNoCase_head, startsWith_slashes by done. reflexivity.
Qed.

Lemma isExternalHref_rooted c rest :
  c ≠ "/"%char → isExternalHref (String "/" (String c rest)) = false.
Proof.
  intros Hc. unfold isExternalHref.
  rewrite !startsWithNoCase_head, startsWith_slashes by done. reflexivity.
Qed.

Lemma isRemoteSrc_rooted c rest :
  c ≠ "/"%char → isRemoteSrc (String "/" (String c rest)) = false.
Proof.
  intros Hc. unfold isRemoteSrc.
  rewrite !startsWithNoCase_head, startsWith_slashes by done. reflexivity.
Qed.

Lemma isAbsoluteUrl_rooted c rest :
  c ≠ "/"%char → isAbsoluteUrl (String "/" (String c rest)) = false.
Proof.
  intros Hc. unfold isAbsoluteUrl.
  rewrite !startsWithNoCase_head, startsWith_slashes by done. reflexivity.
Qed.

Lemma isExternalHref_passThrough href :
  isPassThroughHref href = false → isExternalHref href = false.
Proof.
  unfold isPassThroughHref, isExternalHref. rewrite !orb_false_iff. tauto.
Qed.

Lemma toDocHref_rooted slug suffix :
  ∃ rest, toDocHref slug +:+ suffix = String "/" (String "d" rest).
Proof.
  unfold toDocHref. destruct slug; rewrite !str_app_cons; by eexists.
Qed.

Lemma isExternalHref_resolveMarkdownHref href doc set :
  isExternalHref (resolveMarkdownHref href doc set) = isExternalHref href.
Proof.
  unfold resolveMarkdownHref.
  destruct (Js.isEmpty href); [done|].
  destruct (isPassThroughHref href) eqn:E; [done|].
  apply isExternalHref_passThrough in E. rewrite E.
  destruct (Js.isEmpty _); [done|].
  destruct (resolveDocsRelativePath _ _) as [p|]; [|done].
  destruct (Js.isEmpty p); [done|].
  assert (∀ slug sfx, isExternalHref (toDocHref slug +:+ sfx) = false) as Hdoc.
  { intros slug sfx. destruct (toDocHref_rooted slug sfx) as [rest ->].
    by apply isExternalHref_rooted. }
  destruct (List.find _ _); [apply Hdoc|].
  repeat case_bool_decide; try apply Hdoc.
  rewrite !str_app_cons. by apply isExternalHref_rooted.
Qed.

Lemma htmlAttribute_nonempty name value :
  Js.isEmpty (htmlAttribute name value) = false.
Proof. by destruct name. Qed.

(** X8. Resolution never changes whether a link counts as external: the
    anchor that [renderer.link] writes opens in a new tab exactly when the
    href as the author wrote it starts with [http:], [https:], [mailto:],
    [tel:] or [//]; and the value of its [href] attribute holds no double
    quote, [<] or [>]. *)
Theorem link_external_as_written (href text currentDocPath : string)
    (docPathSet : gset string) :
  let resolvedHref := resolveMarkdownHref href currentDocPath docPathSet in
  isExternalHref resolvedHref = isExternalHref href ∧
  allChars attributeSafe (escapeHtmlAttribute resolvedHref) = true ∧
  link href None text currentDocPath docPathSet =
    "<a " +:+ htmlAttribute "href" (escapeHtmlAttribute resolvedHref)
    +:+ (if isExternalHref href
         then " " +:+ htmlAttribute "target" "_blank"
              +:+ " " +:+ htmlAttribute "rel" "noreferrer noopener"
         else "")
    +:+ ">" +:+ text +:+ "</a>".
Proof.
  intros resolvedHref. split; [apply isExternalHref_resolveMarkdownHref|].
  split; [apply escapeHtmlAttribute_safe|].
  unfold link. rewrite isExternalHref_resolveMarkdownHref. fold resolvedHref.
  destruct (isExternalHref href); cbn [List.filter];
    rewrite !htmlAttribute_nonempty; cbn [negb Js.isEmpty Js.join];
    rewrite ?str_app_assoc; reflexivity.
Qed.

(** ** Links to documents *)

Lemma str_length_app a b : String.length (a +:+ b) = String.length a + String.length b.
Proof.
  induction a as [|c a IH]; [reflexivity|]. rewrite str_app_cons. simpl. by rewrite IH.
Qed.

Lemma sliceFrom_app_tail s e k :
  Js.sliceFrom (String.length s + k) (s +:+ e) = Js.sliceFrom k e.
Proof.
  induction s as [|c s IH]; [reflexivity|]. rewrite str_app_cons. exact IH.
Qed.

Lemma sliceTo_app_head s e : Js.sliceTo (String.length s) (s +:+ e) = s.
Proof.
  induction s as [|c s IH]; [by destruct e|]. rewrite str_app_cons. simpl. by rewrite IH.
Qed.

Lemma toLowerCase_app a b :
  Js.toLowerCase (a +:+ b) = Js.toLowerCase a +:+ Js.toLowerCase b.
Proof.
  unfold Js.toLowerCase. induction a as [|c a IH]; [reflexivity|].
  rewrite str_app_cons. cbn [Js.map]. by rewrite IH, str_app_cons.
Qed.

Lemma toLowerCase_length s : String.length (Js.toLowerCase s) = String.length s.
Proof.
  unfold Js.toLowerCase. induction s as [|c s IH]; simpl; [done|]. by rewrite IH.
Qed.

Lemma endsWith_app s e : Js.endsWith e (s +:+ e) = true.
Proof.
  unfold Js.endsWith. rewrite str_length_app.
  replace (String.length s + String.length e - String.length e)
    with (String.length s + 0) by lia.
  rewrite sliceFrom_app_tail. cbn [Js.sliceFrom]. rewrite String.eqb_refl, andb_true_r.
  apply Nat.leb_le. lia.
Qed.

Lemma dropEnd_app s e : Js.dropEnd (String.length e) (s +:+ e) = s.
Proof.
  unfold Js.dropEnd. rewrite str_length_app.
  replace (String.length s + String.length e - String.length e)
    with (String.length s) by lia.
  apply sliceTo_app_head.
Qed.

Lemma stripDocExtension_md s : stripDocExtension (s +:+ ".md") = s.
Proof.
  unfold stripDocExtension. rewrite toLowerCase_app.
  change (Js.toLowerCase ".md") with ".md". rewrite endsWith_app.
  apply (dropEnd_app s ".md").
Qed.

Lemma stripDocExtension_mdx s : stripDocExtension (s +:+ ".mdx") = s.
Proof.
  unfold stripDocExtension. rewrite toLowerCase_app.
  change (Js.toLowerCase ".mdx") with ".mdx".
  assert (Js.endsWith ".md" (Js.toLowerCase s +:+ ".mdx") = false) as ->.
  { unfold Js.endsWith. rewrite str_length_app.
    replace (String.length (Js.toLowerCase s) + String.length ".mdx" - String.length ".md")
      with (String.length (Js.toLowerCase s) + 1) by (simpl; lia).
    rewrite sliceFrom_app_tail. apply andb_false_r. }
  rewrite endsWith_app. apply (dropEnd_app s ".mdx").
Qed.

Lemma splitPathAndSuffix_plain s :
  Js.indexOf "?" s = None → Js.indexOf "#" s = None →
  splitPathAndSuffix s = {| pathname := s; suffix := "" |}.
Proof. unfold splitPathAndSuffix. by intros -> ->. Qed.

Lemma indexOf_cons_other c a s :
  a ≠ c → Js.indexOf c s = None → Js.indexOf c (String a s) = None.
Proof.
  intros Hac Hs. simpl. rewrite Hs. apply Ascii.eqb_neq in Hac. by rewrite Hac.
Qed.

Lemma resolveMarkdownHref_rooted rel cur set :
  insideRoot rel → noBackslash rel →
  Js.indexOf "?" rel = None → Js.indexOf "#" rel = None →
  resolveMarkdownHref ("/" +:+ rel) cur set =
  match List.find (λ ext, Js.endsWith ext (Js.toLowerCase rel)) [".md"; ".mdx"] with
  | Some extension =>
      toDocHref (Js.split "/" (Js.dropEnd (String.length extension) rel))
  | None =>
      if bool_decide (rel +:+ ".md" ∈ set) then toDocHref (Js.split "/" rel)
      else if bool_decide (rel +:+ ".mdx" ∈ set) then toDocHref (Js.split "/" rel)
      else "/api/docs-asset/" +:+ encodePath rel
  end.
Proof.
  intros Hin Hb Hq Hh. unfold resolveMarkdownHref.
  rewrite splitPathAndSuffix_plain by (by apply indexOf_cons_other).
  cbn [pathname suffix]. rewrite resolveDocsRelativePath_rooted by done.
  destruct (insideRoot_cons _ Hin) as (c & rest & -> & Hc).
  change ("/" +:+ String c rest) with (String "/" (String c rest)).
  rewrite isPassThroughHref_rooted by done. cbn [Js.isEmpty].
  destruct (List.find _ _); rewrite ?str_app_nil_r; [reflexivity|].
  repeat case_bool_decide; rewrite ?str_app_nil_r; reflexivity.
Qed.

(** X9. A link written as [/] followed by the [relPath] of a Markdown
    document leads, from every document, to the page of the slug that
    [readDocsRecursively] gives that document; and a link that leaves the
    extension out leads there too when the document is in the set. *)
Theorem resolveMarkdownHref_to_document (rel currentDocPath : string)
    (docPathSet : gset string) :
  insideRoot rel → noBackslash rel →
  Js.indexOf "?" rel = None → Js.indexOf "#" rel = None →
  (isMarkdownPath rel = true →
   resolveMarkdownHref ("/" +:+ rel) currentDocPath docPathSet
   = toDocHref (Js.split "/" (stripDocExtension rel))) ∧
  (isMarkdownPath rel = false →
   ∀ ext, ext ∈ [".md"; ".mdx"] → rel +:+ ext ∈ docPathSet →
   resolveMarkdownHref ("/" +:+ rel) currentDocPath docPathSet
   = toDocHref (Js.split "/" (stripDocExtension (rel +:+ ext)))).
Proof.
  intros Hin Hb Hq Hh. rewrite resolveMarkdownHref_rooted by done.
  unfold isMarkdownPath, stripDocExtension. cbn [List.find].
  split.
  - intros Hmd. destruct (Js.endsWith ".md" _); [reflexivity|].
    simpl in Hmd. by rewrite Hmd.
  - intros Hmd ext Hext Hset. apply orb_false_iff in Hmd as [-> ->].
    fold (stripDocExtension (rel +:+ ext)).
    assert (stripDocExtension (rel +:+ ext) = rel) as ->.
    { set_unfold in Hext. destruct Hext as [->|[->|[]]];
        [apply stripDocExtension_md|apply stripDocExtension_mdx]. }
    set_unfold in Hext. destruct Hext as [->|[->|[]]].
    + by rewrite bool_decide_true.
    + rewrite (bool_decide_true (_ +:+ ".mdx" ∈ _)) by done. by case_bool_decide.
Qed.

Lemma resolveMarkdownHref_to_document_witness :
  resolveMarkdownHref "/guide/Intro.MD" "deep/er/x.md" ∅ = "/docs/guide/Intro" ∧
  resolveMarkdownHref "/guide/setup" "x.md" {["guide/setup.mdx"]} = "/docs/guide/setup".
Proof.
  split.
  - apply (proj1 (resolveMarkdownHref_to_document "guide/Intro.MD" "deep/er/x.md" ∅
                    ltac:(repeat constructor; done) eq_refl eq_refl eq_refl)).
    reflexivity.
  - apply (proj2 (resolveMarkdownHref_to_document "guide/setup" "x.md"
                    {["guide/setup.mdx"]}
                    ltac:(repeat constructor; done) eq_refl eq_refl eq_refl)
             eq_refl ".mdx").
    + set_solver.
    + set_solver.
Defined.

(** ** Images *)

Lemma resolveDocsRelativePath_None_iff doc raw :
  ascendsAboveRoot (resolveParts doc raw) 0 = true →
  resolveDocsRelativePath doc raw = None.
Proof.
  intros H. apply (walkParts_None_iff _ []) in H.
  unfold resolveDocsRelativePath. by rewrite H.
Qed.

Lemma insideRoot_nonempty p : insideRoot p → Js.isEmpty p = false.
Proof. intros H. by destruct (insideRoot_cons _ H) as (c & rest & -> & _). Qed.

Lemma insideRoot_join p :
  insideRoot p → ∃ segs, p = Js.join "/" segs ∧ segs ≠ [] ∧ Forall childSegment segs.
Proof.
  intros H. exists (Js.split "/" p).
  split; [by rewrite join_split|]. split; [apply split_nonempty|exact H].
Qed.

Lemma join_app l1 l2 :
  l1 ≠ [] → l2 ≠ [] →
  Js.join "/" (l1 ++ l2) = Js.join "/" l1 +:+ "/" +:+ Js.join "/" l2.
Proof.
  intros H1 H2. induction l1 as [|x [|y l1] IH]; [done| |].
  - destruct l2; [done|]. reflexivity.
  - change (Js.join "/" ((x :: y :: l1) ++ l2))
      with (x +:+ "/" +:+ Js.join "/" ((y :: l1) ++ l2)).
    rewrite IH by done.
    change (Js.join "/" (x :: y :: l1)) with (x +:+ "/" +:+ Js.join "/" (y :: l1)).
    by rewrite !str_app_assoc.
Qed.

Lemma normalizeParts_app a b res :
  normalizeParts (a ++ b) res = normalizeParts b (normalizeParts a res).
Proof.
  revert res. induction a as [|s a IH]; intros res; simpl; [done|].
  repeat case_match; apply IH.
Qed.

Lemma normalizeParts_children parts res :
  Forall childSegment parts → normalizeParts parts res = res ++ parts.
Proof.
  intros H. revert res.
  induction H as [|s l (H0 & H1 & H2 & _) _ IH]; intros res; simpl.
  - by rewrite app_nil_r.
  - apply isEmpty_false in H0. apply String.eqb_neq in H1, H2.
    rewrite H0, H1, H2. simpl. by rewrite IH, <- app_assoc.
Qed.

Lemma pathResolve_inside r p :
  insideRoot r → insideRoot p →
  pathResolve ("/" +:+ r) p = "/" +:+ r +:+ "/" +:+ p.
Proof.
  intros Hr Hp. unfold pathResolve.
  rewrite (insideRoot_nonempty p Hp).
  destruct (insideRoot_cons _ Hp) as (c & rest & Ep & Hc).
  assert (Js.startsWith "/" p = false) as ->.
  { rewrite Ep. cbn [Js.startsWith]. apply Ascii.eqb_neq in Hc.
    by rewrite (Ascii.eqb_sym "/"%char c), Hc. }
  clear c rest Ep Hc.
  destruct (insideRoot_join _ Hr) as (rs & -> & Nr & Cr).
  destruct (insideRoot_join _ Hp) as (ps & -> & Np & Cp).
  assert (Forall noSlash rs ∧ Forall noSlash ps) as [Sr Sp]
    by (split; (eapply Forall_impl; [eassumption|]); by intros s (_ & _ & _ & ?)).
  assert (("/" +:+ Js.join "/" rs) +:+ "/" +:+ Js.join "/" ps +:+ "/"
          = Js.join "/" ([""] ++ rs ++ ps ++ [""])) as ->.
  { rewrite !join_app by (try done; by destruct rs; by destruct ps).
    cbn [Js.join]. by rewrite !str_app_assoc. }
  rewrite split_join.
  - rewrite !normalizeParts_app. cbn [normalizeParts Js.isEmpty orb].
    rewrite !normalizeParts_children by done. cbn [app normalizeParts].
    by rewrite join_app by done.
  - done.
  - apply Forall_app. split; [by repeat constructor|].
    apply Forall_app. split; [done|].
    apply Forall_app. split; [done|by repeat constructor].
Qed.

(** X10. Traversal safety of the image hook.  When the walk over the
    segments of the path of [src] meets a [..] at depth 0, the source is
    kept as it is and no file is looked at.  In every case either the
    source is kept and no file is looked at, or the [src] attribute is the
    asset route of a resolved path all of whose segments are children, and
    the file that is measured is the one at that very path. *)
Theorem resolveImageSrc_stays_in_root (FOUNDATION_ROOT src currentDocPath : string) :
  let ps := splitPathAndSuffix src in
  (ascendsAboveRoot (resolveParts currentDocPath (pathname ps)) 0 = true →
   resolveImageSrc src currentDocPath = src) ∧
  (resolveImageSrc src currentDocPath = src ∧
   resolveImageAbsolutePath FOUNDATION_ROOT src currentDocPath = None
   ∨ ∃ p, insideRoot p ∧
        resolveImageSrc src currentDocPath
        = "/api/docs-asset/" +:+ encodePath p +:+ suffix ps ∧
        resolveImageAbsolutePath FOUNDATION_ROOT src currentDocPath
        = Some (pathResolve FOUNDATION_ROOT p)).
Proof.
  intros ps. split.
  - intros Hup. unfold resolveImageSrc. fold ps.
    rewrite resolveDocsRelativePath_None_iff by done. by repeat case_match.
  - unfold resolveImageSrc, resolveImageAbsolutePath. fold ps.
    destruct (Js.isEmpty src); [by left|].
    destruct (isRemoteSrc src); [by left|]. cbn [orb].
    destruct (resolveDocsRelativePath _ _) as [p|] eqn:R; [|by left].
    destruct (Js.isEmpty p); [by left|].
    right. exists p. split; [|done]. by eapply resolveDocsRelativePath_insideRoot.
Qed.

(** X11. With the content root at a normalised absolute path, every file
    the image hook looks at lies below the content root: its path is the
    root, a slash, and a path all of whose segments are children. *)
Theorem resolveImageAbsolutePath_under_root (root src currentDocPath file : string) :
  insideRoot root →
  resolveImageAbsolutePath ("/" +:+ root) src currentDocPath = Some file →
  ∃ p, insideRoot p ∧ file = "/" +:+ root +:+ "/" +:+ p ∧
       resolveImageSrc src currentDocPath
       = "/api/docs-asset/" +:+ encodePath p +:+ suffix (splitPathAndSuffix src).
Proof.
  intros Hroot. unfold resolveImageAbsolutePath, resolveImageSrc.
  destruct (Js.isEmpty src); [done|].
  destruct (isRemoteSrc src); [done|]. cbn [orb].
  destruct (resolveDocsRelativePath _ _) as [p|] eqn:R; [|done].
  destruct (Js.isEmpty p); [done|]. intros [= <-].
  pose proof (resolveDocsRelativePath_insideRoot _ _ _ R) as Hp.
  exists p. split; [done|]. split; [|done]. by apply pathResolve_inside.
Qed.

Lemma resolveImageAbsolutePath_under_root_witness :
  resolveImageSrc "../img/a b.png?x" "guide/intro.md"
  = "/api/docs-asset/img/a%20b.png?x" ∧
  ∃ p, insideRoot p ∧
       "/srv/content/docs/img/a b.png" = "/" +:+ "srv/content/docs" +:+ "/" +:+ p ∧
       resolveImageSrc "../img/a b.png?x" "guide/intro.md"
       = "/api/docs-asset/" +:+ encodePath p
         +:+ suffix (splitPathAndSuffix "../img/a b.png?x").
Proof.
  split; [reflexivity|].
  apply (resolveImageAbsolutePath_under_root
           "srv/content/docs" "../img/a b.png?x" "guide/intro.md").
  - repeat constructor; done.
  - reflexivity.
Defined.

(** ** The about page *)

Lemma withBasePath_rooted base c rest :
  c ≠ "/"%char →
  withBasePath base (String "/" (String c rest)) = base +:+ String "/" (String c rest).
Proof.
  intros Hc. unfold withBasePath. cbn [Js.isEmpty].
  by rewrite isAbsoluteUrl_rooted.
Qed.

(** X12. Traversal safety of the links and images of the about page.  When
    the walk meets a [..] at depth 0 the href is kept as it is.  In every
    case the result for a link is the href itself, the about route (for a
    path that names a Markdown file), or the asset route of a resolved path
    all of whose segments are children; the result for an image is the source
    itself or the asset route of such a path; the routes start with the base
    path. *)
Theorem resolveAboutHref_stays_in_root (BASE_PATH href currentDocPath : string) :
  let ps := splitPathAndSuffix href in
  let out := About.resolveAboutHref BASE_PATH href currentDocPath in
  let src := About.resolveImageSrc BASE_PATH href currentDocPath in
  (ascendsAboveRoot (resolveParts currentDocPath (pathname ps)) 0 = true →
   out = href ∧ src = href) ∧
  (out = href ∨
   out = BASE_PATH +:+ "/about" +:+ suffix ps ∨
   ∃ p, About.resolveAboutRelativePath currentDocPath (pathname ps) = Some p ∧
        insideRoot p ∧ isMarkdownPath p = false ∧
        out = BASE_PATH +:+ "/about-asset/" +:+ encodePath p +:+ suffix ps) ∧
  (src = href ∨
   ∃ p, About.resolveAboutRelativePath currentDocPath (pathname ps) = Some p ∧
        insideRoot p ∧
        src = BASE_PATH +:+ "/about-asset/" +:+ encodePath p +:+ suffix ps).
Proof.
  intros ps out src. subst out src.
  unfold About.resolveAboutHref, About.resolveImageSrc. fold ps.
  change About.resolveAboutRelativePath with resolveDocsRelativePath.
  split; [|split].
  - intros Hup. rewrite resolveDocsRelativePath_None_iff by done.
    split; by repeat case_match.
  - destruct (Js.isEmpty href); [by left|].
    destruct (isPassThroughHref href); [by left|].
    destruct (resolveDocsRelativePath _ _) as [p|] eqn:R; [|by left].
    destruct (Js.isEmpty p); [by left|].
    right. destruct (isMarkdownPath p) eqn:M.
    + left. rewrite !str_app_cons. by rewrite withBasePath_rooted.
    + right. exists p. split; [done|].
      split; [by eapply resolveDocsRelativePath_insideRoot|]. split; [done|].
      rewrite !str_app_cons. by rewrite withBasePath_rooted.
  - destruct (Js.isEmpty href); [by left|].
    destruct (isRemoteSrc href); [by left|].
    destruct (resolveDocsRelativePath _ _) as [p|] eqn:R; [|by left].
    destruct (Js.isEmpty p); [by left|].
    right. exists p. split; [done|].
    split; [by eapply resolveDocsRelativePath_insideRoot|].
    rewrite !str_app_cons. by rewrite withBasePath_rooted.
Qed.

(** ** The base path *)

Lemma endsWith_cons p a s :
  String.length p ≤ String.length s → Js.endsWith p (String a s) = Js.endsWith p s.
Proof.
  intros H. unfold Js.endsWith. cbn [String.length].
  replace (S (String.length s) - String.length p)
    with (S (String.length s - String.length p)) by lia.
  cbn [Js.sliceFrom]. f_equal.
  destruct (Nat.leb_spec (String.length p) (String.length s)); [|lia].
  apply Nat.leb_le. lia.
Qed.

Lemma dropEnd_cons n a s :
  n ≤ String.length s → Js.dropEnd n (String a s) = String a (Js.dropEnd n s).
Proof.
  intros H. unfold Js.dropEnd. cbn [String.length].
  replace (S (String.length s) - n) with (S (String.length s - n)) by lia.
  reflexivity.
Qed.

Lemma stripTrailingSlash_cons a s :
  s ≠ "" → stripTrailingSlash (String a s) = String a (stripTrailingSlash s).
Proof.
  intros Hs. unfold stripTrailingSlash.
  assert (1 ≤ String.length s) by (destruct s; [done|simpl; lia]).
  rewrite endsWith_cons by done. destruct (Js.endsWith "/" s); [|done].
  by apply dropEnd_cons.
Qed.

Lemma normalizeBasePath_Some raw :
  normalizeBasePath (Some raw) =
  let trimmed := Js.trim raw in
  if Js.isEmpty trimmed || String.eqb trimmed "/" then ""
  else if Js.startsWith "/" trimmed then stripTrailingSlash trimmed
  else "/" +:+ stripTrailingSlash trimmed.
Proof.
  unfold normalizeBasePath. destruct raw as [|c raw]; [reflexivity|].
  cbn [Js.isEmpty]. cbn zeta. destruct (Js.trim (String c raw)) as [|d t] eqn:E; [done|].
  cbn [Js.isEmpty orb]. destruct (String.eqb _ "/"); [done|].
  destruct (Js.startsWith "/" (String d t)); [done|].
  change ("/" +:+ String d t) with (String "/" (String d t)).
  change (if Js.endsWith "/" (String "/" (String d t))
          then Js.dropEnd 1 (String "/" (String d t))
          else String "/" (String d t))
    with (stripTrailingSlash (String "/" (String d t))).
  by rewrite stripTrailingSlash_cons.
Qed.

Lemma stripTrailingSlash_rooted t :
  t ≠ "/" → Js.startsWith "/" t = true →
  Js.startsWith "/" (stripTrailingSlash t) = true.
Proof.
  intros Ht Hs. destruct t as [|c [|d t]]; [done| |].
  - cbn [Js.startsWith] in Hs. rewrite andb_true_r in Hs.
    apply Ascii.eqb_eq in Hs as <-. done.
  - rewrite stripTrailingSlash_cons by done. exact Hs.
Qed.

Lemma normalizeBasePath_shape raw :
  normalizeBasePath raw = "" ∨ Js.startsWith "/" (normalizeBasePath raw) = true.
Proof.
  destruct raw as [raw|]; [|by left]. rewrite normalizeBasePath_Some. cbn zeta.
  destruct (Js.isEmpty _ || _) eqn:E; [by left|]. right.
  apply orb_false_iff in E as [_ E]. apply String.eqb_neq in E.
  destruct (Js.startsWith "/" (Js.trim raw)) eqn:S; [|reflexivity].
  by apply stripTrailingSlash_rooted.
Qed.

Lemma startsWith_slash_app a b :
  Js.startsWith "/" a = true → Js.startsWith "/" (a +:+ b) = true.
Proof. destruct a as [|c a]; [done|]. by rewrite str_app_cons. Qed.

(** X13. The base path the site is exported with is the base path the
    library puts before its links: [normalizedBasePath] of the
    configuration and [normalizeBasePath] of the library agree on every
    value of the variable.  That base path is empty or starts with a
    slash, and [withBasePath] returns absolute URLs as they are and a path
    that starts with a slash for anything else. *)
Theorem basePath_config_agrees (rawValue : option string) (pathname : string) :
  let BASE_PATH := normalizeBasePath rawValue in
  normalizedBasePath rawValue = BASE_PATH ∧
  (BASE_PATH = "" ∨ Js.startsWith "/" BASE_PATH = true) ∧
  (if negb (Js.isEmpty pathname) && isAbsoluteUrl pathname
   then withBasePath BASE_PATH pathname = pathname
   else Js.startsWith "/" (withBasePath BASE_PATH pathname) = true).
Proof.
  intros B. split; [|split].
  - subst B. destruct rawValue as [raw|]; [|reflexivity].
    by rewrite normalizeBasePath_Some.
  - apply normalizeBasePath_shape.
  - pose proof (normalizeBasePath_shape rawValue) as HB. fold B in HB.
    unfold withBasePath. destruct (Js.isEmpty pathname) eqn:Ep; cbn [negb andb].
    + destruct HB as [->|HB]; [reflexivity|].
      by destruct B.
    + destruct (isAbsoluteUrl pathname); [reflexivity|].
      destruct HB as [->|HB].
      * change ("" +:+ ?x) with x. by destruct (Js.startsWith "/" pathname) eqn:S.
      * by apply startsWith_slash_app.
Qed.

(** ** The development launcher *)

Lemma optionAfter_nonempty args name v :
  optionAfter args name = Some v → v ≠ "".
Proof.
  induction args as [|item rest IH]; simpl; [done|].
  destruct (String.eqb item name); [|exact IH].
  destruct rest as [|next ?]; [done|].
  destruct next; [done|]. by intros [= <-].
Qed.

Lemma optionAfter_absent args name :
  name ∉ args → optionAfter args name = None.
Proof.
  induction args as [|item rest IH]; simpl; [done|].
  intros H. apply not_elem_of_cons in H as [H1 H2].
  destruct (String.eqb_spec item name); [congruence|auto].
Qed.

Lemma readOption_nonempty args name fallback :
  fallback ≠ "" → readOption args name fallback ≠ "".
Proof.
  intros Hf. unfold readOption.
  assert (default fallback (optionAfter args name) ≠ "") as Hidx.
  { destruct (optionAfter args name) eqn:E; [|done].
    by apply optionAfter_nonempty in E. }
  destruct (List.find _ args) as [direct|]; [|done].
  destruct (Js.isEmpty direct); [done|].
  destruct (default "" _) eqn:E; [done|done].
Qed.

Lemma normalizeWarmHost_concrete hostname :
  let warmHost := normalizeWarmHost hostname in
  warmHost ≠ "" ∧ warmHost ≠ "0.0.0.0" ∧ warmHost ≠ "::".
Proof.
  unfold normalizeWarmHost.
  destruct (Js.isEmpty hostname) eqn:E1; [done|].
  destruct (String.eqb_spec hostname "0.0.0.0"); [done|].
  destruct (String.eqb_spec hostname "::"); [done|].
  apply isEmpty_false in E1. done.
Qed.

(** X14. Whatever arguments the launcher is started with, the address it
    warms up has a concrete host (never the empty name nor one of the
    wildcard addresses [0.0.0.0] and [::]) and a port that is not empty;
    and with no [--hostname] and no [--port] among the arguments, in either
    form, the address is [http://127.0.0.1:3000]. *)
Theorem warmBaseUrl_concrete (passThroughArgs : list string) :
  ∃ warmHost port,
    warmBaseUrl passThroughArgs = "http://" +:+ warmHost +:+ ":" +:+ port ∧
    (warmHost ≠ "" ∧ warmHost ≠ "0.0.0.0" ∧ warmHost ≠ "::") ∧ port ≠ "" ∧
    (List.find (Js.startsWith "--hostname=") passThroughArgs = None →
     List.find (Js.startsWith "--port=") passThroughArgs = None →
     "--hostname" ∉ passThroughArgs → "--port" ∉ passThroughArgs →
     warmHost = "127.0.0.1" ∧ port = "3000").
Proof.
  eexists _, _. split; [reflexivity|]. split; [apply normalizeWarmHost_concrete|].
  split; [by apply readOption_nonempty|].
  intros H1 H2 H3 H4. unfold readOption.
  change ("--hostname" +:+ "=") with "--hostname=".
  change ("--port" +:+ "=") with "--port=".
  rewrite H1, H2, !optionAfter_absent by done. done.
Qed.

(** ** [toDocPath] and [toDocHref] *)

Lemma encodePath_join slug :
  slug ≠ [] → Forall noSlash slug →
  encodePath (Js.join "/" slug) = Js.join "/" (Js.encodeURIComponent <$> slug).
Proof. intros. unfold encodePath. by rewrite split_join. Qed.

(** X15. For a slug none of whose segments holds a slash, as the slugs of
    the snapshot are, the page the launcher warms up is the page the
    site links to: [toDocPath] and [toDocHref] give one path. *)
Theorem toDocPath_is_toDocHref (slug : list string) :
  Forall noSlash slug → toDocPath (Some slug) = toDocHref slug.
Proof.
  intros H. unfold toDocPath, toDocHref. destruct slug as [|s l]; [done|].
  by rewrite encodePath_join.
Qed.

Lemma toDocPath_is_toDocHref_witness :
  toDocPath (Some ["guide"; "a b"]) = "/docs/guide/a%20b" ∧
  toDocPath (Some ["guide"; "a b"]) = toDocHref ["guide"; "a b"].
Proof.
  split; [reflexivity|].
  apply (toDocPath_is_toDocHref ["guide"; "a b"]). by repeat constructor.
Defined.

(** ** The files and folders of the tree *)

Lemma treeFiles_app l r : treeFiles (l ++ r) = treeFiles l ++ treeFiles r.
Proof. unfold treeFiles. by rewrite fmap_app, concat_app. Qed.

Lemma treeFiles_cons n l : treeFiles (n :: l) = nodeFiles n ++ treeFiles l.
Proof. reflexivity. Qed.

Lemma treeFiles_Permutation l l' :
  Permutation l l' → Permutation (treeFiles l) (treeFiles l').
Proof.
  induction 1 as [|x l l' _ IH|x y l|l l' l'' _ IH1 _ IH2];
    rewrite ?treeFiles_cons.
  - reflexivity.
  - by rewrite IH.
  - rewrite !app_assoc. f_equiv. apply Permutation_app_comm.
  - by rewrite IH1.
Qed.

Lemma treeFiles_fmap_ext (f : DocTreeNode → DocTreeNode) l :
  Forall (λ n, Permutation (nodeFiles (f n)) (nodeFiles n)) l →
  Permutation (treeFiles (f <$> l)) (treeFiles l).
Proof.
  induction 1 as [|n l Hn _ IH]; [reflexivity|].
  rewrite fmap_cons, !treeFiles_cons. by rewrite Hn, IH.
Qed.

Lemma nodeFiles_sortNode cmp n :
  Permutation (nodeFiles (sortNode cmp n)) (nodeFiles n).
Proof.
  induction n as [name key children IH|] using DocTreeNode_nested_ind; [|reflexivity].
  cbn [sortNode nodeFiles]. fold (treeFiles children).
  fold (treeFiles (arraySort (compareNodes cmp) (sortNode cmp <$> children))).
  rewrite (treeFiles_Permutation _ _ (arraySort_perm _ _)).
  by apply treeFiles_fmap_ext.
Qed.

Lemma treeFiles_sortTree cmp l :
  Permutation (treeFiles (sortTree cmp l)) (treeFiles l).
Proof.
  unfold sortTree. rewrite (treeFiles_Permutation _ _ (arraySort_perm _ _)).
  apply treeFiles_fmap_ext, Forall_forall. intros n _. apply nodeFiles_sortNode.
Qed.

Lemma treeFiles_inFirstFolder seg f file l :
  existsb (isFolderNamed seg) l = true →
  (∀ children, Permutation (treeFiles (f children)) (file :: treeFiles children)) →
  Permutation (treeFiles (inFirstFolder seg f l)) (file :: treeFiles l).
Proof.
  intros Hex Hf. induction l as [|n l IH]; [done|].
  cbn [existsb] in Hex. destruct n as [name key children|]; cbn [inFirstFolder].
  - unfold isFolderNamed in Hex. cbn [isFolder nodeName andb] in Hex.
    destruct (String.eqb name seg).
    + rewrite !treeFiles_cons. cbn [nodeFiles]. fold (treeFiles (f children)).
      fold (treeFiles children). by rewrite Hf.
    + rewrite !treeFiles_cons, IH by done. symmetry. apply Permutation_middle.
  - rewrite !treeFiles_cons, IH by done. symmetry. apply Permutation_middle.
Qed.

Lemma treeFiles_insertDoc segs : ∀ acc file F,
  isFolder file = false →
  Permutation (treeFiles (insertDoc segs acc file F)) (file :: treeFiles F).
Proof.
  induction segs as [|seg rest IH]; intros acc file F Hfile; cbn [insertDoc].
  - rewrite treeFiles_app. destruct file; [done|].
    cbn. by rewrite <- Permutation_cons_append.
  - destruct (existsb (isFolderNamed seg) F) eqn:E.
    + apply treeFiles_inFirstFolder; [done|]. intros children. by apply IH.
    + rewrite treeFiles_app, treeFiles_cons. cbn [nodeFiles].
      match goal with |- context [concat (nodeFiles <$> ?x)] => fold (treeFiles x) end.
      rewrite IH by done. cbn [treeFiles fmap list_fmap concat app].
      by rewrite <- Permutation_cons_append.
Qed.

Lemma treeFiles_foldl_addDoc docs : ∀ F,
  Permutation (treeFiles (foldl addDoc F docs)) (treeFiles F ++ (fileNode <$> docs)).
Proof.
  induction docs as [|d docs IH]; intros F; cbn [foldl].
  - by rewrite app_nil_r.
  - rewrite IH. unfold addDoc at 1. rewrite treeFiles_insertDoc by done.
    rewrite fmap_cons. apply Permutation_middle.
Qed.

Lemma nodeLevels_sortNode_unique cmp n :
  nodeLevels (λ l, NoDup (folderNames l)) n →
  nodeLevels (λ l, NoDup (folderNames l)) (sortNode cmp n).
Proof.
  induction n as [name key children IH|] using DocTreeNode_nested_ind; [|done].
  cbn [sortNode]. rewrite !nodeLevels_Folder, !everyLevel_Forall.
  intros [Htop Hsub]. split.
  - fold (sortTree cmp children). by rewrite folderNames_sortTree.
  - rewrite (arraySort_perm (compareNodes cmp)). apply Forall_fmap.
    rewrite Forall_forall in IH, Hsub. apply Forall_forall. intros c Hc.
    apply IH; [done|]. by apply Hsub.
Qed.

Lemma uniqueFolders_sortTree cmp F :
  uniqueFolders F → uniqueFolders (sortTree cmp F).
Proof.
  unfold uniqueFolders. rewrite !everyLevel_Forall. intros [Htop Hsub]. split.
  - by rewrite folderNames_sortTree.
  - unfold sortTree. rewrite (arraySort_perm (compareNodes cmp)).
    apply Forall_fmap. eapply Forall_impl; [exact Hsub|].
    intros n. apply nodeLevels_sortNode_unique.
Qed.

Lemma uniqueFolders_foldl_addDoc docs : ∀ F,
  uniqueFolders F → uniqueFolders (foldl addDoc F docs).
Proof.
  induction docs as [|d docs IH]; intros F HF; cbn [foldl]; [done|].
  by apply IH, uniqueFolders_addDoc.
Qed.

Lemma treeFiles_buildDocsTree cmp docs :
  Permutation (treeFiles (buildDocsTree cmp docs)) (fileNode <$> docs).
Proof.
  unfold buildDocsTree. by rewrite treeFiles_sortTree, treeFiles_foldl_addDoc.
Qed.

(** X16. Whatever the comparison, the files of the tree that
    [buildDocsTree] returns are the file nodes of the documents, one for
    each document and no other, and no folder of the tree holds two folders
    of one name. *)
Theorem buildDocsTree_files_and_folders
    (localeCompare : string → string → Z) (docs : list DocRecord) :
  Permutation (treeFiles (buildDocsTree localeCompare docs)) (fileNode <$> docs) ∧
  uniqueFolders (buildDocsTree localeCompare docs).
Proof.
  split; [apply treeFiles_buildDocsTree|].
  apply uniqueFolders_sortTree, uniqueFolders_foldl_addDoc, uniqueFolders_nil.
Qed.

(** ** The version of the content directory *)

Lemma FsNode_nested_ind (P : FsNode → Prop) :
  (∀ mtimeMs content, P (FsFile mtimeMs content)) →
  (∀ entries, Forall (λ entry, P entry.2) entries → P (FsDir entries)) →
  ∀ n, P n.
Proof.
  intros Hfile Hdir.
  fix IH 1. intros [mtimeMs content|entries].
  - apply Hfile.
  - apply Hdir. induction entries as [|entry entries IHe]; constructor.
    + apply IH.
    + exact IHe.
Qed.

Lemma qcMax_le_l a b : (a ≤ qcMax a b)%Qc.
Proof. unfold qcMax. case_decide; [done|apply Qcle_refl]. Qed.

Lemma qcMax_le_r a b : (b ≤ qcMax a b)%Qc.
Proof.
  unfold qcMax. case_decide; [apply Qcle_refl|].
  apply Qclt_le_weak, Qcnot_le_lt. done.
Qed.

Lemma qcMax_cases a b : qcMax a b = a ∨ qcMax a b = b.
Proof. unfold qcMax. case_decide; auto. Qed.

Lemma qcMax_lub a b c : (a ≤ c)%Qc → (b ≤ c)%Qc → (qcMax a b ≤ c)%Qc.
Proof. unfold qcMax. by case_decide. Qed.

Lemma qcMax_assoc a b c : qcMax (qcMax a b) c = qcMax a (qcMax b c).
Proof.
  apply Qcle_antisym.
  - apply qcMax_lub; [apply qcMax_lub|].
    + apply qcMax_le_l.
    + etrans; [apply (qcMax_le_l b c)|apply qcMax_le_r].
    + etrans; [apply (qcMax_le_r b c)|apply qcMax_le_r].
  - apply qcMax_lub; [|apply qcMax_lub].
    + etrans; [apply (qcMax_le_l a b)|apply qcMax_le_l].
    + etrans; [apply (qcMax_le_r a b)|apply qcMax_le_l].
    + apply qcMax_le_r.
Qed.

Lemma qcMax_absorb a : (0 ≤ a)%Qc → qcMax a 0 = a.
Proof.
  intros H. unfold qcMax. case_decide; [|done]. by apply Qcle_antisym.
Qed.

Lemma foldl_qcMax a b l : foldl qcMax (qcMax a b) l = qcMax a (foldl qcMax b l).
Proof.
  revert b. induction l as [|x l IH]; intros b; cbn [foldl]; [done|].
  by rewrite qcMax_assoc, IH.
Qed.

Lemma foldl_qcMax_latest a l :
  (0 ≤ a)%Qc → foldl qcMax a l = qcMax a (latestOf l).
Proof.
  intros H. unfold latestOf. by rewrite <- foldl_qcMax, qcMax_absorb.
Qed.

Lemma latestOf_app l r : latestOf (l ++ r) = qcMax (latestOf l) (latestOf r).
Proof.
  unfold latestOf at 1. rewrite foldl_app. fold (latestOf l).
  apply foldl_qcMax_latest. unfold latestOf.
  induction l as [|x l IH] using rev_ind; [apply Qcle_refl|].
  rewrite foldl_app. cbn [foldl]. etrans; [exact IH|apply qcMax_le_l].
Qed.

Lemma latestOf_nonneg l : (0 ≤ latestOf l)%Qc.
Proof.
  unfold latestOf. induction l as [|x l IH] using rev_ind; [apply Qcle_refl|].
  rewrite foldl_app. cbn [foldl]. etrans; [exact IH|apply qcMax_le_l].
Qed.

Lemma latestOf_singleton m : latestOf [m] = qcMax 0 m.
Proof. reflexivity. Qed.

Lemma latestOf_upper l m : m ∈ l → (m ≤ latestOf l)%Qc.
Proof.
  intros (l1 & l2 & ->)%list_elem_of_split.
  change (m :: l2) with ([m] ++ l2). rewrite !latestOf_app, latestOf_singleton.
  etrans; [apply (qcMax_le_r 0 m)|].
  etrans; [apply (qcMax_le_l _ (latestOf l2))|apply qcMax_le_r].
Qed.

Lemma latestOf_attained l : latestOf l = 0%Qc ∨ latestOf l ∈ l.
Proof.
  induction l as [|x l IH] using rev_ind; [by left|].
  rewrite latestOf_app, latestOf_singleton.
  destruct (qcMax_cases (latestOf l) (qcMax 0 x)) as [->| ->].
  - destruct IH as [IH|IH]; [by left|]. right. apply elem_of_app. by left.
  - destruct (qcMax_cases 0 x) as [->| ->]; [by left|].
    right. apply elem_of_app. right. by apply list_elem_of_singleton.
Qed.

Lemma nodeVersion_entries entries :
  Forall (λ entry : string * FsNode,
            match entry.2 with
            | FsDir _ =>
                nodeVersion entry.2
                = (length (fileMtimes entry.2), latestOf (fileMtimes entry.2))
            | FsFile _ _ => True
            end) entries →
  ∀ count latest, (0 ≤ latest)%Qc →
    foldl (λ acc (entry : string * FsNode),
             match entry.2 with
             | FsDir _ =>
                 let child := nodeVersion entry.2 in
                 (acc.1 + child.1, qcMax acc.2 child.2)
             | FsFile mtimeMs _ => (acc.1 + 1, qcMax acc.2 mtimeMs)
             end) (count, latest) entries
    = (count + length (fileMtimes (FsDir entries)),
       qcMax latest (latestOf (fileMtimes (FsDir entries)))).
Proof.
  induction 1 as [|[name n] entries Hn _ IH]; intros count latest Hl.
  - cbn. by rewrite Nat.add_0_r, qcMax_absorb.
  - cbn [foldl]. cbn [fileMtimes fmap list_fmap concat].
    change (concat ((λ entry : string * FsNode, fileMtimes entry.2) <$> entries))
      with (fileMtimes (FsDir entries)).
    rewrite length_app, latestOf_app. cbn [snd] in *.
    destruct n as [mtimeMs content|children].
    + cbn [fst snd]. rewrite IH by (etrans; [exact Hl|apply qcMax_le_l]).
      cbn [fileMtimes length]. rewrite latestOf_singleton.
      f_equal; [lia|].
      rewrite (qcMax_assoc 0 mtimeMs), <- (qcMax_assoc latest 0),
        (qcMax_absorb latest) by done.
      by rewrite qcMax_assoc.
    + rewrite Hn. cbn [fst snd].
      rewrite IH by (etrans; [exact Hl|apply qcMax_le_l]).
      f_equal; [lia|]. by rewrite qcMax_assoc.
Qed.

Lemma nodeVersion_dir n :
  match n with
  | FsDir _ => nodeVersion n = (length (fileMtimes n), latestOf (fileMtimes n))
  | FsFile _ _ => True
  end.
Proof.
  induction n as [|entries IH] using FsNode_nested_ind; [done|].
  change (nodeVersion (FsDir entries))
    with (foldl (λ acc (entry : string * FsNode),
             match entry.2 with
             | FsDir _ =>
                 let child := nodeVersion entry.2 in
                 (acc.1 + child.1, qcMax acc.2 child.2)
             | FsFile mtimeMs _ => (acc.1 + 1, qcMax acc.2 mtimeMs)
             end) (0, 0%Qc) entries).
  rewrite nodeVersion_entries; [|exact IH|apply Qcle_refl].
  f_equal. unfold qcMax. case_decide; [done|].
  by pose proof (latestOf_nonneg (fileMtimes (FsDir entries))).
Qed.

Lemma computeDocsVersion_latest root :
  computeDocsVersion root
  = {| fileCount := numOfNat (length (fileMtimes (FsDir root)));
       maxMtimeMs := Fin (latestOf (fileMtimes (FsDir root))) |}.
Proof.
  unfold computeDocsVersion. by rewrite (nodeVersion_dir (FsDir root)).
Qed.

Lemma latestOf_Permutation l l' : Permutation l l' → latestOf l = latestOf l'.
Proof.
  assert (∀ a b : list Qc, Permutation a b → (latestOf a ≤ latestOf b)%Qc) as Hle.
  { intros a b Hab. destruct (latestOf_attained a) as [->|Hin].
    - apply latestOf_nonneg.
    - apply latestOf_upper. by rewrite <- Hab. }
  intros H. apply Qcle_antisym; apply Hle; [done|by symmetry].
Qed.

(** X17. The version of the content directory counts every file below it,
    documents or not, and its time is the greatest modification time among
    them, or 0 when there is no file or none has a positive time.  So two
    directories whose files have the same modification times, in any
    arrangement and whatever their names and contents, have one version. *)
Theorem computeDocsVersion_counts_and_latest (root root' : list (string * FsNode)) :
  let times := fileMtimes (FsDir root) in
  (∃ latest,
     computeDocsVersion root
     = {| fileCount := numOfNat (length times); maxMtimeMs := Fin latest |} ∧
     (0 ≤ latest)%Qc ∧ (∀ m, m ∈ times → (m ≤ latest)%Qc) ∧
     (latest = 0%Qc ∨ latest ∈ times)) ∧
  (Permutation times (fileMtimes (FsDir root')) →
   computeDocsVersion root = computeDocsVersion root').
Proof.
  intros times. split.
  - exists (latestOf times). split; [apply computeDocsVersion_latest|].
    split; [apply latestOf_nonneg|]. split; [apply latestOf_upper|].
    apply latestOf_attained.
  - intros Hp. rewrite !computeDocsVersion_latest. fold times.
    by rewrite (latestOf_Permutation _ _ Hp), (Permutation_length Hp).
Qed.

(** ** More on the snapshot cache *)

Section SnapshotCacheFacts.
  Variable localeCompare : string → string → Z.
  Variable matter : string → list (string * JsValue) * string.
  Variable renderMarkdownToHtml :
    list (string * FsNode) → string → string → gset string → string * list DocHeading.
  Variable jsonParse : string → option JsValue.
  Variable jsonStringify : PersistedDocsSnapshot → string.

  Local Abbreviation getSnapshot' :=
    (getSnapshot localeCompare matter renderMarkdownToHtml jsonParse jsonStringify).
  Local Abbreviation createSnapshot' :=
    (createSnapshot localeCompare matter renderMarkdownToHtml).

Lemma rebuilds_cons_other e trace :
  e ≠ CreateSnapshot → rebuilds (e :: trace) = rebuilds trace.
Proof. intros H. unfold rebuilds. by rewrite filter_cons_False. Qed.

Lemma rebuilds_app l r : rebuilds (l ++ r) = rebuilds l + rebuilds r.
Proof. unfold rebuilds. by rewrite filter_app, length_app. Qed.






Lemma latestOf_below l m :
  (0 < m)%Qc → (∀ t, t ∈ l → (t < m)%Qc) → (latestOf l < m)%Qc.
Proof.
  intros H0 Hl. destruct (latestOf_attained l) as [->|Hin]; [done|by apply Hl].
Qed.

(** X20. What live editing sees.  Outside production, with a snapshot
    cached for the content as it was: when some file is now newer than every
    file was then (and its time is positive), the access rebuilds from the
    content as it is now; when the files have the modification times they
    had, in any arrangement, the access returns the cached snapshot, whatever
    has changed in names and contents. *)
Theorem getSnapshot_detects_by_times
    (env : Env) (cache : Cache) (snapshot : Snapshot) (before current : list (string * FsNode)) :
  production env = false → foundationRoot env = Some current →
  cachedSnapshot cache = Some snapshot →
  cachedVersion cache = Some (computeDocsVersion before) →
  let access := getSnapshot' env cache in
  ((∃ m, m ∈ fileMtimes (FsDir current) ∧ (0 < m)%Qc ∧
         ∀ t, t ∈ fileMtimes (FsDir before) → (t < m)%Qc) →
   returned access = Built (createSnapshot' current) ∧ rebuilds (events access) = 1) ∧
  (Permutation (fileMtimes (FsDir before)) (fileMtimes (FsDir current)) →
   returned access = snapshot ∧ rebuilds (events access) = 0).
Proof.
  intros Hp Hr Hs Hv access. subst access.
  unfold getSnapshot. rewrite Hr, Hp, Hs, Hv. cbn [negb].
  rewrite !computeDocsVersion_latest. split.
  - intros (m & Hm & H0 & Hlt).
    assert (latestOf (fileMtimes (FsDir before)) < latestOf (fileMtimes (FsDir current)))%Qc
      as Hlater.
    { eapply Qclt_le_trans; [by apply latestOf_below|by apply latestOf_upper]. }
    destruct (isSameDocsVersion _ _) eqn:E.
    + unfold isSameDocsVersion in E. cbn [fileCount maxMtimeMs] in E.
      apply andb_true_iff in E as [_ E]. apply numStrictEq_true in E as [[= E] _].
      assert (latestOf (fileMtimes (FsDir before))
              = latestOf (fileMtimes (FsDir current))) as E' by exact E.
      rewrite E' in Hlater. by apply (Qcle_not_lt _ _ (Qcle_refl _)) in Hlater.
    + cbn [returned events]. split; [done|].
      rewrite rebuilds_cons_other by done. apply rebuilds_buildEvents.
  - intros Hperm.
    rewrite (latestOf_Permutation _ _ Hperm), (Permutation_length Hperm).
    assert (isSameDocsVersion
              {| fileCount := numOfNat (length (fileMtimes (FsDir current)));
                 maxMtimeMs := Fin (latestOf (fileMtimes (FsDir current))) |}
              {| fileCount := numOfNat (length (fileMtimes (FsDir current)));
                 maxMtimeMs := Fin (latestOf (fileMtimes (FsDir current))) |} = true) as ->.
    { unfold isSameDocsVersion. cbn [fileCount maxMtimeMs].
      apply andb_true_iff. split; by apply numStrictEq_true. }
    done.
Qed.

Lemma getSnapshot_cold_adopts env root adopted :
  production env = true → foundationRoot env = Some root →
  getValidatedSnapshotFromDisk jsonParse env (computeDocsVersion root) = Some adopted →
  getSnapshot' env coldCache
  = {| returned := adopted;
       cacheAfter := {| cachedSnapshot := Some adopted;
                        cachedVersion := Some (computeDocsVersion root) |};
       envAfter := env;
       events := ComputeVersion :: match snapshotFile env with
                                   | NoFile => []
                                   | _ => [ReadSnapshotFile]
                                   end |}.
Proof.
  intros Hp Hr Hread. unfold getSnapshot. rewrite Hr, Hp.
  cbn [negb coldCache cachedSnapshot]. by rewrite Hread.
Qed.

(** X21. What [writeSnapshotToDisk] writes, [getValidatedSnapshotFromDisk]
    accepts.  In production, after a cold access that found no usable file,
    rebuilt and could write, a process started afresh over the same content
    adopts the written file without a rebuild, provided the JSON text of the
    payload parses to a value that shows the payload's [__meta], [docs] and
    [tree]. *)
Theorem snapshot_written_is_adopted (env : Env) (root : list (string * FsNode)) :
  production env = true → foundationRoot env = Some root →
  snapshotWritable env = true →
  getValidatedSnapshotFromDisk jsonParse env (computeDocsVersion root) = None →
  let first := getSnapshot' env coldCache in
  let written :=
    {| payload := createSnapshot' root;
       __meta := {| createdAt := IsoDate.toISOString (now env);
                    schemaVersion := SNAPSHOT_SCHEMA_VERSION;
                    version := computeDocsVersion root |} |} in
  (∃ parsed, jsonParse (jsonStringify written) = Some parsed ∧
             persistedShape written parsed) →
  let second := getSnapshot' (envAfter first) coldCache in
  snapshotFile (envAfter first) = FileText (jsonStringify written) ∧
  rebuilds (events first) = 1 ∧ rebuilds (events second) = 0 ∧
  (∃ docItems slugItems treeItems entryItems,
     returned second = Adopted docItems slugItems treeItems entryItems) ∧
  envAfter second = envAfter first.
Proof.
  intros Hp Hr Hw Hmiss first written (parsed & Hparse & Hshape) second.
  assert (envAfter first
          = {| foundationRoot := Some root; production := true;
               snapshotFile := FileText (jsonStringify written);
               snapshotWritable := true; now := now env |}) as Hafter.
  { subst first. unfold getSnapshot. rewrite Hr, Hp. cbn [negb coldCache cachedSnapshot].
    rewrite Hmiss. cbn [envAfter]. unfold writeSnapshotToDisk.
    by rewrite Hw, Hr, Hp. }
  assert (rebuilds (events first) = 1) as Hfirst.
  { subst first. unfold getSnapshot. rewrite Hr, Hp. cbn [negb coldCache cachedSnapshot].
    rewrite Hmiss. cbn [events]. rewrite rebuilds_cons_other, !rebuilds_app by done.
    rewrite rebuilds_buildEvents.
    destruct (snapshotFile env); reflexivity. }
  destruct Hshape as (fields & meta & vf & docItems & treeItems & -> & Hm & Hsv & Hver
                      & Hfc & Hmt & Hdocs & Htree).
  unfold written in Hsv, Hfc, Hmt. cbn [__meta schemaVersion version] in Hsv, Hfc, Hmt.
  rewrite computeDocsVersion_latest in Hfc, Hmt. cbn [fileCount maxMtimeMs] in Hfc, Hmt.
  assert (getValidatedSnapshotFromDisk jsonParse (envAfter first) (computeDocsVersion root)
          = Some (Adopted docItems (default [] (arrayItems (getField "slugs" fields)))
                          treeItems
                          (default [] (arrayItems (getField "searchEntries" fields)))))
    as Hread.
  { apply getValidatedSnapshotFromDisk_Some. rewrite Hafter. cbn [snapshotFile].
    eexists _, fields, meta, vf, _, _, docItems, treeItems.
    split; [reflexivity|]. split; [exact Hparse|]. split; [exact Hm|].
    split; [exact Hsv|]. split; [exact Hver|]. split; [exact Hfc|].
    split; [exact Hmt|]. split; [apply computeDocsVersion_latest|]. done. }
  split; [by rewrite Hafter|]. split; [exact Hfirst|].
  subst second.
  erewrite (getSnapshot_cold_adopts _ root); [|by rewrite Hafter..|exact Hread].
  cbn [events returned envAfter]. split; [|split; [by eexists _, _, _, _|done]].
  rewrite rebuilds_cons_other by done. rewrite Hafter. cbn [snapshotFile]. reflexivity.
Qed.

End SnapshotCacheFacts.


Lemma getSnapshot_detects_by_times_witness :
  (returned (getSnapshot codeUnitCompare plainMatter plainRender tinyParse tinyStringify
               (envOver editedRoot false false NoFile)
               (warmCache (computeDocsVersion sampleRoot)))
   = Built (createSnapshot codeUnitCompare plainMatter plainRender editedRoot)) ∧
  (returned (getSnapshot codeUnitCompare plainMatter plainRender tinyParse tinyStringify
               (envOver renamedRoot false false NoFile)
               (warmCache (computeDocsVersion sampleRoot)))
   = Built emptySnapshot).
Proof.
  split.
  - apply (proj1 (getSnapshot_detects_by_times codeUnitCompare plainMatter plainRender
                    tinyParse tinyStringify (envOver editedRoot false false NoFile)
                    (warmCache (computeDocsVersion sampleRoot)) (Built emptySnapshot)
                    sampleRoot editedRoot eq_refl eq_refl eq_refl eq_refl)).
    exists (Qc_of_Z 12). split; [apply list_elem_of_here|]. split; [reflexivity|].
    intros t Ht. simpl in Ht. set_unfold in Ht.
    destruct Ht as [->|[->|[->|[]]]]; reflexivity.
  - apply (proj2 (getSnapshot_detects_by_times codeUnitCompare plainMatter plainRender
                    tinyParse tinyStringify (envOver renamedRoot false false NoFile)
                    (warmCache (computeDocsVersion sampleRoot)) (Built emptySnapshot)
                    sampleRoot renamedRoot eq_refl eq_refl eq_refl eq_refl)).
    apply perm_swap.
Defined.

Lemma snapshot_written_is_adopted_witness :
  rebuilds (events (getSnapshot codeUnitCompare plainMatter plainRender tinyParse
                      sampleStringify
                      (envAfter (getSnapshot codeUnitCompare plainMatter plainRender
                                   tinyParse sampleStringify
                                   (envOver sampleRoot true true NoFile) coldCache))
                      coldCache)) = 0.
Proof.
  apply (snapshot_written_is_adopted codeUnitCompare plainMatter plainRender tinyParse
           sampleStringify (envOver sampleRoot true true NoFile) sampleRoot
           eq_refl eq_refl eq_refl eq_refl).
  eexists. split; [reflexivity|].
  eexists _, _, _, _, _. repeat split; reflexivity.
Defined.

(** ** The documents of a content directory *)

Lemma concat_Permutation {A} (L L' : list (list A)) :
  Permutation L L' → Permutation (concat L) (concat L').
Proof.
  induction 1 as [|x l l' _ IH|x y l|l l' l'' _ IH1 _ IH2]; cbn [concat].
  - reflexivity.
  - by rewrite IH.
  - rewrite !app_assoc. f_equiv. apply Permutation_app_comm.
  - by rewrite IH1.
Qed.

Lemma indexOf_app_None c a b :
  Js.indexOf c a = None → Js.indexOf c b = None → Js.indexOf c (a +:+ b) = None.
Proof.
  intros Ha Hb. induction a as [|x a IH]; [done|].
  rewrite str_app_cons. cbn [Js.indexOf] in *.
  destruct (Ascii.eqb x c); [done|].
  destruct (Js.indexOf c a); [done|]. by rewrite IH.
Qed.

Lemma indexOf_join_None c l :
  c ≠ "/"%char → Forall (λ s, Js.indexOf c s = None) l →
  Js.indexOf c (Js.join "/" l) = None.
Proof.
  intros Hc. induction 1 as [|x l Hx Hl IH]; [done|].
  destruct l as [|y l]; [done|].
  change (Js.join "/" (x :: y :: l)) with (x +:+ "/" +:+ Js.join "/" (y :: l)).
  apply indexOf_app_None; [done|]. rewrite str_app_cons.
  change ("" +:+ ?s) with s. by apply indexOf_cons_other.
Qed.

Lemma join_nonempty x l : x ≠ "" → Js.isEmpty (Js.join "/" (x :: l)) = false.
Proof.
  intros Hx. destruct x as [|c x]; [done|]. destruct l; [done|].
  change (Js.join "/" (String c x :: s :: l))
    with (String c x +:+ "/" +:+ Js.join "/" (s :: l)).
  by rewrite str_app_cons.
Qed.

Lemma nextRelativePath_join pre name :
  Forall entryName pre → entryName name →
  nextRelativePath (Js.join "/" pre) name = Js.join "/" (pre ++ [name]).
Proof.
  intros Hpre [Hc Hb]. unfold nextRelativePath, toPosixPath.
  destruct pre as [|x pre].
  - cbn. by apply backslashToSlash_fixed.
  - inversion Hpre as [|? ? [(Hx & _) _] _]; subst.
    rewrite join_nonempty by done. rewrite join_app by done.
    change (Js.join "/" [name]) with name.
    apply backslashToSlash_fixed. apply indexOf_app_None.
    + apply indexOf_join_None; [done|].
      eapply Forall_impl; [exact Hpre|]. by intros s [_ ?].
    + rewrite str_app_cons. change ("" +:+ ?s) with s. by apply indexOf_cons_other.
Qed.

Lemma join_inj a b :
  a ≠ [] → b ≠ [] → Forall noSlash a → Forall noSlash b →
  Js.join "/" a = Js.join "/" b → a = b.
Proof.
  intros Na Nb Ha Hb H. apply (f_equal (Js.split "/")) in H.
  by rewrite !split_join in H.
Qed.

Lemma entryName_noSlash l : Forall entryName l → Forall noSlash l.
Proof. intros H. eapply Forall_impl; [exact H|]. by intros s [(_ & _ & _ & ?) _]. Qed.

Lemma entryName_childSegment l : Forall entryName l → Forall childSegment l.
Proof. intros H. eapply Forall_impl; [exact H|]. by intros s [? _]. Qed.

Lemma wellFormed_entries entries :
  wellFormed (FsDir entries) ↔
  NoDup (fst <$> entries) ∧ Forall (λ entry, entryName entry.1) entries ∧
  Forall (λ entry, wellFormed entry.2) entries.
Proof. cbn [wellFormed]. by rewrite foldr_and_Forall. Qed.

Lemma docSegments_heads entries segs :
  segs ∈ docSegments (FsDir entries) → ∃ name rest, segs = name :: rest ∧ name ∈ fst <$> entries.
Proof.
  cbn [docSegments]. induction entries as [|[name n] entries IH]; cbn [fmap list_fmap concat].
  - by rewrite elem_of_nil.
  - rewrite elem_of_app. intros [H|H].
    + cbn [fst snd] in H. exists name. destruct n as [|children].
      * destruct (isDocName name); [|by apply elem_of_nil in H].
        apply list_elem_of_singleton in H as ->. eexists. split; [done|]. apply list_elem_of_here.
      * apply list_elem_of_fmap in H as (rest & -> & _). eexists. split; [done|].
        apply list_elem_of_here.
    + destruct (IH H) as (name' & rest & -> & Hin). exists name', rest. split; [done|].
      by apply list_elem_of_further.
Qed.

Lemma docSegments_cons name n entries :
  docSegments (FsDir ((name, n) :: entries))
  = match n with
    | FsDir _ => (λ segs, name :: segs) <$> docSegments n
    | FsFile _ _ => if isDocName name then [[name]] else []
    end ++ docSegments (FsDir entries).
Proof. reflexivity. Qed.

Lemma docSegments_NoDup n : wellFormed n → NoDup (docSegments n).
Proof.
  induction n as [|entries IH] using FsNode_nested_ind; [constructor|].
  rewrite wellFormed_entries. intros (Hnames & _ & Hsub).
  induction entries as [|[name n] entries IHe]; [constructor|].
  rewrite docSegments_cons. rewrite fmap_cons in Hnames. cbn [fst] in Hnames.
  apply NoDup_cons in Hnames as [Hname Hnames].
  apply Forall_cons in IH as [IHn IH]. apply Forall_cons in Hsub as [Hn Hsub].
  cbn [snd] in IHn, Hn. apply NoDup_app. split; [|split].
  - destruct n as [|children].
    + destruct (isDocName name); [apply NoDup_singleton|constructor].
    + apply NoDup_fmap_2; [|by apply IHn]. by intros x y [= ->].
  - intros segs Hin Hrest.
    apply docSegments_heads in Hrest as (name' & rest & -> & Hin').
    assert (name' = name) as ->; [|done].
    destruct n as [|children].
    + destruct (isDocName name); [|by apply elem_of_nil in Hin].
      by apply list_elem_of_singleton in Hin as [= -> _].
    + by apply list_elem_of_fmap in Hin as (t & [= -> _] & _).
  - by apply IHe.
Qed.

Lemma docSegments_shape n :
  wellFormed n → Forall leadsToDocument (docSegments n).
Proof.
  induction n as [|entries IH] using FsNode_nested_ind; [constructor|].
  rewrite wellFormed_entries. intros (_ & Hnames & Hsub).
  induction entries as [|[name n] entries IHe]; [constructor|].
  rewrite docSegments_cons.
  apply Forall_cons in IH as [IHn IH]. apply Forall_cons in Hsub as [Hn Hsub].
  apply Forall_cons in Hnames as [Hname Hnames].
  cbn [fst snd] in IHn, Hn, Hname. apply Forall_app. split; [|by apply IHe].
  destruct n as [|children].
  - destruct (isDocName name) eqn:E; [|constructor].
    constructor; [|constructor]. split; [by constructor|]. by exists [], name.
  - apply Forall_fmap. eapply Forall_impl; [by apply IHn|].
    intros segs [Hs (dir & last & -> & Hd)]. split; [by constructor|].
    by exists (name :: dir), last.
Qed.

Section ReadDocs.
  Variable localeCompare : string → string → Z.
  Variable matter : string → list (string * JsValue) * string.

  Local Abbreviation readDocsIn' := (readDocsIn localeCompare matter).

Lemma readDocsIn_Permutation currentDir entries :
  Permutation (readDocsIn' currentDir (FsDir entries))
    (concat ((λ entry : string * FsNode,
                let next := nextRelativePath currentDir entry.1 in
                match entry.2 with
                | FsDir _ => readDocsIn' next entry.2
                | FsFile _ source =>
                    if isDocName entry.1 then [rawDocOf matter next entry.1 source]
                    else []
                end) <$> entries)).
Proof.
  cbn [readDocsIn]. rewrite (arraySort_perm _ _). by rewrite <- list_fmap_compose.
Qed.

Lemma rawRelPath_rawDocOf relPath name source :
  rawRelPath (rawDocOf matter relPath name source) = relPath.
Proof. unfold rawDocOf. by destruct (matter source). Qed.

Lemma readDocsIn_paths n : ∀ pre,
  wellFormed n → Forall entryName pre →
  Permutation (rawRelPath <$> readDocsIn' (Js.join "/" pre) n)
    ((λ segs, Js.join "/" (pre ++ segs)) <$> docSegments n).
Proof.
  induction n as [|entries IH] using FsNode_nested_ind; intros pre; [done|].
  rewrite wellFormed_entries. intros (_ & Hnames & Hsub) Hpre.
  rewrite readDocsIn_Permutation.
  induction entries as [|[name n] entries IHe]; [done|].
  rewrite docSegments_cons. cbn [fmap list_fmap concat]. rewrite !fmap_app.
  apply Forall_cons in IH as [IHn IH]. apply Forall_cons in Hsub as [Hn Hsub].
  apply Forall_cons in Hnames as [Hname Hnames].
  cbn [fst snd] in IHn, Hn, Hname |- *. cbn zeta.
  rewrite nextRelativePath_join by done.
  f_equiv; [|by apply IHe].
  destruct n as [mtimeMs source|children].
  - destruct (isDocName name); [|done]. cbn [fmap list_fmap].
    by rewrite rawRelPath_rawDocOf.
  - rewrite (IHn (pre ++ [name])); [|done|].
    + assert ((λ segs, Js.join "/" ((pre ++ [name]) ++ segs)) <$> docSegments (FsDir children)
              = (λ segs, Js.join "/" (pre ++ segs))
                  <$> ((λ segs, name :: segs) <$> docSegments (FsDir children))) as ->;
        [|done].
      rewrite <- list_fmap_compose. apply list_fmap_ext.
      intros i segs _. cbn. by rewrite <- app_assoc.
    + apply Forall_app. split; [done|by constructor].
Qed.

End ReadDocs.

(** ** Document names, slugs and titles *)

Lemma lastIndexOf_lt c s i : lastIndexOf c s = Some i → i < String.length s.
Proof.
  revert i. induction s as [|a s IH]; intros i; cbn [lastIndexOf]; [done|].
  destruct (lastIndexOf c s) as [j|].
  - intros [= <-]. specialize (IH j eq_refl). simpl. lia.
  - destruct (Ascii.eqb a c); [|done]. intros [= <-]. simpl. lia.
Qed.

Lemma sliceTo_length n s : n ≤ String.length s → String.length (Js.sliceTo n s) = n.
Proof.
  revert n. induction s as [|c s IH]; intros [|n]; simpl; try lia.
  intros H. rewrite IH; lia.
Qed.

Lemma isDocName_split name :
  isDocName name = true →
  ∃ base ext, name = base +:+ ext ∧ base ≠ "" ∧
              (Js.toLowerCase ext = ".md" ∨ Js.toLowerCase ext = ".mdx").
Proof.
  unfold isDocName, extname. intros H.
  destruct (lastIndexOf "." name) as [[|i]|] eqn:L; [by cbn in H| |by cbn in H].
  destruct (String.eqb name ".."); [by cbn in H|].
  exists (Js.sliceTo (S i) name), (Js.sliceFrom (S i) name).
  split; [by rewrite sliceTo_sliceFrom|]. split.
  - apply lastIndexOf_lt in L. destruct name; [simpl in L; lia|done].
  - apply orb_true_iff in H as [H|H]; apply String.eqb_eq in H; auto.
Qed.

Lemma stripDocExtension_ext s ext :
  Js.toLowerCase ext = ".md" ∨ Js.toLowerCase ext = ".mdx" →
  stripDocExtension (s +:+ ext) = s ∧ isMarkdownPath (s +:+ ext) = true.
Proof.
  intros H. unfold isMarkdownPath, stripDocExtension.
  rewrite toLowerCase_app.
  assert (String.length ext = String.length (Js.toLowerCase ext)) as Hlen
    by (by rewrite toLowerCase_length).
  destruct H as [H|H]; rewrite H in *.
  - rewrite endsWith_app. split; [|done]. change 3 with (String.length ".md").
    rewrite <- Hlen. apply dropEnd_app.
  - assert (Js.endsWith ".md" (Js.toLowerCase s +:+ ".mdx") = false) as ->.
    { unfold Js.endsWith. rewrite str_length_app.
      replace (String.length (Js.toLowerCase s) + String.length ".mdx" - String.length ".md")
        with (String.length (Js.toLowerCase s) + 1) by (simpl; lia).
      rewrite sliceFrom_app_tail. apply andb_false_r. }
    rewrite endsWith_app. split; [|done]. change 4 with (String.length ".mdx").
    rewrite <- Hlen. apply dropEnd_app.
Qed.

Lemma isDocName_stripDocExtension name :
  isDocName name = true → stripDocExtension name ≠ "".
Proof.
  intros (base & ext & -> & Hbase & Hext)%isDocName_split.
  by rewrite (proj1 (stripDocExtension_ext base ext Hext)).
Qed.

Lemma isMarkdownPath_join dir name :
  isDocName name = true → isMarkdownPath (Js.join "/" (dir ++ [name])) = true.
Proof.
  intros (base & ext & -> & _ & Hext)%isDocName_split.
  destruct dir as [|d dir].
  - cbn [app Js.join]. by apply stripDocExtension_ext.
  - rewrite join_app by done. change (Js.join "/" [?x]) with x.
    rewrite <- !str_app_assoc. by apply stripDocExtension_ext.
Qed.

Section ReadDocsRecords.
  Variable localeCompare : string → string → Z.
  Variable matter : string → list (string * JsValue) * string.

  Local Abbreviation readDocsIn' := (readDocsIn localeCompare matter).

Lemma rawDocOf_slug_title relPath name source :
  isDocName name = true →
  let r := rawDocOf matter relPath name source in
  rawSlug r = Js.split "/" (stripDocExtension (rawRelPath r)) ∧ rawTitle r ≠ "".
Proof.
  intros Hn. apply isDocName_stripDocExtension in Hn.
  unfold rawDocOf. destruct (matter source) as [data content].
  cbn [rawSlug rawRelPath rawTitle]. split; [done|].
  repeat case_match; try done; by apply isEmpty_false, negb_true_iff.
Qed.

Lemma readDocsIn_records n : ∀ currentDir r,
  r ∈ readDocsIn' currentDir n →
  ∃ relPath name source,
    r = rawDocOf matter relPath name source ∧ isDocName name = true.
Proof.
  induction n as [|entries IH] using FsNode_nested_ind; intros currentDir r.
  - cbn. by rewrite elem_of_nil.
  - rewrite readDocsIn_Permutation.
    induction entries as [|[name n] entries IHe]; cbn [fmap list_fmap concat].
    + by rewrite elem_of_nil.
    + apply Forall_cons in IH as [IHn IH]. rewrite elem_of_app. intros [H|H].
      * cbn [fst snd] in H, IHn. cbn zeta in H. destruct n as [mtimeMs source|children].
        -- destruct (isDocName name) eqn:E; [|by apply elem_of_nil in H].
           apply list_elem_of_singleton in H as ->. by eexists _, _, _.
        -- by eapply IHn.
      * by apply IHe.
Qed.

End ReadDocsRecords.

(** ** The snapshot as a whole *)

Section SnapshotFacts.
  Variable localeCompare : string → string → Z.
  Variable matter : string → list (string * JsValue) * string.
  Variable renderMarkdownToHtml :
    list (string * FsNode) → string → string → gset string → string * list DocHeading.

  Local Abbreviation createSnapshot' :=
    (createSnapshot localeCompare matter renderMarkdownToHtml).
  Local Abbreviation readDocsRecursively' := (readDocsRecursively localeCompare matter).

Lemma createSnapshot_relPaths root :
  Permutation (relPath <$> docs (createSnapshot' root))
    (rawRelPath <$> readDocsRecursively' root).
Proof.
  unfold createSnapshot. cbn [docs].
  rewrite <- list_fmap_compose, (arraySort_perm _ _). reflexivity.
Qed.

Lemma createSnapshot_docs root d :
  d ∈ docs (createSnapshot' root) →
  ∃ r, r ∈ readDocsRecursively' root ∧
       relPath d = rawRelPath r ∧ slug d = rawSlug r ∧ title d = rawTitle r.
Proof.
  unfold createSnapshot. cbn [docs].
  intros (r & -> & Hr)%list_elem_of_fmap. exists r. split; [|done].
  by rewrite (arraySort_perm _ _) in Hr.
Qed.

Lemma createSnapshot_slug_title root :
  Forall (λ d, slug d = Js.split "/" (stripDocExtension (relPath d)) ∧ title d ≠ "")
    (docs (createSnapshot' root)).
Proof.
  apply Forall_forall. intros d (r & Hr & -> & -> & ->)%createSnapshot_docs.
  apply readDocsIn_records in Hr as (p & name & source & -> & Hname).
  by apply rawDocOf_slug_title.
Qed.

(** X22. The parts of a snapshot agree.  Every document has a title that
    is not empty and the slug its [relPath] gives once the extension is
    taken off; [slugs] and [searchEntries] list the documents one for one, in
    their order; and the files of [tree] are the file nodes of the
    documents, one for each document and no other. *)
Theorem createSnapshot_consistent (root : list (string * FsNode)) :
  let snapshot := createSnapshot' root in
  Forall (λ d, slug d = Js.split "/" (stripDocExtension (relPath d)) ∧ title d ≠ "")
    (docs snapshot) ∧
  slugs snapshot = slug <$> docs snapshot ∧
  Forall2 (λ e d, entryRelPath e = relPath d ∧ entrySlug e = slug d ∧
                  entryTitle e = title d ∧ entryDescription e = description d)
    (searchEntries snapshot) (docs snapshot) ∧
  Permutation (treeFiles (tree snapshot)) (fileNode <$> docs snapshot).
Proof.
  intros snapshot. split; [|split; [|split]].
  - apply createSnapshot_slug_title.
  - reflexivity.
  - subst snapshot. unfold createSnapshot. cbn [searchEntries docs].
    induction (_ <$> arraySort _ _) as [|d l IH]; constructor; [done|exact IH].
  - apply treeFiles_buildDocsTree.
Qed.

End SnapshotFacts.

Lemma getStaticProps_slug docs d0 :
  d0 ∈ docs →
  Forall (λ d, slug d = Js.split "/" (stripDocExtension (relPath d))) docs →
  ∃ d, getStaticProps docs (Some (slug d0)) = Some (Some d) ∧
       d ∈ docs ∧ slug d = slug d0.
Proof.
  intros Hd0 Hdocs. rewrite Forall_forall in Hdocs.
  pose proof (Hdocs d0 Hd0) as Hslug0.
  pose proof (split_nonempty "/" (stripDocExtension (relPath d0))) as Hne.
  rewrite <- Hslug0 in Hne.
  destruct (find_is_Some (hasSlugKey (Js.join "/" (slug d0))) docs) as [d Hfind].
  { exists d0. split; [done|]. unfold hasSlugKey. apply String.eqb_refl. }
  exists d. split.
  - unfold getStaticProps, findDocBySlug. cbn [default from_option Datatypes.id].
    destruct docs as [|d1 rest]; [by apply elem_of_nil in Hd0|].
    destruct (slug d0) as [|s0 l0] eqn:E0; [done|]. by rewrite Hfind.
  - apply find_some in Hfind as [Hin Hkey]. apply list_elem_of_In in Hin.
    split; [done|]. unfold hasSlugKey in Hkey. apply String.eqb_eq in Hkey.
    rewrite (Hdocs d Hin), Hslug0 in Hkey |- *.
    rewrite !join_split in Hkey. by rewrite Hkey.
Qed.

Section SnapshotPaths.
  Variable localeCompare : string → string → Z.
  Variable matter : string → list (string * JsValue) * string.
  Variable renderMarkdownToHtml :
    list (string * FsNode) → string → string → gset string → string * list DocHeading.

  Local Abbreviation createSnapshot' :=
    (createSnapshot localeCompare matter renderMarkdownToHtml).

Lemma leadsToDocument_nonempty segs : leadsToDocument segs → segs ≠ [].
Proof. intros [_ (dir & name & -> & _)]. by destruct dir. Qed.

Lemma readDocsRecursively_paths root :
  wellFormed (FsDir root) →
  Permutation (rawRelPath <$> readDocsRecursively localeCompare matter root)
    (Js.join "/" <$> docSegments (FsDir root)).
Proof.
  intros Hwf. unfold readDocsRecursively.
  by rewrite (readDocsIn_paths localeCompare matter (FsDir root) [] Hwf (List.Forall_nil _)).
Qed.

(** X23. In a content directory where every entry has a name (not empty,
    not [.] or [..], without slash or backslash) and no directory lists a
    name twice, the documents of the snapshot have pairwise distinct
    [relPath]s, so that [relPath] is a key; and every [relPath] stays inside
    the content root, holds no backslash and names a Markdown file. *)
Theorem createSnapshot_distinct_paths (root : list (string * FsNode)) :
  wellFormed (FsDir root) →
  let snapshot := createSnapshot' root in
  NoDup (relPath <$> docs snapshot) ∧ relPathIsKey (docs snapshot) ∧
  Forall (λ d, insideRoot (relPath d) ∧ noBackslash (relPath d) ∧
               isMarkdownPath (relPath d) = true) (docs snapshot).
Proof.
  intros Hwf snapshot.
  pose proof (docSegments_shape _ Hwf) as Hshape.
  pose proof (docSegments_NoDup _ Hwf) as Hnodup.
  assert (Permutation (relPath <$> docs snapshot)
            (Js.join "/" <$> docSegments (FsDir root))) as Hperm.
  { subst snapshot. by rewrite createSnapshot_relPaths, readDocsRecursively_paths. }
  assert (NoDup (relPath <$> docs snapshot)) as Hdistinct.
  { rewrite Hperm. apply NoDup_fmap_2_strong; [|done].
    rewrite Forall_forall in Hshape. intros a b Ha Hb.
    pose proof (Hshape a Ha) as Sa. pose proof (Hshape b Hb) as Sb.
    apply join_inj; try (by apply leadsToDocument_nonempty);
      apply entryName_noSlash; [apply Sa|apply Sb]. }
  split; [done|]. split; [by apply NoDup_relPathIsKey|].
  enough (Forall (λ p, insideRoot p ∧ noBackslash p ∧ isMarkdownPath p = true)
            (relPath <$> docs snapshot)) as H by (by apply Forall_fmap in H).
  rewrite Hperm. apply Forall_fmap.
  eapply Forall_impl; [exact Hshape|]. intros segs Hs. cbn.
  pose proof (leadsToDocument_nonempty _ Hs) as Hne.
  destruct Hs as [Hnames (dir & name & -> & Hdoc)]. split; [|split].
  - unfold insideRoot. rewrite split_join; [|done|by apply entryName_noSlash].
    by apply entryName_childSegment.
  - apply indexOf_join_None; [done|]. eapply Forall_impl; [exact Hnames|].
    by intros s [_ ?].
  - by apply isMarkdownPath_join.
Qed.

(** X24. Every path [getStaticPaths] lists for a snapshot is served: for
    none of them does [getStaticProps] answer [notFound], and for the path of
    a slug the page shows a document of the snapshot with that very slug. *)
Theorem static_paths_are_served (root : list (string * FsNode)) :
  let snapshot := createSnapshot' root in
  Forall (λ path,
            ∃ page, getStaticProps (docs snapshot) (Some path) = Some page ∧
                    (path ≠ [] →
                     ∃ d, page = Some d ∧ d ∈ docs snapshot ∧ slug d = path))
    (getStaticPaths (slugs snapshot)).
Proof.
  intros snapshot. unfold getStaticPaths. constructor.
  - unfold getStaticProps. cbn [default from_option Datatypes.id length Nat.ltb Nat.leb].
    destruct (findDocBySlug _ _); by eexists.
  - pose proof (createSnapshot_slug_title localeCompare matter renderMarkdownToHtml root)
      as Hdocs. fold snapshot in Hdocs.
    change (slugs snapshot) with (slug <$> docs snapshot).
    apply Forall_fmap, Forall_forall. intros d0 Hd0.
    destruct (getStaticProps_slug (docs snapshot) d0 Hd0) as (d & Hprops & Hd).
    { eapply Forall_impl; [exact Hdocs|]. by intros ? [? _]. }
    exists (Some d). split; [exact Hprops|]. intros _. by exists d.
Qed.

End SnapshotPaths.

Lemma wellFormed_sampleRoot : wellFormed (FsDir sampleRoot).
Proof.
  cbn [wellFormed sampleRoot foldr fmap list_fmap fst snd].
  assert (entryName "b.md" ∧ entryName "sub" ∧ entryName "a.md" ∧ entryName "pic.png")
    as (Hb & Hsub & Ha & Hpic) by (by repeat split).
  split; [by apply (bool_decide_unpack (NoDup ["b.md"; "sub"]))|].
  split; [by repeat constructor|]. split; [done|]. split; [|done].
  split; [by apply (bool_decide_unpack (NoDup ["a.md"; "pic.png"]))|].
  split; [by repeat constructor|done].
Qed.

Lemma createSnapshot_distinct_paths_witness :
  NoDup (relPath <$> docs (createSnapshot codeUnitCompare plainMatter plainRender
                             sampleRoot)) ∧
  relPath <$> docs (createSnapshot codeUnitCompare plainMatter plainRender sampleRoot)
  = ["b.md"; "sub/a.md"].
Proof.
  split; [|reflexivity].
  apply (createSnapshot_distinct_paths codeUnitCompare plainMatter plainRender
           sampleRoot wellFormed_sampleRoot).
Defined.

(** ** Prefixes *)

Lemma startsWith_app_r needle a b :
  Js.startsWith needle a = true → Js.startsWith needle (a +:+ b) = true.
Proof.
  revert a. induction needle as [|c needle IH]; intros [|d a]; cbn [Js.startsWith]; try done.
  rewrite str_app_cons. cbn [Js.startsWith]. rewrite !andb_true_iff.
  intros [-> H]. auto.
Qed.

Lemma startsWith_self_app w x : Js.startsWith w (w +:+ x) = true.
Proof.
  induction w as [|c w IH]; [by destruct x|].
  rewrite str_app_cons. cbn [Js.startsWith]. by rewrite Ascii.eqb_refl, IH.
Qed.

Lemma startsWith_comparable a : ∀ b s,
  Js.startsWith a s = true → Js.startsWith b s = true →
  Js.startsWith a b = true ∨ Js.startsWith b a = true.
Proof.
  induction a as [|c a IH]; intros b s Ha Hb; [by left; destruct b|].
  destruct b as [|d b]; [by right|]. destruct s as [|e s]; [done|].
  cbn [Js.startsWith] in *.
  apply andb_true_iff in Ha as [Hc Ha]. apply andb_true_iff in Hb as [Hd Hb].
  apply Ascii.eqb_eq in Hc as ->. apply Ascii.eqb_eq in Hd as ->.
  rewrite Ascii.eqb_refl. cbn [andb]. by eapply IH.
Qed.

Lemma startsWith_length w : ∀ s,
  Js.startsWith w s = true → String.length w ≤ String.length s.
Proof.
  induction w as [|c w IH]; intros [|d s]; cbn [Js.startsWith String.length]; try done;
    [lia|]. rewrite andb_true_iff. intros [_ H]. apply IH in H. lia.
Qed.

Lemma startsWith_split w : ∀ s,
  Js.startsWith w s = true → s = w +:+ Js.sliceFrom (String.length w) s.
Proof.
  induction w as [|c w IH]; intros [|d s]; cbn [Js.startsWith]; try done.
  rewrite andb_true_iff. intros [->%Ascii.eqb_eq H].
  rewrite str_app_cons. cbn [String.length Js.sliceFrom]. f_equal. by apply IH.
Qed.

(** ** Classes of byte sequences *)

Lemma prefixFree_check class :
  forallb (λ w, forallb (λ w', implb (Js.startsWith w w') (String.eqb w w')) class) class
  = true → prefixFree class.
Proof.
  intros H w w' Hw Hw' Hs. rewrite forallb_forall in H.
  specialize (H w (proj1 (list_elem_of_In _ _) Hw)). rewrite forallb_forall in H.
  specialize (H w' (proj1 (list_elem_of_In _ _) Hw')). rewrite Hs in H.
  by apply String.eqb_eq.
Qed.

Lemma whiteSpace_prefixFree : prefixFree Js.whiteSpace.
Proof. apply prefixFree_check. vm_compute. reflexivity. Qed.

Lemma lineTerminators_prefixFree : prefixFree Js.lineTerminators.
Proof. apply prefixFree_check. vm_compute. reflexivity. Qed.

Lemma classAt_app class s r w :
  prefixFree class → Js.classAt class s = Some w → Js.classAt class (s +:+ r) = Some w.
Proof.
  intros Hfree Hs. apply classAt_Some in Hs as [Hw Hs].
  destruct (Js.classAt class (s +:+ r)) as [w'|] eqn:E.
  - apply classAt_Some in E as [Hw' Hs']. f_equal.
    destruct (startsWith_comparable w w' (s +:+ r)) as [H|H];
      [by apply startsWith_app_r|done| |].
    + symmetry. by apply Hfree.
    + by apply Hfree.
  - exfalso. apply classAt_None in E. rewrite Forall_forall in E.
    specialize (E w Hw). by rewrite (startsWith_app_r _ _ _ Hs) in E.
Qed.

Lemma classAt_member class w x :
  prefixFree class → w ∈ class → Js.classAt class (w +:+ x) = Some w.
Proof.
  intros Hfree Hw.
  destruct (Js.classAt class (w +:+ x)) as [w'|] eqn:E.
  - apply classAt_Some in E as [Hw' Hs']. f_equal.
    destruct (startsWith_comparable w w' (w +:+ x)) as [H|H];
      [apply startsWith_self_app|done| |].
    + symmetry. by apply Hfree.
    + by apply Hfree.
  - exfalso. apply classAt_None in E. rewrite Forall_forall in E.
    specialize (E w Hw). by rewrite startsWith_self_app in E.
Qed.

Lemma classAt_prefix class p r :
  Js.classAt class (p +:+ r) = None → Js.classAt class p = None.
Proof.
  rewrite !classAt_None, !Forall_forall. intros H w Hw. specialize (H w Hw).
  destruct (Js.startsWith w p) eqn:E; [|done].
  by rewrite (startsWith_app_r _ _ _ E) in H.
Qed.

(** ** [trim] *)

Lemma spaceAt_app s r w : Js.spaceAt s = Some w → Js.spaceAt (s +:+ r) = Some w.
Proof. apply classAt_app, whiteSpace_prefixFree. Qed.

Lemma spaceAt_member w x : w ∈ Js.whiteSpace → Js.spaceAt (w +:+ x) = Some w.
Proof. apply classAt_member, whiteSpace_prefixFree. Qed.

Lemma dropSpaces_skip k s : Js.dropSpaces k s = Js.dropSpaces 0 (Js.sliceFrom k s).
Proof.
  revert k. induction s as [|c s IH]; intros [|k]; try reflexivity.
  cbn [Js.dropSpaces Js.sliceFrom]. apply IH.
Qed.

Lemma trimStart_at_space s w :
  Js.spaceAt s = Some w →
  Js.trimStart s = Js.trimStart (Js.sliceFrom (String.length w) s).
Proof.
  intros Hw. pose proof (classAt_Some _ _ _ Hw) as [Hin Hs].
  destruct (whiteSpace_shape w Hin) as [Hne _].
  destruct s as [|c s]; [by destruct w|]. unfold Js.trimStart at 1.
  cbn [Js.dropSpaces]. rewrite Hw, dropSpaces_skip.
  destruct w as [|d w]; [done|]. cbn [String.length Js.sliceFrom].
  by replace (S (String.length w) - 1) with (String.length w) by lia.
Qed.

Lemma trimStart_space w x :
  w ∈ Js.whiteSpace → Js.trimStart (w +:+ x) = Js.trimStart x.
Proof.
  intros Hw. rewrite (trimStart_at_space _ w).
  - by rewrite <- (Nat.add_0_r (String.length w)), sliceFrom_app.
  - by apply spaceAt_member.
Qed.

Lemma dropSpaces_head s : ∀ k,
  Js.dropSpaces k s = "" ∨ Js.spaceAt (Js.dropSpaces k s) = None.
Proof.
  induction s as [|c s IH]; intros k; [by left|]. cbn [Js.dropSpaces].
  destruct k as [|k]; [|apply IH].
  destruct (Js.spaceAt (String c s)) eqn:E; [apply IH|by right].
Qed.

Lemma dropSpaces_suffix s : ∀ k, ∃ n, Js.dropSpaces k s = Js.sliceFrom n s.
Proof.
  induction s as [|c s IH]; intros k; [by exists 0|]. cbn [Js.dropSpaces].
  destruct k as [|k].
  - destruct (Js.spaceAt (String c s)) as [w|].
    + destruct (IH (String.length w - 1)) as [n Hn]. by exists (S n).
    + by exists 0.
  - destruct (IH k) as [n Hn]. by exists (S n).
Qed.

(** White space before a text does not count: the generalisation to a scan
    that is inside a character. *)
Lemma dropSpaces_app r s : ∀ k,
  k ≤ String.length s → Js.dropSpaces k s = "" →
  Js.dropSpaces k (s +:+ r) = Js.dropSpaces 0 r.
Proof.
  induction s as [|c s IH]; intros k Hk Hs.
  - cbn [String.length] in Hk. by replace k with 0 by lia.
  - rewrite str_app_cons. cbn [Js.dropSpaces String.length] in *.
    destruct k as [|k]; [|apply IH; [lia|done]].
    destruct (Js.spaceAt (String c s)) as [w|] eqn:E; [|done].
    rewrite <- str_app_cons, (spaceAt_app _ r w E).
    apply IH; [|done]. apply classAt_Some in E as [_ E].
    apply startsWith_length in E. cbn [String.length] in E. lia.
Qed.

Lemma trimStart_app s r : Js.trimStart s = "" → Js.trimStart (s +:+ r) = Js.trimStart r.
Proof. intros H. apply dropSpaces_app; [lia|done]. Qed.

(** What [trimEnd] takes off is white space. *)
Lemma trimEnd_split s : ∃ r, s = Js.trimEnd s +:+ r ∧ Js.trimStart r = "".
Proof.
  induction s as [|c s (r & Hs & Hr)]; [by exists ""|]. cbn [Js.trimEnd].
  destruct (Js.trimStart (String c s)) eqn:E.
  - by exists (String c s).
  - exists r. split; [|done]. rewrite str_app_cons. by rewrite <- Hs.
Qed.

Lemma trimEnd_idem s : Js.trimEnd (Js.trimEnd s) = Js.trimEnd s.
Proof.
  induction s as [|c s IH]; [reflexivity|]. cbn [Js.trimEnd].
  destruct (Js.trimStart (String c s)) as [|d t] eqn:E; [reflexivity|].
  cbn [Js.trimEnd]. rewrite IH.
  destruct (Js.trimStart (String c (Js.trimEnd s))) eqn:E'; [|reflexivity].
  exfalso. destruct (trimEnd_split s) as (r & Hs & Hr).
  rewrite Hs, <- str_app_cons, (trimStart_app _ r E'), Hr in E. done.
Qed.

Lemma trimEnd_no_space s : Js.spaceAt s = None → Js.spaceAt (Js.trimEnd s) = None.
Proof.
  intros H. destruct (trimEnd_split s) as (r & Hs & _). rewrite Hs in H.
  by apply classAt_prefix in H.
Qed.

Lemma trim_idem s : Js.trim (Js.trim s) = Js.trim s.
Proof.
  unfold Js.trim. destruct (dropSpaces_head s 0) as [H|H]; fold (Js.trimStart s) in H.
  - by rewrite H.
  - rewrite (trimStart_no_space (Js.trimEnd (Js.trimStart s)))
      by (by apply trimEnd_no_space).
    apply trimEnd_idem.
Qed.

Lemma trim_space w : w ∈ Js.whiteSpace → Js.trim w = "".
Proof.
  intros Hw. unfold Js.trim. rewrite <- (str_app_nil_r w), trimStart_space by done.
  reflexivity.
Qed.

(** ** Lines *)

Lemma lineHead_split s : ∃ r, s = Js.lineHead s +:+ r.
Proof.
  induction s as [|c s [r Hr]]; [by exists ""|]. cbn [Js.lineHead].
  destruct (Js.classAt Js.lineTerminators (String c s)).
  - by exists (String c s).
  - exists r. rewrite str_app_cons. by rewrite <- Hr.
Qed.

(** A text on one line: at no place of it does a line terminator start. *)
Lemma oneLine_suffix n : ∀ s, Js.lineHead s = s → Js.lineHead (Js.sliceFrom n s) = Js.sliceFrom n s.
Proof.
  induction n as [|n IH]; intros [|c s] H; try done. cbn [Js.sliceFrom]. apply IH.
  cbn [Js.lineHead] in H. destruct (Js.classAt Js.lineTerminators (String c s)); [done|].
  by injection H.
Qed.

Lemma oneLine_prefix p r : Js.lineHead (p +:+ r) = p +:+ r → Js.lineHead p = p.
Proof.
  induction p as [|c p IH]; [done|]. rewrite str_app_cons. cbn [Js.lineHead].
  destruct (Js.classAt Js.lineTerminators (String c (p +:+ r))) eqn:E; [done|].
  intros [= H]. rewrite <- str_app_cons in E. apply classAt_prefix in E.
  by rewrite E, (IH H).
Qed.

Lemma lineHead_idem s : Js.lineHead (Js.lineHead s) = Js.lineHead s.
Proof.
  induction s as [|c s IH]; [reflexivity|]. cbn [Js.lineHead].
  destruct (Js.classAt Js.lineTerminators (String c s)) eqn:E; [reflexivity|].
  cbn [Js.lineHead]. rewrite IH.
  destruct (lineHead_split s) as [r Hr]. rewrite Hr, <- str_app_cons in E.
  apply classAt_prefix in E. by rewrite E.
Qed.

Lemma oneLine_trim s : Js.lineHead s = s → Js.lineHead (Js.trim s) = Js.trim s.
Proof.
  intros H. unfold Js.trim.
  destruct (dropSpaces_suffix s 0) as [n Hn]. fold (Js.trimStart s) in Hn.
  pose proof (oneLine_suffix n s H) as Hs. rewrite <- Hn in Hs.
  destruct (trimEnd_split (Js.trimStart s)) as (r & Hr & _).
  rewrite Hr in Hs. by apply oneLine_prefix in Hs.
Qed.

(** ** Titles *)

Lemma spaceRun_members s : ∀ k w, w ∈ Js.spaceRun k s → w ∈ Js.whiteSpace.
Proof.
  induction s as [|c s IH]; intros k w; cbn [Js.spaceRun]; [by rewrite elem_of_nil|].
  destruct k as [|k]; [|apply IH].
  destruct (Js.spaceAt (String c s)) as [v|] eqn:E; [|by rewrite elem_of_nil].
  rewrite elem_of_cons. intros [->|H]; [|by eapply IH].
  by apply classAt_Some in E as [? _].
Qed.

Lemma matchTitle_shape afterHash heading :
  matchTitle afterHash = Some heading →
  Js.trim heading = heading ∧ Js.lineHead heading = heading.
Proof.
  unfold matchTitle. destruct (Js.spaceAt afterHash); [|done].
  destruct (negb (Js.isEmpty (Js.trimStart afterHash))).
  - intros [= <-]. split; [apply trim_idem|]. apply oneLine_trim, lineHead_idem.
  - destruct (List.find _ _) as [w|] eqn:F; [|done]. intros [= <-].
    apply find_some in F as [F _]. apply in_rev, list_elem_of_In in F.
    assert (w ∈ Js.spaceRun 0 afterHash) as Hw.
    { destruct (Js.spaceRun 0 afterHash); [done|]. by apply list_elem_of_further. }
    by rewrite (trim_space w) by (by eapply spaceRun_members).
Qed.

Lemma findTitle_shape s : ∀ atLineStart p2 p1 heading,
  findTitle atLineStart p2 p1 s = Some heading →
  Js.trim heading = heading ∧ Js.lineHead heading = heading.
Proof.
  induction s as [|c s IH]; intros b p2 p1 heading; cbn [findTitle]; [done|].
  destruct (b && Ascii.eqb c "#").
  - destruct (matchTitle s) as [h|] eqn:M.
    + intros [= <-]. by eapply matchTitle_shape.
    + apply IH.
  - apply IH.
Qed.

Lemma findTitle_no_hash s : ∀ atLineStart p2 p1,
  Js.indexOf "#" s = None → findTitle atLineStart p2 p1 s = None.
Proof.
  induction s as [|c s IH]; intros b p2 p1; cbn [findTitle Js.indexOf]; [done|].
  destruct (Ascii.eqb c "#"); [done|].
  destruct (Js.indexOf "#" s); [done|]. intros _. rewrite andb_false_r. by apply IH.
Qed.

Lemma trimStart_spaces spaces tail :
  Forall (λ w, w ∈ Js.whiteSpace) spaces → Js.spaceAt tail = None →
  Js.trimStart (foldr String.append tail spaces) = tail.
Proof.
  intros Hspaces Htail. induction Hspaces as [|w spaces Hw _ IH]; cbn [foldr].
  - by apply trimStart_no_space.
  - by rewrite trimStart_space.
Qed.

(** X25. The title found in a text.  When the text starts with [#], one or
    more white-space characters (those of ECMAScript, line breaks among
    them) and then a text that starts with no white space, the title is the
    first line of that text, trimmed: so a [#] alone on its line takes its
    title from the next text there is.  A text without [#] has the empty
    title.  Every title is trimmed and lies on one line. *)
Theorem getTitleFromContent_first_heading (spaces : list string) (tail content : string) :
  (spaces ≠ [] → Forall (λ w, w ∈ Js.whiteSpace) spaces →
   tail ≠ "" → Js.spaceAt tail = None →
   getTitleFromContent ("#" +:+ foldr String.append tail spaces)
   = Js.trim (Js.lineHead tail)) ∧
  (Js.indexOf "#" content = None → getTitleFromContent content = "") ∧
  Js.trim (getTitleFromContent content) = getTitleFromContent content ∧
  Js.lineHead (getTitleFromContent content) = getTitleFromContent content.
Proof.
  split; [|split; [|split]].
  - intros Hne Hspaces Htail Hhead. unfold getTitleFromContent.
    rewrite str_app_cons. change ("" +:+ ?x) with x. cbn [findTitle andb].
    change (Ascii.eqb "#" "#") with true. cbn match.
    unfold matchTitle. rewrite (trimStart_spaces _ _ Hspaces Hhead).
    destruct spaces as [|w spaces]; [done|]. cbn [foldr].
    apply Forall_cons in Hspaces as [Hw _].
    rewrite (spaceAt_member w _ Hw).
    apply isEmpty_false in Htail. by rewrite Htail.
  - intros H. unfold getTitleFromContent. by rewrite findTitle_no_hash.
  - unfold getTitleFromContent.
    destruct (findTitle true _ _ content) as [h|] eqn:F; [|done].
    by apply findTitle_shape in F as [? _].
  - unfold getTitleFromContent.
    destruct (findTitle true _ _ content) as [h|] eqn:F; [|done].
    by apply findTitle_shape in F as [_ ?].
Qed.

Lemma getTitleFromContent_first_heading_witness :
  getTitleFromContent
    ("#" +:+ foldr String.append ("Aelin  " +:+ String newline "" +:+ "more")
               [String newline ""; Js.bytes [227; 128; 128]; Js.bytes [194; 160]])
  = Js.trim (Js.lineHead ("Aelin  " +:+ String newline "" +:+ "more")).
Proof.
  apply (proj1 (getTitleFromContent_first_heading
                  [String newline ""; Js.bytes [227; 128; 128]; Js.bytes [194; 160]]
                  ("Aelin  " +:+ String newline "" +:+ "more") ""));
    [discriminate| |discriminate|reflexivity].
  repeat constructor.
Defined.

(** ** Document names *)

(** X26. A file counts as a document when the text from the last dot of
    its name on is [.md] or [.mdx] in any letter case and the dot is not the
    first character.  Such a name is a base that is not empty followed by
    that extension, [stripDocExtension] returns exactly the base, and the
    name passes the extension test of the link resolver. *)
Theorem isDocName_base_and_extension (name : string) :
  isDocName name = true →
  ∃ ext, name = stripDocExtension name +:+ ext ∧ stripDocExtension name ≠ "" ∧
         (Js.toLowerCase ext = ".md" ∨ Js.toLowerCase ext = ".mdx") ∧
         isMarkdownPath name = true.
Proof.
  intros (base & ext & -> & Hbase & Hext)%isDocName_split.
  destruct (stripDocExtension_ext base ext Hext) as [-> Hmd]. by exists ext.
Qed.

Lemma isDocName_base_and_extension_witness :
  (isDocName ".md" = false ∧ stripDocExtension ".md" = "") ∧
  ∃ ext, "Read.Me.MDX" = stripDocExtension "Read.Me.MDX" +:+ ext ∧
         stripDocExtension "Read.Me.MDX" ≠ "" ∧
         (Js.toLowerCase ext = ".md" ∨ Js.toLowerCase ext = ".mdx") ∧
         isMarkdownPath "Read.Me.MDX" = true.
Proof.
  split; [by split|]. by apply (isDocName_base_and_extension "Read.Me.MDX").
Defined.

(** ** Search on the docs page *)

Section SearchFacts.
  Variable toLowerCase : string → string.

Lemma searchScore_positive query entry :
  (0 <? searchScore toLowerCase query entry) = searchHit toLowerCase query entry.
Proof.
  unfold searchScore, searchHit.
  destruct (includes query (toLowerCase (entryTitle entry))),
           (includes query (toLowerCase (entryRelPath entry))),
           (includes query (haystack toLowerCase entry)); reflexivity.
Qed.

Lemma filter_scored query entries :
  fst <$> List.filter (λ item : DocSearchEntry * nat, 0 <? item.2)
            ((λ entry, (entry, searchScore toLowerCase query entry)) <$> entries)
  = List.filter (searchHit toLowerCase query) entries.
Proof.
  induction entries as [|e l IH]; [done|]. cbn [fmap list_fmap List.filter snd].
  rewrite searchScore_positive. destruct (searchHit toLowerCase query e); [|exact IH].
  cbn [fmap list_fmap fst]. f_equal. exact IH.
Qed.

Lemma StronglySorted_scored query (items : list (DocSearchEntry * nat)) :
  Forall (λ item, item.2 = searchScore toLowerCase query item.1) items →
  StronglySorted
    (λ a b, notAfter (λ a b : DocSearchEntry * nat, (Z.of_nat b.2 - Z.of_nat a.2)%Z) a b
            = true) items →
  StronglySorted (λ a b, searchScore toLowerCase query b ≤ searchScore toLowerCase query a)
    (fst <$> items).
Proof.
  intros Hscore. induction 1 as [|item items Hs IH Hall]; [constructor|].
  apply Forall_cons in Hscore as [Hitem Hscore]. cbn [fmap list_fmap].
  constructor; [by apply IH|]. apply Forall_fmap.
  rewrite Forall_forall in Hall, Hscore |- *. intros other Hin. cbn.
  specialize (Hall other Hin). rewrite <- Hitem, <- (Hscore other Hin).
  unfold notAfter in Hall. apply Z.leb_le in Hall. lia.
Qed.

(** The sort by falling score is stable: the items of one score keep
    their order. *)
Lemma insertSorted_score_class k (x : DocSearchEntry * nat) l :
  List.filter (λ item : DocSearchEntry * nat, item.2 =? k)
    (insertSorted (λ a b : DocSearchEntry * nat, (Z.of_nat b.2 - Z.of_nat a.2)%Z) x l)
  = List.filter (λ item : DocSearchEntry * nat, item.2 =? k) (x :: l).
Proof.
  induction l as [|y l IH]; [done|]. cbn [insertSorted].
  destruct (notAfter _ x y) eqn:E; [done|].
  unfold notAfter in E. apply Z.leb_gt in E.
  cbn [List.filter] in *. rewrite IH.
  destruct (Nat.eqb_spec x.2 k) as [Hx|Hx], (Nat.eqb_spec y.2 k) as [Hy|Hy];
    try done. lia.
Qed.

Lemma arraySort_score_class k (l : list (DocSearchEntry * nat)) :
  List.filter (λ item : DocSearchEntry * nat, item.2 =? k)
    (arraySort (λ a b : DocSearchEntry * nat, (Z.of_nat b.2 - Z.of_nat a.2)%Z) l)
  = List.filter (λ item : DocSearchEntry * nat, item.2 =? k) l.
Proof.
  induction l as [|x l IH]; [done|]. cbn [arraySort foldr].
  rewrite insertSorted_score_class. cbn [List.filter].
  unfold arraySort in IH. by rewrite IH.
Qed.

Lemma filter_fst_scored query k (items : list (DocSearchEntry * nat)) :
  Forall (λ item, item.2 = searchScore toLowerCase query item.1) items →
  List.filter (λ entry, searchScore toLowerCase query entry =? k) (fst <$> items)
  = fst <$> List.filter (λ item : DocSearchEntry * nat, item.2 =? k) items.
Proof.
  induction 1 as [|item items Hitem _ IH]; [done|].
  cbn [fmap list_fmap List.filter]. rewrite <- Hitem.
  destruct (item.2 =? k); cbn [fmap list_fmap]; by rewrite IH.
Qed.

(** X28. Search on the docs page, whatever the lower-casing.  A query that
    is empty once trimmed and lower-cased finds nothing.  Otherwise the
    entries found are those with a hit of the query in the lower-cased
    title, in the lower-cased path or in the lower-cased text of title,
    description and path, each as often as it is listed and no other; they
    are listed by falling score; and the entries of one score keep the order
    in which they are listed. *)
Theorem searchResults_ranked (searchEntries : list DocSearchEntry) (searchQuery : string) :
  let query := toLowerCase (Js.trim searchQuery) in
  let found := searchResults toLowerCase searchEntries searchQuery in
  let hits := List.filter (searchHit toLowerCase query) searchEntries in
  (if Js.isEmpty query then found = [] else Permutation found hits) ∧
  StronglySorted
    (λ a b, searchScore toLowerCase query b ≤ searchScore toLowerCase query a) found ∧
  (Js.isEmpty query = false →
   ∀ k, List.filter (λ entry, searchScore toLowerCase query entry =? k) found
        = List.filter (λ entry, searchScore toLowerCase query entry =? k) hits).
Proof.
  intros query found hits. subst found hits. unfold searchResults. fold query.
  destruct (Js.isEmpty query); [by repeat constructor|].
  set (cmp := λ a b : DocSearchEntry * nat, (Z.of_nat b.2 - Z.of_nat a.2)%Z).
  set (items := List.filter (λ item : DocSearchEntry * nat, 0 <? item.2)
                  ((λ entry, (entry, searchScore toLowerCase query entry)) <$> searchEntries)).
  assert (Forall (λ item, item.2 = searchScore toLowerCase query item.1) items) as Hitems.
  { subst items. apply Forall_forall. intros item Hin.
    apply list_elem_of_In, filter_In in Hin as [Hin _].
    apply list_elem_of_In, list_elem_of_fmap in Hin as (e & -> & _). done. }
  split; [|split].
  - rewrite (arraySort_perm cmp items). subst items. by rewrite filter_scored.
  - apply StronglySorted_scored.
    + by rewrite (arraySort_perm cmp items).
    + apply arraySort_sorted.
      * intros a b. unfold notAfter, cmp. rewrite !Z.leb_le. lia.
      * intros a b c. unfold notAfter, cmp. rewrite !Z.leb_le. lia.
  - intros _ k.
    rewrite (filter_fst_scored query k) by (by rewrite (arraySort_perm cmp items)).
    rewrite arraySort_score_class, <- (filter_fst_scored query k) by exact Hitems.
    subst items. by rewrite filter_scored.
Qed.

End SearchFacts.

(** ** The order of a directory listing *)

Lemma StronglySorted_Permutation_eq {A} (le : A → A → Prop) (l l' : list A) :
  (∀ a b, a ∈ l → b ∈ l → le a b → le b a → a = b) →
  StronglySorted le l → StronglySorted le l' → Permutation l l' → l = l'.
Proof.
  intros Hanti Hl. revert l' Hanti.
  induction Hl as [|x t Ht IH Hx]; intros l' Hanti Hl' Hperm.
  - by apply Permutation_nil_l in Hperm.
  - destruct l' as [|y t']; [by apply Permutation_nil_r in Hperm|].
    apply StronglySorted_inv in Hl' as [Ht' Hy].
    rewrite Forall_forall in Hx, Hy.
    assert (x = y) as ->.
    { assert (x ∈ y :: t') as Hxin by (rewrite <- Hperm; apply list_elem_of_here).
      assert (y ∈ x :: t) as Hyin by (rewrite Hperm; apply list_elem_of_here).
      apply elem_of_cons in Hxin as [->|Hxin]; [done|].
      apply elem_of_cons in Hyin as [->|Hyin]; [done|].
      apply Hanti; [apply list_elem_of_here|by apply list_elem_of_further| |].
      - by apply Hx.
      - by apply Hy. }
    f_equal. apply IH; [|done|by apply Permutation_cons_inv in Hperm].
    intros a b Ha Hb. apply Hanti; by apply list_elem_of_further.
Qed.

Lemma untiedListing_entries localeCompare entries :
  untiedListing localeCompare (FsDir entries) ↔
  untied localeCompare (fst <$> entries) ∧
  Forall (λ entry, untiedListing localeCompare entry.2) entries.
Proof. cbn [untiedListing]. by rewrite foldr_and_Forall. Qed.

Section ListingOrder.
  Variable localeCompare : string → string → Z.
  Variable matter : string → list (string * JsValue) * string.
  Hypothesis locale_sym :
    ∀ a b, Z.sgn (localeCompare b a) = (- Z.sgn (localeCompare a b))%Z.
  Hypothesis locale_trans :
    ∀ a b c, (localeCompare a b ≤ 0)%Z → (localeCompare b c ≤ 0)%Z →
             (localeCompare a c ≤ 0)%Z.

  Local Abbreviation byName :=
    (λ a b : string * list RawDocRecord, localeCompare a.1 b.1).
  Local Abbreviation readDocsIn' := (readDocsIn localeCompare matter).

Lemma byName_total a b : notAfter byName a b = true ∨ notAfter byName b a = true.
Proof.
  unfold notAfter. rewrite !Z.leb_le. pose proof (locale_sym a.1 b.1). lia.
Qed.

Lemma byName_trans a b c :
  notAfter byName a b = true → notAfter byName b c = true →
  notAfter byName a c = true.
Proof. unfold notAfter. rewrite !Z.leb_le. apply locale_trans. Qed.

Lemma arraySort_byName_Permutation (l l' : list (string * list RawDocRecord)) :
  NoDup (fst <$> l) → untied localeCompare (fst <$> l) → Permutation l l' →
  arraySort byName l = arraySort byName l'.
Proof.
  intros Hnames Htie Hperm.
  apply (StronglySorted_Permutation_eq (λ a b, notAfter byName a b = true)).
  - intros a b Ha Hb Hab Hba. rewrite (arraySort_perm byName l) in Ha, Hb.
    unfold notAfter in Hab, Hba. apply Z.leb_le in Hab, Hba.
    pose proof (locale_sym a.1 b.1) as Hs.
    assert (localeCompare a.1 b.1 = 0%Z) as Hz by lia.
    apply Htie in Hz; [|by apply list_elem_of_fmap_2..].
    apply list_elem_of_lookup in Ha as [i Hi]. apply list_elem_of_lookup in Hb as [j Hj].
    assert (i = j) as ->; [|congruence].
    eapply NoDup_lookup; [exact Hnames| |]; rewrite list_lookup_fmap.
    + by rewrite Hi.
    + by rewrite Hj, Hz.
  - apply arraySort_sorted; [apply byName_total|apply byName_trans].
  - apply arraySort_sorted; [apply byName_total|apply byName_trans].
  - by rewrite !(arraySort_perm byName).
Qed.

Lemma readDocsIn_sameFiles n : ∀ n' currentDir,
  wellFormed n → untiedListing localeCompare n → sameFiles n n' →
  readDocsIn' currentDir n = readDocsIn' currentDir n'.
Proof.
  induction n as [|entries IH] using FsNode_nested_ind;
    intros n' currentDir Hwf Huntied Hsame.
  - by inversion Hsame.
  - inversion Hsame as [|? listed entries' Hperm Hall]; subst.
    apply wellFormed_entries in Hwf as (Hnames & _ & Hsub).
    apply untiedListing_entries in Huntied as (Htie & Hties).
    cbn [readDocsIn]. f_equal. f_equal.
    set (visit := λ entry : string * FsNode,
           (entry.1,
            match entry.2 with
            | FsFile _ source =>
                if isDocName entry.1
                then [rawDocOf matter (nextRelativePath currentDir entry.1) entry.1 source]
                else []
            | FsDir _ => readDocsIn' (nextRelativePath currentDir entry.1) entry.2
            end)).
    transitivity (arraySort byName (visit <$> listed)).
    + apply arraySort_byName_Permutation; [| |by apply fmap_Permutation];
        rewrite <- list_fmap_compose; [exact Hnames|exact Htie].
    + f_equal. rewrite Hperm in IH, Hsub, Hties. clear Hperm Hnames Htie Hsame.
      induction Hall as [|[name n] [name' n'] listed entries' [Hn Hs] _ IHall];
        [done|].
      apply Forall_cons in IH as [IHn IH]. apply Forall_cons in Hsub as [Hwf Hsub].
      apply Forall_cons in Hties as [Hut Hties].
      cbn [fst snd] in Hn, Hs, IHn, Hwf, Hut. subst name'.
      cbn [fmap list_fmap]. f_equal; [|by apply IHall].
      unfold visit. cbn [fst snd]. f_equal.
      destruct n as [mtimeMs content|children].
      * by inversion Hs.
      * inversion Hs; subst. by apply IHn.
Qed.

(** X29. The documents read do not depend on the order in which the
    directories are listed.  For a consistent locale comparison and a
    content directory in which no directory lists a name twice and the
    comparison reports no two different names of one directory as equal,
    [readDocsRecursively] returns the same list of documents, in the same
    order, for every order in which the entries of each directory come. *)
Theorem readDocsRecursively_any_listing (root root' : list (string * FsNode)) :
  wellFormed (FsDir root) → untiedListing localeCompare (FsDir root) →
  sameFiles (FsDir root) (FsDir root') →
  readDocsRecursively localeCompare matter root
  = readDocsRecursively localeCompare matter root'.
Proof. intros Hwf Huntied Hsame. by apply readDocsIn_sameFiles. Qed.

End ListingOrder.

Lemma untiedListing_codeUnitCompare n : untiedListing codeUnitCompare n.
Proof.
  induction n as [|entries IH] using FsNode_nested_ind; [exact I|].
  apply untiedListing_entries. split; [|exact IH].
  intros a b _ _. apply codeUnitCompare_tie.
Qed.

Lemma readDocsRecursively_any_listing_witness :
  readDocsRecursively codeUnitCompare plainMatter sampleRoot
  = readDocsRecursively codeUnitCompare plainMatter listedRoot.
Proof.
  apply (readDocsRecursively_any_listing codeUnitCompare plainMatter
           codeUnitCompare_sym codeUnitCompare_trans
           sampleRoot listedRoot wellFormed_sampleRoot
           (untiedListing_codeUnitCompare (FsDir sampleRoot))).
  eapply sameFiles_dir; [apply perm_swap|].
  repeat constructor. cbn [snd].
  eapply sameFiles_dir; [apply perm_swap|]. repeat constructor.
Defined.
